(** * Animation subsystem of the site: particle pool and animation controller

    A shallow embedding of [lib/animationPrimitives.ts] (class
    [ParticleSystem]) and [lib/animationController.ts] (classes
    [AnimationController] and [AnimationErrorHandler]), with the properties
    of the specification stated and proved over it.

    Conventions of the embedding.
    - JavaScript objects have identity and are mutated in place.  Particle
      records, DOM elements, the controller's [Set] and its metrics record
      live in a store (a [gmap] from references to values); arrays and
      fields hold references.
    - A JavaScript [number] is a type [num] with the operations of the
      interface [JsNumber].  Everything structural is proved for every
      implementation of that interface; concrete runs use exact rationals.
    - A call that can raise returns [Res]; [Throw] is an uncaught exception.
    - What the host does (firing a frame, delivering an intersection entry,
      a change of the reduced-motion preference) is an explicit operation. *)

From Stdlib Require Import QArith Lqa.
From stdpp Require Import gmap strings list.

Set Default Proof Using "Type*".

(** ** Results of calls that may raise *)

Inductive JsError :=
| TypeError
| SyntaxError
| InvalidCharacterError.

(** [Ok a]: the call returned, leaving [a].  [Throw e a]: it raised [e],
    not caught, when it had reached [a]. *)
Inductive Res (A : Type) :=
| Ok (a : A)
| Throw (e : JsError) (a : A).
Arguments Ok {A} a.
Arguments Throw {A} e a.

Definition bindRes {A} (r : Res A) (k : A -> Res A) : Res A :=
  match r with
  | Ok a => k a
  | Throw e a => Throw e a
  end.

Definition isOk {A} (r : Res A) : bool :=
  match r with Ok _ => true | Throw _ _ => false end.

(** What the call left behind, returned or not. *)
Definition reached {A} (r : Res A) : A :=
  match r with Ok a => a | Throw _ a => a end.

(** ** JavaScript numbers *)

(** The arithmetic the two source files use.  [lit q] is the numeric literal
    written [q] in the source; [truthy] is ToBoolean (what [a || b] tests);
    [a > b] in the source is [ltb b a]. *)
Class JsNumber (num : Type) := {
  lit : Q -> num;
  add : num -> num -> num;
  sub : num -> num -> num;
  mul : num -> num -> num;
  div : num -> num -> num;
  ltb : num -> num -> bool;
  leb : num -> num -> bool;
  nmin : num -> num -> num;
  truthy : num -> bool;
  ofNat : nat -> num
}.

(** Exact rationals, for concrete runs.  They agree with doubles on the
    inputs used below except for rounding; no run below divides by zero. *)
#[export] Instance Q_JsNumber : JsNumber Q := {|
  lit := fun q => q;
  add := Qplus;
  sub := Qminus;
  mul := Qmult;
  div := Qdiv;
  ltb := fun a b => negb (Qle_bool b a);
  leb := Qle_bool;
  nmin := fun a b => if Qle_bool a b then a else b;
  truthy := fun a => negb (Qeq_bool a 0);
  ofNat := fun n => inject_Z (Z.of_nat n)
|}.

(** ** Arrays *)

(** [Array.prototype.pop]: the last element and the array without it. *)
Definition pop {A} (l : list A) : option (A * list A) :=
  match reverse l with
  | [] => None
  | a :: r => Some (a, reverse r)
  end.

(** [Array.prototype.push]. *)
Definition push {A} (l : list A) (a : A) : list A := l ++ [a].

(** [Array.prototype.indexOf] on an array of references: the first index
    holding that reference, [None] for -1. *)
Fixpoint indexOf (l : list nat) (p : nat) : option nat :=
  match l with
  | [] => None
  | a :: r => if decide (a = p) then Some 0 else S <$> indexOf r p
  end.

(** ** The particle system (animationPrimitives.ts) *)

Module Primitives.
Section WithNumber.
Context {num : Type} `{JsNumber num}.

Record Range := { rmin : num; rmax : num }.

Record ParticleSystemConfig := {
  count : nat;
  colors : list string;
  size : Range;
  speed : Range;
  cfg_opacity : Range;
  lifetime : num
}.

Record Particle := {
  x : num;
  y : num;
  vx : num;
  vy : num;
  opacity : num;
  scale : num;
  element : nat;
  active : bool
}.

(** [style.transform]: [translate3d(tx px, ty px, 0)], followed by
    [scale(s)] once [updateParticleElement] has written it. *)
Inductive Transform :=
| Translate3d (tx ty : num) (sc : option num).

(** A particle's [div].  Its width, height and colour are written once, by
    [createParticleElement], as functions of the configuration and of the
    index ([seededRandom (index * 7)] and so on): [cssIndex] keeps that
    index.  [style_opacity] is [None] until the property is first set.
    [parentNode] tells whether the node is attached to the container. *)
Record Element := {
  cssIndex : nat;
  style_transform : Transform;
  style_opacity : option num;
  parentNode : bool
}.

(** The instance together with the part of the host it touches: the store
    of particle objects, the DOM nodes it created, the container's layout
    box, and the host's queue of frame requests whose callback is
    [this.animate]. *)
Record ParticleSystem := {
  particles : list nat;
  particlePool : list nat;
  config : ParticleSystemConfig;
  animationFrame : nat;
  isRunning : bool;
  lastTime : num;
  objects : gmap nat Particle;
  elements : gmap nat Element;
  offsetWidth : num;
  offsetHeight : num;
  frameQueue : list nat;
  nextHandle : nat
}.

Definition set_particles (l : list nat) (s : ParticleSystem) :=
  {| particles := l; particlePool := particlePool s; config := config s;
     animationFrame := animationFrame s; isRunning := isRunning s;
     lastTime := lastTime s; objects := objects s; elements := elements s;
     offsetWidth := offsetWidth s; offsetHeight := offsetHeight s;
     frameQueue := frameQueue s; nextHandle := nextHandle s |}.

Definition set_particlePool (l : list nat) (s : ParticleSystem) :=
  {| particles := particles s; particlePool := l; config := config s;
     animationFrame := animationFrame s; isRunning := isRunning s;
     lastTime := lastTime s; objects := objects s; elements := elements s;
     offsetWidth := offsetWidth s; offsetHeight := offsetHeight s;
     frameQueue := frameQueue s; nextHandle := nextHandle s |}.

Definition set_animationFrame (h : nat) (s : ParticleSystem) :=
  {| particles := particles s; particlePool := particlePool s;
     config := config s;
     animationFrame := h; isRunning := isRunning s;
     lastTime := lastTime s; objects := objects s; elements := elements s;
     offsetWidth := offsetWidth s; offsetHeight := offsetHeight s;
     frameQueue := frameQueue s; nextHandle := nextHandle s |}.

Definition set_isRunning (b : bool) (s : ParticleSystem) :=
  {| particles := particles s; particlePool := particlePool s;
     config := config s;
     animationFrame := animationFrame s; isRunning := b;
     lastTime := lastTime s; objects := objects s; elements := elements s;
     offsetWidth := offsetWidth s; offsetHeight := offsetHeight s;
     frameQueue := frameQueue s; nextHandle := nextHandle s |}.

Definition set_lastTime (t : num) (s : ParticleSystem) :=
  {| particles := particles s; particlePool := particlePool s;
     config := config s;
     animationFrame := animationFrame s; isRunning := isRunning s;
     lastTime := t; objects := objects s; elements := elements s;
     offsetWidth := offsetWidth s; offsetHeight := offsetHeight s;
     frameQueue := frameQueue s; nextHandle := nextHandle s |}.

Definition set_objects (m : gmap nat Particle) (s : ParticleSystem) :=
  {| particles := particles s; particlePool := particlePool s;
     config := config s;
     animationFrame := animationFrame s; isRunning := isRunning s;
     lastTime := lastTime s; objects := m; elements := elements s;
     offsetWidth := offsetWidth s; offsetHeight := offsetHeight s;
     frameQueue := frameQueue s; nextHandle := nextHandle s |}.

Definition set_elements (m : gmap nat Element) (s : ParticleSystem) :=
  {| particles := particles s; particlePool := particlePool s;
     config := config s;
     animationFrame := animationFrame s; isRunning := isRunning s;
     lastTime := lastTime s; objects := objects s; elements := m;
     offsetWidth := offsetWidth s; offsetHeight := offsetHeight s;
     frameQueue := frameQueue s; nextHandle := nextHandle s |}.

Definition set_layout (w h : num) (s : ParticleSystem) :=
  {| particles := particles s; particlePool := particlePool s;
     config := config s;
     animationFrame := animationFrame s; isRunning := isRunning s;
     lastTime := lastTime s; objects := objects s; elements := elements s;
     offsetWidth := w; offsetHeight := h;
     frameQueue := frameQueue s; nextHandle := nextHandle s |}.

Definition set_host (q : list nat) (n : nat) (s : ParticleSystem) :=
  {| particles := particles s; particlePool := particlePool s;
     config := config s;
     animationFrame := animationFrame s; isRunning := isRunning s;
     lastTime := lastTime s; objects := objects s; elements := elements s;
     offsetWidth := offsetWidth s; offsetHeight := offsetHeight s;
     frameQueue := q; nextHandle := n |}.

(** *** The host's frame scheduler *)

(** [requestAnimationFrame(this.animate)]: a fresh non-zero handle, queued. *)
Definition requestAnimationFrame (s : ParticleSystem) : nat * ParticleSystem :=
  let h := S (nextHandle s) in
  (h, set_host (push (frameQueue s) h) h s).

(** [cancelAnimationFrame(h)]: the request is dropped; unknown handles are
    ignored. *)
Definition cancelAnimationFrame (h : nat) (s : ParticleSystem) : ParticleSystem :=
  set_host (filter (fun k => k ≠ h) (frameQueue s)) (nextHandle s) s.

(** *** Field updates of a particle object and of an element *)

Definition with_active (b : bool) (o : Particle) : Particle :=
  {| x := x o; y := y o; vx := vx o; vy := vy o; opacity := opacity o;
     scale := scale o; element := element o; active := b |}.

Definition with_spawn (px py pvx pvy op sc : num) (o : Particle) : Particle :=
  {| x := px; y := py; vx := pvx; vy := pvy; opacity := op;
     scale := sc; element := element o; active := active o |}.

Definition with_style_opacity (v : num) (e : Element) : Element :=
  {| cssIndex := cssIndex e; style_transform := style_transform e;
     style_opacity := Some v; parentNode := parentNode e |}.

Definition with_style (t : Transform) (v : num) (e : Element) : Element :=
  {| cssIndex := cssIndex e; style_transform := t;
     style_opacity := Some v; parentNode := parentNode e |}.

Definition detached (e : Element) : Element :=
  {| cssIndex := cssIndex e; style_transform := style_transform e;
     style_opacity := style_opacity e; parentNode := false |}.

(** *** createPool and createParticleElement (lines 71-105) *)

(** The element of index [index], appended to the container.  The [index]-th
    node this system creates is node [index] of [elements]. *)
Definition createParticleElement (index : nat) (s : ParticleSystem)
  : nat * ParticleSystem :=
  let e := {| cssIndex := index;
              style_transform := Translate3d (lit 0) (lit 0) None;
              style_opacity := None;
              parentNode := true |} in
  (index, set_elements (<[index := e]> (elements s)) s).

(** One turn of the loop of [createPool]; the [i]-th particle object is
    object [i] of [objects]. *)
Definition createPool_body (i : nat) (s : ParticleSystem) : ParticleSystem :=
  let '(el, s1) := createParticleElement i s in
  let particle := {| x := lit 0; y := lit 0; vx := lit 0; vy := lit 0;
                     opacity := lit 0; scale := lit 1;
                     element := el; active := false |} in
  set_particlePool (push (particlePool s1) i)
    (set_objects (<[i := particle]> (objects s1)) s1).

Fixpoint createPool_from (i n : nat) (s : ParticleSystem) : ParticleSystem :=
  match n with
  | 0 => s
  | S n' => createPool_from (S i) n' (createPool_body i s)
  end.

Definition createPool (s : ParticleSystem) : ParticleSystem :=
  createPool_from 0 (count (config s)) s.

(** [new ParticleSystem(container, config)], for a container whose layout
    box is [w] by [h]. *)
Definition new (cfg : ParticleSystemConfig) (w h : num) : ParticleSystem :=
  createPool
    {| particles := []; particlePool := []; config := cfg;
       animationFrame := 0; isRunning := false; lastTime := lit 0;
       objects := ∅; elements := ∅;
       offsetWidth := w; offsetHeight := h;
       frameQueue := []; nextHandle := 0 |}.

(** *** getParticle and returnParticle (lines 110-131) *)

Definition getParticle (s : ParticleSystem) : option nat * ParticleSystem :=
  match pop (particlePool s) with
  | Some (particle, pool') =>
      let s1 := set_particlePool pool' s in
      let s2 := set_objects (alter (with_active true) particle (objects s1)) s1 in
      (Some particle, set_particles (push (particles s2) particle) s2)
  | None => (None, s)
  end.

(** A reference always resolves: the [None] branch of the lookup is only
    there to make the function total. *)
Definition returnParticle (particle : nat) (s : ParticleSystem) : ParticleSystem :=
  let s1 := set_objects (alter (with_active false) particle (objects s)) s in
  let s2 :=
    match objects s1 !! particle with
    | Some o =>
        set_elements (alter (with_style_opacity (lit 0)) (element o) (elements s1)) s1
    | None => s1
    end in
  match indexOf (particles s2) particle with
  | Some index =>
      set_particlePool (push (particlePool s2) particle)
        (set_particles (delete index (particles s2)) s2)
  | None => s2
  end.

(** *** updateParticleElement and spawnParticle (lines 136-157) *)

Definition updateParticleElement (particle : nat) (s : ParticleSystem)
  : ParticleSystem :=
  match objects s !! particle with
  | Some o =>
      set_elements
        (alter (with_style (Translate3d (x o) (y o) (Some (scale o))) (opacity o))
               (element o) (elements s)) s
  | None => s
  end.

(** [r1] and [r2] are the two values [Math.random()] returns. *)
Definition spawnParticle (px py pvx pvy r1 r2 : num) (s : ParticleSystem)
  : ParticleSystem :=
  match getParticle s with
  | (None, s') => s'
  | (Some particle, s1) =>
      let omin := rmin (cfg_opacity (config s1)) in
      let omax := rmax (cfg_opacity (config s1)) in
      let op := add omin (mul r1 (sub omax omin)) in
      let sc := add (lit 0.5) (mul r2 (lit 0.5)) in
      updateParticleElement particle
        (set_objects (alter (with_spawn px py pvx pvy op sc) particle (objects s1)) s1)
  end.

(** *** updateParticles (lines 162-183) *)

(** The three assignments at the top of the loop body. *)
Definition advance (lt deltaTime : num) (o : Particle) : Particle :=
  {| x := add (x o) (mul (vx o) deltaTime);
     y := add (y o) (mul (vy o) deltaTime);
     vx := vx o; vy := vy o;
     opacity := sub (opacity o) (div deltaTime lt);
     scale := scale o; element := element o; active := active o |}.

(** The condition of the [if]: faded out, or outside the container's box
    padded by 50. *)
Definition expired (w h : num) (o : Particle) : bool :=
  leb (opacity o) (lit 0)
  || ltb (x o) (lit (-50)) || ltb (add w (lit 50)) (x o)
  || ltb (y o) (lit (-50)) || ltb (add h (lit 50)) (y o).

(** The body for index [i]; [this.particles[i]] being [undefined] would raise
    a [TypeError] at [particle.x]. *)
Definition updateParticles_body (deltaTime : num) (i : nat) (s : ParticleSystem)
  : Res ParticleSystem :=
  match particles s !! i with
  | None => Throw TypeError s
  | Some particle =>
      let s1 := set_objects
                  (alter (advance (lifetime (config s)) deltaTime) particle
                         (objects s)) s in
      match objects s1 !! particle with
      | Some o =>
          if expired (offsetWidth s1) (offsetHeight s1) o
          then Ok (returnParticle particle s1)
          else Ok (updateParticleElement particle s1)
      | None => Ok s1
      end
  end.

(** [for (let i = n - 1; i >= 0; i--)]. *)
Fixpoint updateParticles_from (deltaTime : num) (n : nat) (s : ParticleSystem)
  : Res ParticleSystem :=
  match n with
  | 0 => Ok s
  | S i => bindRes (updateParticles_body deltaTime i s)
                   (updateParticles_from deltaTime i)
  end.

Definition updateParticles (deltaTime : num) (s : ParticleSystem)
  : Res ParticleSystem :=
  updateParticles_from deltaTime (length (particles s)) s.

(** *** animate, start, stop (lines 188-218) *)

(** [Math.min((currentTime - (this.lastTime || currentTime)) / 1000, 0.016)]. *)
Definition frameDelta (currentTime last : num) : num :=
  nmin (div (sub currentTime (if truthy last then last else currentTime))
            (lit 1000))
       (lit 0.016).

Definition animate (currentTime : num) (s : ParticleSystem) : Res ParticleSystem :=
  if negb (isRunning s) then Ok s
  else
    let deltaTime := frameDelta currentTime (lastTime s) in
    let s1 := set_lastTime currentTime s in
    bindRes (updateParticles deltaTime s1) (fun s2 =>
      let '(h, s3) := requestAnimationFrame s2 in
      Ok (set_animationFrame h s3)).

Definition start (s : ParticleSystem) : ParticleSystem :=
  if isRunning s then s
  else
    let s1 := set_isRunning true s in
    let '(h, s2) := requestAnimationFrame s1 in
    set_animationFrame h s2.

Definition stop (s : ParticleSystem) : ParticleSystem :=
  let s1 := set_isRunning false s in
  match animationFrame s1 with
  | 0 => s1
  | S _ => set_animationFrame 0 (cancelAnimationFrame (animationFrame s1) s1)
  end.

(** *** reset and cleanup (lines 223-247) *)

(** [while (this.particles.length > 0) this.returnParticle(this.particles[0])],
    unrolled [fuel] times. *)
Fixpoint reset_loop (fuel : nat) (s : ParticleSystem) : ParticleSystem :=
  match fuel with
  | 0 => s
  | S f =>
      match particles s with
      | [] => s
      | particle :: _ => reset_loop f (returnParticle particle s)
      end
  end.

Definition reset (s : ParticleSystem) : ParticleSystem :=
  let s1 := stop s in
  reset_loop (length (particles s1)) s1.

(** The callback of the [forEach] of [cleanup]. *)
Definition removeElement (particle : nat) (s : ParticleSystem) : ParticleSystem :=
  match objects s !! particle with
  | Some o =>
      match elements s !! element o with
      | Some e =>
          if parentNode e
          then set_elements (<[element o := detached e]> (elements s)) s
          else s
      | None => s
      end
  | None => s
  end.

Definition cleanup (s : ParticleSystem) : ParticleSystem :=
  let s1 := reset s in
  let s2 := foldl (fun acc particle => removeElement particle acc) s1
                  (particlePool s1 ++ particles s1) in
  set_particlePool [] (set_particles [] s2).

(** *** What can happen to a live system *)

(** The public methods, and the two things the host does: it fires the frame
    request [h] at time [t] (nothing runs when [h] was cancelled or never
    issued), and it lays the container out anew. *)
Inductive Op :=
| OpSpawn (px py pvx pvy r1 r2 : num)
| OpStart
| OpStop
| OpReset
| OpCleanup
| OpFrame (h : nat) (t : num)
| OpResize (w h : num).

Definition fire (h : nat) (t : num) (s : ParticleSystem) : Res ParticleSystem :=
  if bool_decide (h ∈ frameQueue s)
  then animate t (cancelAnimationFrame h s)
  else Ok s.

Definition step (o : Op) (s : ParticleSystem) : Res ParticleSystem :=
  match o with
  | OpSpawn px py pvx pvy r1 r2 => Ok (spawnParticle px py pvx pvy r1 r2 s)
  | OpStart => Ok (start s)
  | OpStop => Ok (stop s)
  | OpReset => Ok (reset s)
  | OpCleanup => Ok (cleanup s)
  | OpFrame h t => fire h t s
  | OpResize w h => Ok (set_layout w h s)
  end.

Fixpoint run (ops : list Op) (s : ParticleSystem) : Res ParticleSystem :=
  match ops with
  | [] => Ok s
  | o :: rest => bindRes (step o s) (run rest)
  end.

Definition isCleanup (o : Op) : bool :=
  match o with OpCleanup => true | _ => false end.

(** A call of [spawnParticle], by its six inputs. *)
Definition spawnOf (a : num * num * num * num * num * num) : Op :=
  let '(px, py, pvx, pvy, r1, r2) := a in OpSpawn px py pvx pvy r1 r2.

(** *** Invariants *)

(** The references of the particles [createPool] made. *)
Definition created (s : ParticleSystem) : list nat :=
  seq 0 (count (config s)).

(** Every created particle is in the active list or in the pool, once. *)
Definition partitioned (s : ParticleSystem) : Prop :=
  particles s ++ particlePool s ≡ₚ created s.

(** No reference is held twice, and only created particles are held. *)
Definition held_ok (s : ParticleSystem) : Prop :=
  NoDup (particles s ++ particlePool s)
  ∧ ∀ p, p ∈ particles s ++ particlePool s → p < count (config s).

(** Every created particle is in the store with its own element, and its
    [active] flag tells whether it is in the active list. *)
Definition store_ok (s : ParticleSystem) : Prop :=
  ∀ p, p < count (config s) →
    ∃ o, objects s !! p = Some o
         ∧ element o = p
         ∧ active o = bool_decide (p ∈ particles s)
         ∧ is_Some (elements s !! p).

(** At most one frame request is pending, and only while running. *)
Definition sched_ok (s : ParticleSystem) : Prop :=
  if isRunning s
  then animationFrame s = nextHandle s
       ∧ animationFrame s ≠ 0
       ∧ frameQueue s = [animationFrame s]
  else animationFrame s = 0 ∧ frameQueue s = [].

Definition wf (s : ParticleSystem) : Prop :=
  held_ok s ∧ store_ok s ∧ sched_ok s.

(** Two states that differ at most in the two arrays and the two stores. *)
Definition same_control (s s' : ParticleSystem) : Prop :=
  config s' = config s
  ∧ animationFrame s' = animationFrame s
  ∧ isRunning s' = isRunning s
  ∧ lastTime s' = lastTime s
  ∧ offsetWidth s' = offsetWidth s
  ∧ offsetHeight s' = offsetHeight s
  ∧ frameQueue s' = frameQueue s
  ∧ nextHandle s' = nextHandle s.

(** Whether the turn of the loop of [updateParticles] for [p] keeps it in
    the active list. *)
Definition survives (deltaTime : num) (s : ParticleSystem) (p : nat) : bool :=
  match objects s !! p with
  | Some o =>
      negb (expired (offsetWidth s) (offsetHeight s)
                    (advance (lifetime (config s)) deltaTime o))
  | None => true
  end.

(** What one turn of the loop of [updateParticles] makes of a particle. *)
Definition updated (lt deltaTime w h : num) (o : Particle) : Particle :=
  let o' := advance lt deltaTime o in
  if expired w h o' then with_active false o' else o'.

(** What that turn makes of the particle's element: [style.opacity = '0']
    on the way back to the pool, the new transform and opacity otherwise. *)
Definition restyle (lt deltaTime w h : num) (o : Particle) : Element → Element :=
  let o' := advance lt deltaTime o in
  if expired w h o' then with_style_opacity (lit 0)
  else with_style (Translate3d (x o') (y o') (Some (scale o'))) (opacity o').

Definition updatedIn (deltaTime : num) (s : ParticleSystem) : Particle → Particle :=
  updated (lifetime (config s)) deltaTime (offsetWidth s) (offsetHeight s).

Definition restyleIn (deltaTime : num) (s : ParticleSystem) (p : nat)
  : Element → Element :=
  match objects s !! p with
  | Some o =>
      restyle (lifetime (config s)) deltaTime (offsetWidth s) (offsetHeight s) o
  | None => id
  end.

(** Every element of [s] is still there in [s'], attached if it was, with
    the size and colour it was created with. *)
Definition elements_kept (s s' : ParticleSystem) : Prop :=
  ∀ q e, elements s !! q = Some e →
    ∃ e', elements s' !! q = Some e'
          ∧ parentNode e' = parentNode e
          ∧ cssIndex e' = cssIndex e.

(** What the element of a particle shows after [updateParticleElement]. *)
Definition shows (o : Particle) (e : Element) : Prop :=
  style_transform e = Translate3d (x o) (y o) (Some (scale o))
  ∧ style_opacity e = Some (opacity o).

End WithNumber.
End Primitives.

(** ** The other utilities of animationPrimitives.ts *)

Module Utilities.
Section WithNumber.
Context {num : Type} `{JsNumber num}.

(** *** GeometricTransforms.organizeToGrid (lines 475-497) *)

(** The point pushed at turn [i] of the loop: the centre of the cell in
    column [i % gridCols] and row [Math.floor(i / gridCols)]. *)
Definition cellCentre (gridCols : nat) (cellWidth cellHeight : num) (i : nat)
  : num * num :=
  let col := i mod gridCols in
  let row := i / gridCols in
  (add (mul (ofNat col) cellWidth) (div cellWidth (lit 2)),
   add (mul (ofNat row) cellHeight) (div cellHeight (lit 2))).

(** [gridCols] and [gridRows] are counts.  The loop runs
    [Math.min(chaosPositions.length, gridCols * gridRows)] times and uses
    of [chaosPositions] only its length. *)
Definition organizeToGrid (chaosPositions : list (num * num))
  (gridCols gridRows : nat) (containerWidth containerHeight : num)
  : list (num * num) :=
  let cellWidth := div containerWidth (ofNat gridCols) in
  let cellHeight := div containerHeight (ofNat gridRows) in
  cellCentre gridCols cellWidth cellHeight
    <$> seq 0 (min (length chaosPositions) (gridCols * gridRows)).

(** *** ConnectionNetwork.addNode and connectNodes (lines 387-420) *)

Record Node := { node_x : num; node_y : num; node_element : nat }.

(** An SVG line, by its four percentages. *)
Record Line := { x1 : num; y1 : num; x2 : num; y2 : num }.

(** The instance: [nodes], [connections], and the number of [div]s it has
    appended to the container. *)
Record ConnectionNetwork := {
  nodes : list Node;
  connections : list Line;
  created : nat
}.

Definition addNode (px py : num) (n : ConnectionNetwork) : ConnectionNetwork :=
  {| nodes := nodes n ++ [{| node_x := px; node_y := py;
                             node_element := created n |}];
     connections := connections n;
     created := S (created n) |}.

(** An array read at an index that is an integer: [undefined] below 0 and
    from the length on. *)
Definition at_index {A} (l : list A) (i : Z) : option A :=
  if (i <? 0)%Z then None else l !! Z.to_nat i.

(** The guard compares with [nodes.length] only from above; reading
    [node1.x] of [undefined] raises a [TypeError]. *)
Definition connectNodes (nodeIndex1 nodeIndex2 : Z) (n : ConnectionNetwork)
  : Res ConnectionNetwork :=
  if (Z.of_nat (length (nodes n)) <=? nodeIndex1)%Z
     || (Z.of_nat (length (nodes n)) <=? nodeIndex2)%Z
  then Ok n
  else
    match at_index (nodes n) nodeIndex1, at_index (nodes n) nodeIndex2 with
    | Some node1, Some node2 =>
        Ok {| nodes := nodes n;
              connections := connections n
                             ++ [{| x1 := node_x node1; y1 := node_y node1;
                                    x2 := node_x node2; y2 := node_y node2 |}];
              created := created n |}
    | _, _ => Throw TypeError n
    end.

(** *** The life of a network *)





End WithNumber.
End Utilities.

(** ** The animation controller (animationController.ts) *)

(** *** [Map] and [Set] *)

(** A [Map] with string keys keeps its entries in insertion order; [set] on
    a present key replaces the value where it stands. *)
Fixpoint map_get {V} (m : list (string * V)) (k : string) : option V :=
  match m with
  | [] => None
  | (k', v) :: r => if decide (k' = k) then Some v else map_get r k
  end.

Fixpoint map_set {V} (m : list (string * V)) (k : string) (v : V)
  : list (string * V) :=
  match m with
  | [] => [(k, v)]
  | (k', v') :: r =>
      if decide (k' = k) then (k, v) :: r else (k', v') :: map_set r k v
  end.

Fixpoint map_delete {V} (m : list (string * V)) (k : string)
  : list (string * V) :=
  match m with
  | [] => []
  | (k', v') :: r =>
      if decide (k' = k) then r else (k', v') :: map_delete r k
  end.

(** No key occurs twice: what [set] keeps and [delete] relies on. *)
Definition keys_unique {V} (m : list (string * V)) : Prop := NoDup (m.*1).

(** A [Set] of strings, in insertion order. *)
Definition set_add (s : list string) (k : string) : list string :=
  if decide (k ∈ s) then s else s ++ [k].

Definition set_delete (s : list string) (k : string) : list string :=
  filter (fun k' => k' ≠ k) s.

(** *** [DOMTokenList.add] *)

(** ASCII whitespace of the DOM standard: tab, line feed, form feed,
    carriage return, space. *)
Definition isAsciiWhitespace (c : Ascii.ascii) : bool :=
  let n := Ascii.nat_of_ascii c in
  (n =? 9) || (n =? 10) || (n =? 12) || (n =? 13) || (n =? 32).

Fixpoint hasAsciiWhitespace (s : string) : bool :=
  match s with
  | EmptyString => false
  | String c r => isAsciiWhitespace c || hasAsciiWhitespace r
  end.

(** [classList.add(token)] as the DOM standard defines it: an empty token
    raises a [SyntaxError], a token holding ASCII whitespace raises an
    [InvalidCharacterError], otherwise the token is appended unless
    present. *)
Definition classList_add (token : string) (classes : list string)
  : Res (list string) :=
  if decide (token = EmptyString) then Throw SyntaxError classes
  else if hasAsciiWhitespace token then Throw InvalidCharacterError classes
  else Ok (set_add classes token).

Module Controller.
Section WithNumber.
Context {num : Type} `{JsNumber num}.

Record PerformanceMetrics := {
  frameRate : num;
  memoryUsage : num;
  animationCount : nat;
  lastFrameTime : num
}.

(** The object [this.state].  [performanceMetrics] and [visibleSections]
    hold references to a record and to a [Set], both in the store. *)
Record AnimationState := {
  isActive : bool;
  currentSection : string;
  performanceMetrics : nat;
  reducedMotionEnabled : bool;
  visibleSections : nat
}.

(** A [SectionAnimation] is an object of the page; the controller only
    calls [start], [pause] and [cleanup] on it.  The calls are recorded, in
    order, with the reference of the receiver. *)
Inductive Call :=
| CallStart (a : nat)
| CallPause (a : nat)
| CallCleanup (a : nat).

Inductive Reason := low_framerate | high_memory.

(** The calls of [console.warn], by message. *)
Inductive Warning :=
| WarnNoObserver
| WarnDegradation (reason : Reason)
| WarnDisabled
| WarnAnimationError (sectionId : string).

(** An element of the document: its tag, its [id] attribute if it has one,
    and its class list. *)
Record DocElement := {
  tagName : string;
  el_id : option string;
  classList : list string
}.

(** The singleton with the part of the host it touches.
    [observers] are the live [IntersectionObserver]s with the ids of their
    targets, [monitorQueue] the pending frame requests whose callback is
    [monitor], [changeListeners] the number of [change] listeners installed
    on the reduced-motion media query. *)
Record World := {
  intersectionObserver : option nat;
  animations : list (string * nat);
  state : AnimationState;
  performanceMonitorId : option nat;
  metricsStore : gmap nat PerformanceMetrics;
  setStore : gmap nat (list string);
  calls : list Call;
  console : list Warning;
  document : list DocElement;
  hasWindow : bool;
  hasIntersectionObserver : bool;
  observers : gmap nat (list string);
  monitorQueue : list nat;
  nextHandle : nat;
  changeListeners : nat
}.

Definition set_intersectionObserver (v : option nat) (w : World) : World :=
  {| intersectionObserver := v;
     animations := animations w;
     state := state w;
     performanceMonitorId := performanceMonitorId w;
     metricsStore := metricsStore w;
     setStore := setStore w;
     calls := calls w;
     console := console w;
     document := document w;
     hasWindow := hasWindow w;
     hasIntersectionObserver := hasIntersectionObserver w;
     observers := observers w;
     monitorQueue := monitorQueue w;
     nextHandle := nextHandle w;
     changeListeners := changeListeners w |}.

Definition set_animations (v : list (string * nat)) (w : World) : World :=
  {| intersectionObserver := intersectionObserver w;
     animations := v;
     state := state w;
     performanceMonitorId := performanceMonitorId w;
     metricsStore := metricsStore w;
     setStore := setStore w;
     calls := calls w;
     console := console w;
     document := document w;
     hasWindow := hasWindow w;
     hasIntersectionObserver := hasIntersectionObserver w;
     observers := observers w;
     monitorQueue := monitorQueue w;
     nextHandle := nextHandle w;
     changeListeners := changeListeners w |}.

Definition set_state (v : AnimationState) (w : World) : World :=
  {| intersectionObserver := intersectionObserver w;
     animations := animations w;
     state := v;
     performanceMonitorId := performanceMonitorId w;
     metricsStore := metricsStore w;
     setStore := setStore w;
     calls := calls w;
     console := console w;
     document := document w;
     hasWindow := hasWindow w;
     hasIntersectionObserver := hasIntersectionObserver w;
     observers := observers w;
     monitorQueue := monitorQueue w;
     nextHandle := nextHandle w;
     changeListeners := changeListeners w |}.

Definition set_performanceMonitorId (v : option nat) (w : World) : World :=
  {| intersectionObserver := intersectionObserver w;
     animations := animations w;
     state := state w;
     performanceMonitorId := v;
     metricsStore := metricsStore w;
     setStore := setStore w;
     calls := calls w;
     console := console w;
     document := document w;
     hasWindow := hasWindow w;
     hasIntersectionObserver := hasIntersectionObserver w;
     observers := observers w;
     monitorQueue := monitorQueue w;
     nextHandle := nextHandle w;
     changeListeners := changeListeners w |}.

Definition set_metricsStore (v : gmap nat PerformanceMetrics) (w : World) : World :=
  {| intersectionObserver := intersectionObserver w;
     animations := animations w;
     state := state w;
     performanceMonitorId := performanceMonitorId w;
     metricsStore := v;
     setStore := setStore w;
     calls := calls w;
     console := console w;
     document := document w;
     hasWindow := hasWindow w;
     hasIntersectionObserver := hasIntersectionObserver w;
     observers := observers w;
     monitorQueue := monitorQueue w;
     nextHandle := nextHandle w;
     changeListeners := changeListeners w |}.

Definition set_setStore (v : gmap nat (list string)) (w : World) : World :=
  {| intersectionObserver := intersectionObserver w;
     animations := animations w;
     state := state w;
     performanceMonitorId := performanceMonitorId w;
     metricsStore := metricsStore w;
     setStore := v;
     calls := calls w;
     console := console w;
     document := document w;
     hasWindow := hasWindow w;
     hasIntersectionObserver := hasIntersectionObserver w;
     observers := observers w;
     monitorQueue := monitorQueue w;
     nextHandle := nextHandle w;
     changeListeners := changeListeners w |}.

Definition set_calls (v : list Call) (w : World) : World :=
  {| intersectionObserver := intersectionObserver w;
     animations := animations w;
     state := state w;
     performanceMonitorId := performanceMonitorId w;
     metricsStore := metricsStore w;
     setStore := setStore w;
     calls := v;
     console := console w;
     document := document w;
     hasWindow := hasWindow w;
     hasIntersectionObserver := hasIntersectionObserver w;
     observers := observers w;
     monitorQueue := monitorQueue w;
     nextHandle := nextHandle w;
     changeListeners := changeListeners w |}.

Definition set_console (v : list Warning) (w : World) : World :=
  {| intersectionObserver := intersectionObserver w;
     animations := animations w;
     state := state w;
     performanceMonitorId := performanceMonitorId w;
     metricsStore := metricsStore w;
     setStore := setStore w;
     calls := calls w;
     console := v;
     document := document w;
     hasWindow := hasWindow w;
     hasIntersectionObserver := hasIntersectionObserver w;
     observers := observers w;
     monitorQueue := monitorQueue w;
     nextHandle := nextHandle w;
     changeListeners := changeListeners w |}.

Definition set_document (v : list DocElement) (w : World) : World :=
  {| intersectionObserver := intersectionObserver w;
     animations := animations w;
     state := state w;
     performanceMonitorId := performanceMonitorId w;
     metricsStore := metricsStore w;
     setStore := setStore w;
     calls := calls w;
     console := console w;
     document := v;
     hasWindow := hasWindow w;
     hasIntersectionObserver := hasIntersectionObserver w;
     observers := observers w;
     monitorQueue := monitorQueue w;
     nextHandle := nextHandle w;
     changeListeners := changeListeners w |}.

Definition set_observers (v : gmap nat (list string)) (w : World) : World :=
  {| intersectionObserver := intersectionObserver w;
     animations := animations w;
     state := state w;
     performanceMonitorId := performanceMonitorId w;
     metricsStore := metricsStore w;
     setStore := setStore w;
     calls := calls w;
     console := console w;
     document := document w;
     hasWindow := hasWindow w;
     hasIntersectionObserver := hasIntersectionObserver w;
     observers := v;
     monitorQueue := monitorQueue w;
     nextHandle := nextHandle w;
     changeListeners := changeListeners w |}.

Definition set_monitorQueue (v : list nat) (w : World) : World :=
  {| intersectionObserver := intersectionObserver w;
     animations := animations w;
     state := state w;
     performanceMonitorId := performanceMonitorId w;
     metricsStore := metricsStore w;
     setStore := setStore w;
     calls := calls w;
     console := console w;
     document := document w;
     hasWindow := hasWindow w;
     hasIntersectionObserver := hasIntersectionObserver w;
     observers := observers w;
     monitorQueue := v;
     nextHandle := nextHandle w;
     changeListeners := changeListeners w |}.

Definition set_nextHandle (v : nat) (w : World) : World :=
  {| intersectionObserver := intersectionObserver w;
     animations := animations w;
     state := state w;
     performanceMonitorId := performanceMonitorId w;
     metricsStore := metricsStore w;
     setStore := setStore w;
     calls := calls w;
     console := console w;
     document := document w;
     hasWindow := hasWindow w;
     hasIntersectionObserver := hasIntersectionObserver w;
     observers := observers w;
     monitorQueue := monitorQueue w;
     nextHandle := v;
     changeListeners := changeListeners w |}.

Definition set_changeListeners (v : nat) (w : World) : World :=
  {| intersectionObserver := intersectionObserver w;
     animations := animations w;
     state := state w;
     performanceMonitorId := performanceMonitorId w;
     metricsStore := metricsStore w;
     setStore := setStore w;
     calls := calls w;
     console := console w;
     document := document w;
     hasWindow := hasWindow w;
     hasIntersectionObserver := hasIntersectionObserver w;
     observers := observers w;
     monitorQueue := monitorQueue w;
     nextHandle := nextHandle w;
     changeListeners := v |}.

Definition frameRateThreshold : num := lit 30.
Definition memoryThreshold : num := lit 50.

(** *** Field updates *)

Definition with_isActive (b : bool) (st : AnimationState) : AnimationState :=
  {| isActive := b; currentSection := currentSection st;
     performanceMetrics := performanceMetrics st;
     reducedMotionEnabled := reducedMotionEnabled st;
     visibleSections := visibleSections st |}.

Definition with_currentSection (k : string) (st : AnimationState) : AnimationState :=
  {| isActive := isActive st; currentSection := k;
     performanceMetrics := performanceMetrics st;
     reducedMotionEnabled := reducedMotionEnabled st;
     visibleSections := visibleSections st |}.

Definition with_reducedMotionEnabled (b : bool) (st : AnimationState)
  : AnimationState :=
  {| isActive := isActive st; currentSection := currentSection st;
     performanceMetrics := performanceMetrics st;
     reducedMotionEnabled := b;
     visibleSections := visibleSections st |}.

Definition with_animationCount (n : nat) (m : PerformanceMetrics)
  : PerformanceMetrics :=
  {| frameRate := frameRate m; memoryUsage := memoryUsage m;
     animationCount := n; lastFrameTime := lastFrameTime m |}.

Definition with_frame (rate t : num) (m : PerformanceMetrics)
  : PerformanceMetrics :=
  {| frameRate := rate; memoryUsage := memoryUsage m;
     animationCount := animationCount m; lastFrameTime := t |}.

Definition with_memoryUsage (u : num) (m : PerformanceMetrics)
  : PerformanceMetrics :=
  {| frameRate := frameRate m; memoryUsage := u;
     animationCount := animationCount m; lastFrameTime := lastFrameTime m |}.

(** *** Reading through the references of a state object *)

(** The [Set] a state object points to (the controller's own, or a copy
    returned by [getState]). *)
Definition visibleOf (st : AnimationState) (w : World) : list string :=
  default [] (setStore w !! visibleSections st).

(** The metrics record a state object points to. *)
Definition metricsOf (st : AnimationState) (w : World)
  : option PerformanceMetrics :=
  metricsStore w !! performanceMetrics st.

(** *** Calls on animation objects and on the console *)

Definition call (c : Call) (w : World) : World := set_calls (calls w ++ [c]) w.

Definition warn (m : Warning) (w : World) : World :=
  set_console (console w ++ [m]) w.

(** *** The constructor (lines 51-64) *)

(** The module constructs the singleton at load.  [now] is what
    [performance.now()] returns and [reduced] what the reduced-motion media
    query says then ([detectReducedMotion] gives [false] without a window).
    The metrics record and the [Set] are the first objects of their
    stores. *)
Definition new (now : num) (window io reduced : bool) (doc : list DocElement)
  : World :=
  {| intersectionObserver := None;
     animations := [];
     state := {| isActive := true; currentSection := EmptyString;
                 performanceMetrics := 0;
                 reducedMotionEnabled := if window then reduced else false;
                 visibleSections := 0 |};
     performanceMonitorId := None;
     metricsStore := {[ 0 := {| frameRate := lit 60; memoryUsage := lit 0;
                                animationCount := 0; lastFrameTime := now |} ]};
     setStore := {[ 0 := [] ]};
     calls := [];
     console := [];
     document := doc;
     hasWindow := window;
     hasIntersectionObserver := io;
     observers := ∅;
     monitorQueue := [];
     nextHandle := 0;
     changeListeners := 0 |}.

(** *** registerSection and unregisterSection (lines 87-103) *)

Definition set_count (w : World) : World :=
  set_metricsStore
    (alter (with_animationCount (length (animations w)))
           (performanceMetrics (state w)) (metricsStore w)) w.

Definition registerSection (sectionId : string) (animation : nat) (w : World)
  : World :=
  set_count (set_animations (map_set (animations w) sectionId animation) w).

Definition visible_delete (sectionId : string) (w : World) : World :=
  set_setStore
    (alter (fun s => set_delete s sectionId) (visibleSections (state w))
           (setStore w)) w.

Definition visible_add (sectionId : string) (w : World) : World :=
  set_setStore
    (alter (fun s => set_add s sectionId) (visibleSections (state w))
           (setStore w)) w.

Definition unregisterSection (sectionId : string) (w : World) : World :=
  match map_get (animations w) sectionId with
  | Some animation =>
      let w1 := call (CallCleanup animation) w in
      let w2 := set_animations (map_delete (animations w1) sectionId) w1 in
      set_count (visible_delete sectionId w2)
  | None => w
  end.

(** *** handleIntersection (lines 108-127) *)

(** An entry is [entry.target.id] and [entry.isIntersecting]. *)
Definition handleEntry (w : World) (entry : string * bool) : World :=
  let sectionId := entry.1 in
  match map_get (animations w) sectionId with
  | None => w
  | Some animation =>
      if entry.2 then
        let w1 := visible_add sectionId w in
        let w2 := set_state (with_currentSection sectionId (state w1)) w1 in
        if negb (reducedMotionEnabled (state w2)) && isActive (state w2)
        then call (CallStart animation) w2
        else w2
      else
        call (CallPause animation) (visible_delete sectionId w)
  end.

Definition handleIntersection (entries : list (string * bool)) (w : World)
  : World :=
  foldl handleEntry w entries.

(** *** getState (lines 132-134) *)

(** [{ ...this.state }]: a new object with the same five field values; the
    two references are copied as references. *)
Definition getState (w : World) : AnimationState :=
  {| isActive := isActive (state w);
     currentSection := currentSection (state w);
     performanceMetrics := performanceMetrics (state w);
     reducedMotionEnabled := reducedMotionEnabled (state w);
     visibleSections := visibleSections (state w) |}.

(** *** setActive (lines 139-152) *)

Definition pauseAll (w : World) : World :=
  foldl (fun acc kv => call (CallPause kv.2) acc) w (animations w).

(** [this.state.visibleSections.forEach(...)]: the callback starts the
    animation registered under the id, if any. *)
Definition startVisible (w : World) : World :=
  foldl (fun acc sectionId =>
           match map_get (animations acc) sectionId with
           | Some animation => call (CallStart animation) acc
           | None => acc
           end)
        w (visibleOf (state w) w).

Definition setActive (active : bool) (w : World) : World :=
  let w1 := set_state (with_isActive active (state w)) w in
  if negb active then pauseAll w1
  else if negb (reducedMotionEnabled (state w1)) then startVisible w1
  else w1.

(** *** destroy (lines 157-171) *)

Definition cleanupAll (w : World) : World :=
  foldl (fun acc kv => call (CallCleanup kv.2) acc) w (animations w).

Definition destroy (w : World) : World :=
  let w1 :=
    match intersectionObserver w with
    | Some o => set_intersectionObserver None
                  (set_observers (delete o (observers w)) w)
    | None => w
    end in
  let w2 :=
    match performanceMonitorId w1 with
    | Some (S h) =>
        set_performanceMonitorId None
          (set_monitorQueue (filter (fun k => k ≠ S h) (monitorQueue w1)) w1)
    | _ => w1
    end in
  let w3 := cleanupAll w2 in
  let w4 := set_animations [] w3 in
  set_setStore (alter (fun _ => []) (visibleSections (state w4)) (setStore w4)) w4.

(** *** setupIntersectionObserver (lines 176-197) *)

(** The ids of the elements [document.querySelectorAll('section[id]')]
    selects, in document order. *)
Definition sectionsWithId (doc : list DocElement) : list string :=
  omap (fun e => if decide (tagName e = "section"%string) then el_id e else None) doc.

Definition setupIntersectionObserver (w : World) : World :=
  if negb (hasIntersectionObserver w) then warn WarnNoObserver w
  else
    let o := S (nextHandle w) in
    set_intersectionObserver (Some o)
      (set_observers (<[o := sectionsWithId (document w)]> (observers w))
         (set_nextHandle o w)).

(** *** handlePerformanceDegradation and the monitor (lines 202-243) *)

Definition currentFrameRate (w : World) : num :=
  match metricsOf (state w) w with
  | Some m => frameRate m
  | None => lit 0
  end.

Definition currentMemoryUsage (w : World) : num :=
  match metricsOf (state w) w with
  | Some m => memoryUsage m
  | None => lit 0
  end.

Definition handlePerformanceDegradation (reason : Reason) (w : World) : World :=
  let w1 := warn (WarnDegradation reason) w in
  if ltb (currentFrameRate w1) (lit 15)
  then warn WarnDisabled (setActive false w1)
  else w1.

Definition requestMonitorFrame (w : World) : World :=
  let h := S (nextHandle w) in
  set_performanceMonitorId (Some h)
    (set_monitorQueue (monitorQueue w ++ [h]) (set_nextHandle h w)).

(** The closure [monitor].  [currentTime] is what [performance.now()]
    returns; [memory] is [performance.memory.usedJSHeapSize] where the host
    has [performance.memory]. *)
Definition monitor (currentTime : num) (memory : option num) (w : World) : World :=
  let last := match metricsOf (state w) w with
              | Some m => lastFrameTime m
              | None => lit 0
              end in
  let deltaTime := sub currentTime last in
  let w1 := set_metricsStore
              (alter (with_frame (div (lit 1000) deltaTime) currentTime)
                     (performanceMetrics (state w)) (metricsStore w)) w in
  let w2 := match memory with
            | Some used =>
                set_metricsStore
                  (alter (with_memoryUsage (div (div used (lit 1024)) (lit 1024)))
                         (performanceMetrics (state w1)) (metricsStore w1)) w1
            | None => w1
            end in
  let w3 := if ltb (currentFrameRate w2) frameRateThreshold
            then handlePerformanceDegradation low_framerate w2
            else w2 in
  let w4 := if ltb memoryThreshold (currentMemoryUsage w3)
            then handlePerformanceDegradation high_memory w3
            else w3 in
  requestMonitorFrame w4.

Definition startPerformanceMonitoring (w : World) : World :=
  requestMonitorFrame w.

(** *** The reduced-motion listener (lines 257-278) *)

Definition handleChange (matches : bool) (w : World) : World :=
  let w1 := set_state (with_reducedMotionEnabled matches (state w)) w in
  if matches then pauseAll w1
  else if isActive (state w1) then startVisible w1
  else w1.

Definition setupReducedMotionListener (w : World) : World :=
  if negb (hasWindow w) then w
  else set_changeListeners (S (changeListeners w)) w.

(** *** init (lines 76-82) *)

Definition init (w : World) : World :=
  if negb (hasWindow w) then w
  else setupReducedMotionListener
         (startPerformanceMonitoring (setupIntersectionObserver w)).

(** *** AnimationErrorHandler (lines 284-313) *)

Definition fallbackClasses : list (string * string) :=
  [ ("hero", "bg-gradient-to-br from-rich-black via-graphite to-dark-bg");
    ("challenge", "bg-gradient-to-b from-rich-black to-dark-bg");
    ("framework", "bg-gradient-to-br from-petrol-ink/20 to-dark-bg");
    ("impact", "bg-gradient-to-r from-dark-bg via-petrol-ink/10 to-dark-bg");
    ("engagement", "bg-gradient-to-br from-dark-bg to-petrol-ink/20");
    ("footer", "bg-gradient-to-t from-petrol-ink to-dark-bg") ]%string.

(** The names every object literal inherits from [Object.prototype]: looked
    up on [fallbackClasses] they give a function (or, for [__proto__], an
    object), which is truthy. *)
Definition objectPrototypeKeys : list string :=
  [ "constructor"; "hasOwnProperty"; "isPrototypeOf"; "propertyIsEnumerable";
    "toLocaleString"; "toString"; "valueOf"; "__proto__";
    "__defineGetter__"; "__defineSetter__"; "__lookupGetter__";
    "__lookupSetter__" ]%string.

(** [document.getElementById]: the first element with that id, no element
    for the empty string. *)
Fixpoint indexById (doc : list DocElement) (k : string) : option nat :=
  match doc with
  | [] => None
  | e :: r =>
      if decide (el_id e = Some k) then Some 0 else S <$> indexById r k
  end.

Definition getElementById (k : string) (w : World) : option nat :=
  if decide (k = EmptyString) then None else indexById (document w) k.

Definition with_classList (l : list string) (e : DocElement) : DocElement :=
  {| tagName := tagName e; el_id := el_id e; classList := l |}.

(** [section.classList.add(fallbackClass)].  An inherited member is
    converted to a string first, and the source text of a function, like
    the string of an object, holds spaces. *)
Definition applyStaticFallback (sectionId : string) (w : World) : Res World :=
  match getElementById sectionId w with
  | None => Ok w
  | Some i =>
      match document w !! i with
      | None => Ok w
      | Some section =>
          let added :=
            match map_get fallbackClasses sectionId with
            | Some fallbackClass => classList_add fallbackClass (classList section)
            | None =>
                if decide (sectionId ∈ objectPrototypeKeys)
                then Throw InvalidCharacterError (classList section)
                else classList_add "bg-dark-bg" (classList section)
            end in
          match added with
          | Ok l =>
              Ok (set_document (<[i := with_classList l section]> (document w)) w)
          | Throw e _ => Throw e w
          end
      end
  end.

Definition handleAnimationError (sectionId : string) (w : World) : Res World :=
  let w1 := warn (WarnAnimationError sectionId) w in
  bindRes (applyStaticFallback sectionId w1) (fun w2 =>
    Ok (unregisterSection sectionId w2)).

(** *** What can happen to the controller *)

(** The public methods, the error handler, and what the host does: an
    observer [o] delivers entries for its targets, the frame request [h]
    fires, the media query changes and every installed listener runs. *)
Inductive Op :=
| OpInit
| OpRegister (sectionId : string) (animation : nat)
| OpUnregister (sectionId : string)
| OpHandleIntersection (entries : list (string * bool))
| OpDeliver (o : nat) (entries : list (string * bool))
| OpSetActive (active : bool)
| OpDestroy
| OpMonitorFrame (h : nat) (currentTime : num) (memory : option num)
| OpMediaChange (matches : bool)
| OpError (sectionId : string).

Definition deliver (o : nat) (entries : list (string * bool)) (w : World) : World :=
  match observers w !! o with
  | Some targets =>
      handleIntersection
        (filter (fun entry => entry.1 ∈ targets) entries) w
  | None => w
  end.

Definition fireMonitor (h : nat) (currentTime : num) (memory : option num)
  (w : World) : World :=
  if bool_decide (h ∈ monitorQueue w)
  then monitor currentTime memory
         (set_monitorQueue (filter (fun k => k ≠ h) (monitorQueue w)) w)
  else w.

Definition mediaChange (matches : bool) (w : World) : World :=
  Nat.iter (changeListeners w) (handleChange matches) w.

Definition step (o : Op) (w : World) : Res World :=
  match o with
  | OpInit => Ok (init w)
  | OpRegister sectionId animation => Ok (registerSection sectionId animation w)
  | OpUnregister sectionId => Ok (unregisterSection sectionId w)
  | OpHandleIntersection entries => Ok (handleIntersection entries w)
  | OpDeliver o entries => Ok (deliver o entries w)
  | OpSetActive active => Ok (setActive active w)
  | OpDestroy => Ok (destroy w)
  | OpMonitorFrame h t memory => Ok (fireMonitor h t memory w)
  | OpMediaChange matches => Ok (mediaChange matches w)
  | OpError sectionId => handleAnimationError sectionId w
  end.

(** A thrown exception ends the call that raised it and nothing more: the
    page goes on, in the state the call had reached. *)
Fixpoint run (ops : list Op) (w : World) : World :=
  match ops with
  | [] => w
  | o :: rest => run rest (reached (step o w))
  end.

(** *** The state of a section *)

(** Modelled from the spec: the classes implementing [SectionAnimation] are
    not in the repository.  By the state machine of section 4.2 an animation
    runs after [start()] and does not after [pause()] or [cleanup()]; before
    any call it does not.  [runningAfter log a] replays the calls made on
    [a]. *)
Definition applyCall (a : nat) (running : bool) (c : Call) : bool :=
  match c with
  | CallStart b => if decide (b = a) then true else running
  | CallPause b => if decide (b = a) then false else running
  | CallCleanup b => if decide (b = a) then false else running
  end.

Definition runningAfter (log : list Call) (a : nat) : bool :=
  foldl (applyCall a) false log.

Inductive SectionStatus :=
| Unregistered
| RegisteredPaused
| RegisteredRunning.

Definition sectionStatus (w : World) (sectionId : string) : SectionStatus :=
  match map_get (animations w) sectionId with
  | None => Unregistered
  | Some animation =>
      if runningAfter (calls w) animation then RegisteredRunning
      else RegisteredPaused
  end.

(** The calls and the warnings an operation adds, given the state before
    and the state after. *)
Definition newCalls (w w' : World) : list Call :=
  drop (length (calls w)) (calls w').

Definition newWarnings (w w' : World) : list Warning :=
  drop (length (console w)) (console w').

(** Whether every [registerSection] of [ops], run from [w], is for an id
    that is not registered when it is called. *)
Fixpoint registersFresh (ops : list Op) (w : World) : bool :=
  match ops with
  | [] => true
  | o :: rest =>
      match o with
      | OpRegister sectionId _ =>
          match map_get (animations w) sectionId with
          | None => true
          | Some _ => false
          end
      | _ => true
      end && registersFresh rest (reached (step o w))
  end.

(** Whether no operation of [ops] is a call of [handleIntersection] by
    the page itself. *)
Definition isDirectIntersection (o : Op) : bool :=
  match o with OpHandleIntersection _ => true | _ => false end.



(** *** A caller holding a snapshot *)

(** [snapshot.visibleSections.add(k)] and
    [snapshot.performanceMetrics.frameRate = v], done by the code that
    called [getState]. *)
Definition snapshot_addVisible (snapshot : AnimationState) (k : string)
  (w : World) : World :=
  set_setStore
    (alter (fun s => set_add s k) (visibleSections snapshot) (setStore w)) w.

Definition snapshot_setFrameRate (snapshot : AnimationState) (v : num)
  (w : World) : World :=
  set_metricsStore
    (alter (fun m => with_frame v (lastFrameTime m) m)
           (performanceMetrics snapshot) (metricsStore w)) w.

(** *** Invariants *)

(** Whether a visible section may run: the global flag is set and reduced
    motion is off. *)
Definition gate (w : World) : bool :=
  isActive (state w) && negb (reducedMotionEnabled (state w)).

(** [w'] has the registrations of [w] and the calls of [w] followed by
    more, where [start] is only called on a registered animation and only
    if [b] holds. *)
Definition extends (b : bool) (w w' : World) : Prop :=
  animations w' = animations w
  ∧ ∃ l, calls w' = calls w ++ l
         ∧ ∀ a, CallStart a ∈ l →
             b = true ∧ ∃ sectionId, map_get (animations w) sectionId = Some a.

(** The call [handleIntersection] makes for one entry. *)
Definition entryCalls (w : World) (entry : string * bool) : list Call :=
  match map_get (animations w) entry.1 with
  | None => []
  | Some animation =>
      if entry.2 then (if gate w then [CallStart animation] else [])
      else [CallPause animation]
  end.

(** The calls [pauseAll] and [startVisible] make. *)
Definition pauseCalls (w : World) : list Call :=
  (fun kv => CallPause kv.2) <$> animations w.

Definition startCalls (w : World) : list Call :=
  omap (fun sectionId => CallStart <$> map_get (animations w) sectionId)
       (visibleOf (state w) w).

(** No observer exists, no section counts as visible and [start] was never
    called. *)
Definition unobserved (w : World) : Prop :=
  hasIntersectionObserver w = false
  ∧ observers w = ∅
  ∧ visibleOf (state w) w = []
  ∧ ∀ a, CallStart a ∉ calls w.

Definition isDegradation (m : Warning) : bool :=
  match m with WarnDegradation _ => true | _ => false end.

(** Only registered animations run. *)
Definition running_registered (w : World) : Prop :=
  ∀ a, runningAfter (calls w) a = true →
    ∃ sectionId, map_get (animations w) sectionId = Some a.

End WithNumber.
End Controller.

(** ** Concrete inputs *)

(** The configuration [initializeHeroAnimation] passes (AnimatedBackground),
    small variants of it, and the runs used below. *)
Module Scenario.
Import Primitives.

Definition heroConfig : @ParticleSystemConfig Q :=
  {| count := 60;
     colors := ["rgba(154, 205, 50, 0.4)"; "rgba(241, 241, 240, 0.3)"]%string;
     size := {| rmin := 2%Q; rmax := 4%Q |};
     speed := {| rmin := 0.5%Q; rmax := 1.5%Q |};
     cfg_opacity := {| rmin := 0.3%Q; rmax := 0.8%Q |};
     lifetime := 8000%Q |}.

Definition smallConfig : @ParticleSystemConfig Q :=
  {| count := 2;
     colors := ["rgba(154, 205, 50, 0.4)"]%string;
     size := {| rmin := 2%Q; rmax := 4%Q |};
     speed := {| rmin := 0.5%Q; rmax := 1.5%Q |};
     cfg_opacity := {| rmin := 0.3%Q; rmax := 0.8%Q |};
     lifetime := 8000%Q |}.

(** A thousand calls [spawnParticle(0, 0)], each drawing 0.5 twice. *)
Definition burst1000 : list (Q * Q * Q * Q * Q * Q) :=
  repeat (0%Q, 0%Q, 0%Q, 0%Q, 0.5%Q, 0.5%Q) 1000.

(** One particle spawned at (10, 10) with velocity (1, 0), the system
    started, and the first frame fired at 1000 ms. *)
Definition oneFrame : list (@Op Q) :=
  [ OpSpawn 10%Q 10%Q 1%Q 0%Q 0.5%Q 0.5%Q; OpStart; OpFrame 1 1000%Q ].

Definition afterOneFrame : @ParticleSystem Q :=
  reached (run oneFrame (new smallConfig 100%Q 100%Q)).

(** A life of a small system without cleanup. *)
Definition busy : list (@Op Q) :=
  [ OpSpawn 10%Q 10%Q 1%Q 0%Q 0.5%Q 0.5%Q;
    OpSpawn 20%Q 20%Q 20000%Q 0%Q 0.5%Q 0.5%Q;
    OpSpawn 30%Q 30%Q 0%Q 0%Q 0.5%Q 0.5%Q;
    OpStart; OpFrame 1 1000%Q; OpFrame 2 1016%Q; OpResize 50%Q 50%Q;
    OpStop; OpFrame 3 1032%Q; OpStart; OpReset;
    OpSpawn 5%Q 5%Q 0%Q 0%Q 0.5%Q 0.5%Q ].

End Scenario.

Module ControllerScenario.
Import Controller.

(** A page with three sections and a root element. *)
Definition page : list DocElement :=
  [ {| tagName := "section"; el_id := Some "hero"; classList := ["relative"] |};
    {| tagName := "section"; el_id := Some "framework"; classList := [] |};
    {| tagName := "section"; el_id := Some "contact"; classList := [] |};
    {| tagName := "div"; el_id := Some "root"; classList := [] |} ]%string.

(** The controller as the module constructs it at time 0, in a browser
    with [IntersectionObserver] and no reduced-motion preference. *)
Definition world0 : @World Q := new 0%Q true true false page.

(** The same in a browser without [IntersectionObserver]. *)
Definition noObserver0 : @World Q := new 0%Q true false false page.



(** [init], two sections registered and reported visible by the
    observer. *)
Definition twoRunning : list (@Op Q) :=
  [ OpInit; OpRegister "hero" 1; OpRegister "framework" 2;
    OpDeliver 1 [("hero", true); ("framework", true)] ]%string.

(** [n] samples of the monitor [every] ms apart, the first at [t] with the
    frame request [h]; no [performance.memory]. *)
Fixpoint samples (n h : nat) (t every : Q) : list (@Op Q) :=
  match n with
  | 0 => []
  | S n' => OpMonitorFrame h t None :: samples n' (S h) (t + every)%Q every
  end.

(** Two seconds at 10 frames per second, and at 20. *)
Definition tenFps : list (@Op Q) := samples 20 2 100%Q 100%Q.
Definition twentyFps : list (@Op Q) := samples 40 2 50%Q 50%Q.

(** [init] without an observer, a section registered, animations switched
    on, the preference reported off. *)
Definition withoutObserver : list (@Op Q) :=
  [ OpInit; OpRegister "hero" 1; OpSetActive true; OpMediaChange false;
    OpDeliver 1 [("hero", true)] ]%string.

End ControllerScenario.

(** * Properties *)

(** ** Arrays *)

Lemma pop_push {A} (l : list A) (a : A) : pop (push l a) = Some (a, l).
Proof.
  unfold pop, push. rewrite reverse_app. simpl.
  by rewrite reverse_involutive.
Qed.

Lemma pop_Some {A} (l r : list A) (a : A) :
  pop l = Some (a, r) → l = push r a.
Proof.
  unfold pop, push. intros Hp.
  destruct (reverse l) as [|b t] eqn:E; [done|].
  injection Hp as -> <-.
  rewrite <- (reverse_involutive l), E. by rewrite reverse_cons.
Qed.

Lemma pop_None {A} (l : list A) : pop l = None → l = [].
Proof.
  unfold pop. destruct (reverse l) as [|b t] eqn:E; [|done].
  intros _. rewrite <- (reverse_involutive l), E. done.
Qed.

Lemma indexOf_lookup (l : list nat) (p i : nat) :
  indexOf l p = Some i → l !! i = Some p.
Proof.
  revert i. induction l as [|a r IH]; intros i; simpl; [done|].
  destruct (decide (a = p)) as [->|Hne].
  - by intros [= <-].
  - destruct (indexOf r p) as [j|] eqn:E; simpl; [|done].
    intros [= <-]. simpl. by apply IH.
Qed.

Lemma indexOf_None (l : list nat) (p : nat) :
  indexOf l p = None → p ∉ l.
Proof.
  induction l as [|a r IH]; simpl.
  - intros _. apply not_elem_of_nil.
  - destruct (decide (a = p)) as [->|Hne]; [done|].
    destruct (indexOf r p) eqn:E; simpl; [done|].
    intros _. apply not_elem_of_cons. split; [congruence|by apply IH].
Qed.

Lemma indexOf_elem (l : list nat) (p : nat) :
  p ∈ l → is_Some (indexOf l p).
Proof.
  intros Hin. destruct (indexOf l p) eqn:E; [eauto|].
  by apply indexOf_None in E.
Qed.

Lemma indexOf_NoDup (l : list nat) (p i : nat) :
  NoDup l → l !! i = Some p → indexOf l p = Some i.
Proof.
  intros Hnd Hi.
  destruct (indexOf_elem l p) as [j Hj].
  { apply list_elem_of_lookup. eauto. }
  apply indexOf_lookup in Hj as Hj'.
  rewrite Hj. f_equal. eapply NoDup_lookup; eauto.
Qed.

Lemma indexOf_head (l : list nat) (p : nat) : indexOf (p :: l) p = Some 0.
Proof. simpl. by rewrite decide_True. Qed.

(** ** The particle system *)

Module PrimitivesFacts.
Import Primitives.
Section WithNumber.
Context {num : Type} `{JsNumber num}.

Implicit Types (s : @ParticleSystem num) (p : nat) (o : @Particle num).

(** *** returnParticle *)

(** The fields [returnParticle] never writes. *)
Lemma returnParticle_frame p s :
  config (returnParticle p s) = config s
  ∧ animationFrame (returnParticle p s) = animationFrame s
  ∧ isRunning (returnParticle p s) = isRunning s
  ∧ lastTime (returnParticle p s) = lastTime s
  ∧ offsetWidth (returnParticle p s) = offsetWidth s
  ∧ offsetHeight (returnParticle p s) = offsetHeight s
  ∧ frameQueue (returnParticle p s) = frameQueue s
  ∧ nextHandle (returnParticle p s) = nextHandle s
  ∧ objects (returnParticle p s) = alter (with_active false) p (objects s).
Proof.
  unfold returnParticle. simpl.
  destruct (alter (with_active false) p (objects s) !! p); simpl;
    destruct (indexOf (particles s) p); simpl; done.
Qed.

Lemma returnParticle_in p s i :
  indexOf (particles s) p = Some i →
  particles (returnParticle p s) = delete i (particles s)
  ∧ particlePool (returnParticle p s) = push (particlePool s) p.
Proof.
  intros Hi. unfold returnParticle. simpl.
  destruct (alter (with_active false) p (objects s) !! p); simpl;
    rewrite Hi; simpl; done.
Qed.

Lemma returnParticle_out p s :
  indexOf (particles s) p = None →
  particles (returnParticle p s) = particles s
  ∧ particlePool (returnParticle p s) = particlePool s.
Proof.
  intros Hi. unfold returnParticle. simpl.
  destruct (alter (with_active false) p (objects s) !! p); simpl;
    rewrite Hi; simpl; done.
Qed.

Lemma returnParticle_elements p s :
  elements (returnParticle p s)
  = match objects s !! p with
    | Some o => alter (with_style_opacity (lit 0)) (element o) (elements s)
    | None => elements s
    end.
Proof.
  unfold returnParticle. simpl. rewrite lookup_alter_eq.
  destruct (objects s !! p) as [o|]; simpl;
    destruct (indexOf (particles s) p); simpl; done.
Qed.

Lemma returnParticle_perm p s :
  particles (returnParticle p s) ++ particlePool (returnParticle p s)
  ≡ₚ particles s ++ particlePool s.
Proof.
  destruct (indexOf (particles s) p) as [i|] eqn:Hi.
  - destruct (returnParticle_in p s i Hi) as [-> ->].
    apply indexOf_lookup in Hi. unfold push.
    rewrite (delete_Permutation (particles s) i p Hi) at 2.
    rewrite app_assoc. rewrite <- Permutation_cons_append. simpl. done.
  - destruct (returnParticle_out p s Hi) as [-> ->]. done.
Qed.

Lemma returnParticle_length p s :
  length (particles s) ≤ S (length (particles (returnParticle p s))).
Proof.
  destruct (indexOf (particles s) p) as [i|] eqn:Hi.
  - destruct (returnParticle_in p s i Hi) as [-> _].
    apply indexOf_lookup in Hi. apply lookup_lt_Some in Hi.
    rewrite length_delete; [lia|]. eauto using lookup_lt_is_Some_2.
  - destruct (returnParticle_out p s Hi) as [-> _]. lia.
Qed.

(** *** getParticle, updateParticleElement, spawnParticle *)

Lemma getParticle_empty s :
  particlePool s = [] → getParticle s = (None, s).
Proof. intros Hp. unfold getParticle. by rewrite Hp. Qed.

Lemma getParticle_some s pool p :
  particlePool s = push pool p →
  getParticle s
  = (Some p,
     set_particles (push (particles s) p)
       (set_objects (alter (with_active true) p (objects s))
          (set_particlePool pool s))).
Proof. intros Hp. unfold getParticle. by rewrite Hp, pop_push. Qed.

Lemma getParticle_cases s :
  (particlePool s = [] ∧ getParticle s = (None, s))
  ∨ (∃ pool p, particlePool s = push pool p
       ∧ getParticle s
         = (Some p,
            set_particles (push (particles s) p)
              (set_objects (alter (with_active true) p (objects s))
                 (set_particlePool pool s)))).
Proof.
  destruct (pop (particlePool s)) as [[p pool]|] eqn:E.
  - right. exists pool, p. apply pop_Some in E. split; [done|].
    by apply getParticle_some.
  - left. apply pop_None in E. split; [done|]. by apply getParticle_empty.
Qed.

Lemma updateParticleElement_frame p s :
  particles (updateParticleElement p s) = particles s
  ∧ particlePool (updateParticleElement p s) = particlePool s
  ∧ config (updateParticleElement p s) = config s
  ∧ animationFrame (updateParticleElement p s) = animationFrame s
  ∧ isRunning (updateParticleElement p s) = isRunning s
  ∧ lastTime (updateParticleElement p s) = lastTime s
  ∧ offsetWidth (updateParticleElement p s) = offsetWidth s
  ∧ offsetHeight (updateParticleElement p s) = offsetHeight s
  ∧ frameQueue (updateParticleElement p s) = frameQueue s
  ∧ nextHandle (updateParticleElement p s) = nextHandle s
  ∧ objects (updateParticleElement p s) = objects s.
Proof.
  unfold updateParticleElement. destruct (objects s !! p); simpl; done.
Qed.

(** With an empty pool [spawnParticle] returns at once. *)
Lemma spawnParticle_empty px py pvx pvy r1 r2 s :
  particlePool s = [] → spawnParticle px py pvx pvy r1 r2 s = s.
Proof. intros Hp. unfold spawnParticle. by rewrite getParticle_empty. Qed.

Lemma spawnParticle_some px py pvx pvy r1 r2 s pool p :
  particlePool s = push pool p →
  particles (spawnParticle px py pvx pvy r1 r2 s) = push (particles s) p
  ∧ particlePool (spawnParticle px py pvx pvy r1 r2 s) = pool.
Proof.
  intros Hp. unfold spawnParticle. rewrite (getParticle_some s pool p Hp).
  match goal with |- context [updateParticleElement p ?t] =>
    destruct (updateParticleElement_frame p t) as (-> & -> & _) end.
  done.
Qed.

Lemma spawnParticle_frame px py pvx pvy r1 r2 s :
  config (spawnParticle px py pvx pvy r1 r2 s) = config s
  ∧ animationFrame (spawnParticle px py pvx pvy r1 r2 s) = animationFrame s
  ∧ isRunning (spawnParticle px py pvx pvy r1 r2 s) = isRunning s
  ∧ frameQueue (spawnParticle px py pvx pvy r1 r2 s) = frameQueue s
  ∧ nextHandle (spawnParticle px py pvx pvy r1 r2 s) = nextHandle s.
Proof.
  unfold spawnParticle.
  destruct (getParticle_cases s) as [[_ ->]|(pool & p & _ & ->)]; [done|].
  match goal with |- context [updateParticleElement p ?t] =>
    destruct (updateParticleElement_frame p t)
      as (_ & _ & -> & -> & -> & _ & _ & _ & -> & -> & _) end.
  done.
Qed.

Lemma spawnParticle_perm px py pvx pvy r1 r2 s :
  particles (spawnParticle px py pvx pvy r1 r2 s)
    ++ particlePool (spawnParticle px py pvx pvy r1 r2 s)
  ≡ₚ particles s ++ particlePool s.
Proof.
  destruct (getParticle_cases s) as [[Hp _]|(pool & p & Hp & _)].
  - by rewrite spawnParticle_empty.
  - destruct (spawnParticle_some px py pvx pvy r1 r2 s pool p Hp) as [-> ->].
    rewrite Hp. unfold push. rewrite <- app_assoc.
    f_equiv. apply Permutation_app_comm.
Qed.

(** *** updateParticles *)

Lemma same_control_refl s : same_control s s.
Proof. by repeat split. Qed.

Lemma same_control_trans s1 s2 s3 :
  same_control s1 s2 → same_control s2 s3 → same_control s1 s3.
Proof.
  unfold same_control. intros (?&?&?&?&?&?&?&?) (?&?&?&?&?&?&?&?).
  repeat split; congruence.
Qed.

Lemma returnParticle_control p s : same_control s (returnParticle p s).
Proof.
  destruct (returnParticle_frame p s) as (?&?&?&?&?&?&?&?&?).
  by repeat split.
Qed.

Lemma updateParticleElement_control p s :
  same_control s (updateParticleElement p s).
Proof.
  destruct (updateParticleElement_frame p s) as (?&?&?&?&?&?&?&?&?&?&?).
  by repeat split.
Qed.

(** One turn of the loop, for an index inside the array: it returns, and
    what it leaves is determined by [expired] on the advanced particle. *)
Lemma updateParticles_body_spec dt i s p o :
  particles s !! i = Some p →
  objects s !! p = Some o →
  let o' := advance (lifetime (config s)) dt o in
  ∃ s', updateParticles_body dt i s = Ok s'
    ∧ same_control s s'
    ∧ if expired (offsetWidth s) (offsetHeight s) o'
      then s' = returnParticle p (set_objects (<[p := o']> (objects s)) s)
      else particles s' = particles s
           ∧ particlePool s' = particlePool s
           ∧ objects s' = <[p := o']> (objects s)
           ∧ elements s'
             = alter (with_style (Translate3d (x o') (y o') (Some (scale o')))
                                 (opacity o'))
                     (element o) (elements s).
Proof.
  intros Hi Ho o'. unfold updateParticles_body. rewrite Hi. simpl.
  rewrite lookup_alter_eq, Ho. simpl. fold o'.
  assert (Halt : alter (advance (lifetime (config s)) dt) p (objects s)
                 = <[p := o']> (objects s)).
  { apply map_eq. intros k. destruct (decide (k = p)) as [->|Hne].
    - by rewrite lookup_alter_eq, lookup_insert_eq, Ho.
    - by rewrite lookup_alter_ne, lookup_insert_ne. }
  rewrite Halt.
  destruct (expired (offsetWidth s) (offsetHeight s) o') eqn:He.
  - eexists. split; [done|]. split; [|done].
    eapply same_control_trans; [|apply returnParticle_control].
    by repeat split.
  - eexists. split; [done|]. split.
    + eapply same_control_trans; [|apply updateParticleElement_control].
      by repeat split.
    + unfold updateParticleElement. simpl. rewrite lookup_insert_eq. simpl. done.
Qed.

(** A turn of the loop never fails inside the array, whatever the store
    holds, and takes at most one particle out of the active list. *)
Lemma updateParticles_body_ok dt i s :
  i < length (particles s) →
  ∃ s', updateParticles_body dt i s = Ok s'
    ∧ same_control s s'
    ∧ length (particles s) ≤ S (length (particles s'))
    ∧ particles s' ++ particlePool s' ≡ₚ particles s ++ particlePool s.
Proof.
  intros Hi. apply lookup_lt_is_Some_2 in Hi as [p Hp].
  unfold updateParticles_body. rewrite Hp. simpl.
  set (s1 := set_objects _ s).
  destruct (alter _ p (objects s) !! p) as [o|].
  - destruct (expired (offsetWidth s) (offsetHeight s) o).
    + eexists. split; [done|]. split; [|split].
      * eapply same_control_trans; [|apply returnParticle_control].
        by repeat split.
      * apply (returnParticle_length p s1).
      * apply (returnParticle_perm p s1).
    + eexists. split; [done|].
      destruct (updateParticleElement_frame p s1) as (Hl & Hq & _).
      split; [|split].
      * eapply same_control_trans; [|apply updateParticleElement_control].
        by repeat split.
      * rewrite Hl. simpl. lia.
      * rewrite Hl, Hq. done.
  - eexists. split; [done|]. split; [by repeat split|]. split; [simpl; lia|done].
Qed.

(** [this.particles[i]] is defined at every turn: the loop returns. *)
Lemma updateParticles_from_ok dt n s :
  n ≤ length (particles s) →
  ∃ s', updateParticles_from dt n s = Ok s'
    ∧ same_control s s'
    ∧ particles s' ++ particlePool s' ≡ₚ particles s ++ particlePool s.
Proof.
  revert s. induction n as [|i IH]; intros s Hn; simpl.
  - exists s. split; [done|]. split; [apply same_control_refl|done].
  - destruct (updateParticles_body_ok dt i s) as (s1 & -> & Hc1 & Hlen & Hp1); [lia|].
    simpl. destruct (IH s1) as (s2 & -> & Hc2 & Hp2); [lia|].
    exists s2. split; [done|]. split.
    + eapply same_control_trans; eauto.
    + by rewrite Hp2.
Qed.

Lemma updateParticles_ok dt s :
  ∃ s', updateParticles dt s = Ok s'
    ∧ same_control s s'
    ∧ particles s' ++ particlePool s' ≡ₚ particles s ++ particlePool s.
Proof. apply updateParticles_from_ok. done. Qed.

(** One turn of the loop on a particle that sits once in the active list. *)
Lemma updateParticles_body_step dt i s p o :
  particles s !! i = Some p →
  indexOf (particles s) p = Some i →
  objects s !! p = Some o →
  ∃ s', updateParticles_body dt i s = Ok s'
    ∧ same_control s s'
    ∧ objects s' = <[p := updatedIn dt s o]> (objects s)
    ∧ elements s' = alter (restyleIn dt s p) (element o) (elements s)
    ∧ particles s' = (if survives dt s p then particles s
                      else delete i (particles s))
    ∧ particlePool s' = (if survives dt s p then particlePool s
                         else push (particlePool s) p).
Proof.
  intros Hi Hidx Ho.
  destruct (updateParticles_body_spec dt i s p o Hi Ho) as (s' & Hs' & Hc & Hcase).
  exists s'. split; [done|]. split; [done|].
  unfold updatedIn, updated, restyleIn, restyle, survives. rewrite Ho.
  simpl in Hcase.
  destruct (expired (offsetWidth s) (offsetHeight s)
                    (advance (lifetime (config s)) dt o)) eqn:He; simpl.
  - subst s'.
    set (s1 := set_objects _ s).
    destruct (returnParticle_frame p s1) as (_&_&_&_&_&_&_&_&Hobj).
    destruct (returnParticle_in p s1 i Hidx) as [Hl Hq].
    rewrite Hobj, Hl, Hq, returnParticle_elements. simpl.
    rewrite lookup_insert_eq. simpl.
    split; [|done].
    apply map_eq. intros k. destruct (decide (k = p)) as [->|Hne].
    + by rewrite lookup_alter_eq, !lookup_insert_eq.
    + by rewrite lookup_alter_ne, !lookup_insert_ne.
  - destruct Hcase as (-> & -> & -> & ->). done.
Qed.

Lemma survives_ext dt s s' p :
  same_control s s' → objects s' !! p = objects s !! p →
  survives dt s' p = survives dt s p.
Proof.
  intros (Hcfg&_&_&_&Hw&Hh&_) Ho. unfold survives.
  by rewrite Ho, Hcfg, Hw, Hh.
Qed.

Lemma filter_ext_in {A} (P Q : A → Prop) `{!∀ x, Decision (P x)}
    `{!∀ x, Decision (Q x)} (l : list A) :
  (∀ a, a ∈ l → P a ↔ Q a) → filter P l = filter Q l.
Proof.
  induction l as [|a r IH]; intros Hext; [done|].
  rewrite !filter_cons.
  assert (Ha : P a ↔ Q a) by (apply Hext; left).
  rewrite IH by (intros b Hb; apply Hext; by right).
  destruct (decide (P a)), (decide (Q a)); tauto || done.
Qed.

(** The loop, run over a prefix [pre] of the active list: the particles of
    [pre] that survive stay where they are, the others go to the pool in the
    order the loop meets them, and every particle of [pre] is updated once. *)
Lemma updateParticles_from_spec dt pre :
  ∀ post s,
    particles s = pre ++ post →
    NoDup (pre ++ post) →
    (∀ p, p ∈ pre → ∃ o, objects s !! p = Some o ∧ element o = p) →
    ∃ s', updateParticles_from dt (length pre) s = Ok s'
      ∧ same_control s s'
      ∧ particles s' = filter (λ p, survives dt s p) pre ++ post
      ∧ particlePool s'
        = particlePool s ++ reverse (filter (λ p, ¬ survives dt s p) pre)
      ∧ (∀ q, objects s' !! q
              = if bool_decide (q ∈ pre)
                then updatedIn dt s <$> objects s !! q
                else objects s !! q)
      ∧ (∀ q, elements s' !! q
              = if bool_decide (q ∈ pre)
                then restyleIn dt s q <$> elements s !! q
                else elements s !! q).
Proof.
  induction pre as [|p pre IH] using rev_ind; intros post s Hl Hnd Hobj.
  - exists s. simpl. split; [done|]. split; [apply same_control_refl|].
    rewrite app_nil_r. repeat split; try done.
  - rewrite length_app. simpl. rewrite Nat.add_1_r. simpl.
    rewrite <- app_assoc in Hl, Hnd. simpl in Hl, Hnd.
    assert (Hi : particles s !! length pre = Some p).
    { rewrite Hl. by rewrite list_lookup_middle. }
    assert (Hidx : indexOf (particles s) p = Some (length pre)).
    { apply indexOf_NoDup; [by rewrite Hl|done]. }
    destruct (Hobj p) as (o & Ho & Hel); [apply elem_of_app; right; by left|].
    destruct (updateParticles_body_step dt _ s p o Hi Hidx Ho)
      as (s1 & -> & Hc1 & Hobj1 & Hel1 & Hl1 & Hq1).
    simpl.
    assert (Hp_pre : p ∉ pre).
    { apply NoDup_app in Hnd as (_ & Hdisj & _). intros Hin.
      apply (Hdisj p Hin). left. }
    assert (Hl1' : particles s1
                   = pre ++ (if survives dt s p then p :: post else post)).
    { rewrite Hl1. destruct (survives dt s p); [done|].
      rewrite Hl. rewrite delete_middle. done. }
    assert (Hsame : ∀ q, q ≠ p → objects s1 !! q = objects s !! q).
    { intros q Hq. rewrite Hobj1. by rewrite lookup_insert_ne. }
    destruct (IH _ s1 Hl1') as (s2 & -> & Hc2 & Hl2 & Hq2 & Hobj2 & Hel2).
    { apply NoDup_app in Hnd as (Hn1 & Hdisj & Hn2).
      apply NoDup_app. split; [done|]. split.
      - intros q Hq Hin. apply (Hdisj q Hq).
        destruct (survives dt s p); [done|by right].
      - destruct (survives dt s p); [done|]. by apply NoDup_cons in Hn2 as []. }
    { intros q Hq. destruct (Hobj q) as (oq & Hoq & Helq);
        [apply elem_of_app; by left|].
      exists oq. rewrite Hsame; [done|]. intros ->. done. }
    assert (Hsurv : ∀ q, q ∈ pre → survives dt s1 q = survives dt s q).
    { intros q Hq. apply survives_ext; [done|]. apply Hsame. by intros ->. }
    exists s2. split; [done|]. split; [eapply same_control_trans; eauto|].
    split; [|split; [|split]].
    + rewrite Hl2. rewrite filter_app.
      rewrite (filter_ext_in (λ q, survives dt s1 q) (λ q, survives dt s q) pre)
        by (intros q Hq; by rewrite Hsurv).
      rewrite <- app_assoc. f_equal.
      rewrite filter_cons, filter_nil.
      destruct (survives dt s p); simpl; done.
    + rewrite Hq2, Hq1. rewrite filter_app, reverse_app.
      rewrite (filter_ext_in (λ q, ¬ survives dt s1 q) (λ q, ¬ survives dt s q) pre)
        by (intros q Hq; by rewrite Hsurv).
      rewrite filter_cons, filter_nil.
      destruct (survives dt s p); simpl; [done|].
      unfold push. by rewrite <- app_assoc.
    + intros q. rewrite Hobj2.
      assert (Hupd : updatedIn dt s1 = updatedIn dt s).
      { unfold updatedIn. destruct Hc1 as (Hcfg&_&_&_&Hw&Hh&_).
        by rewrite Hcfg, Hw, Hh. }
      rewrite Hupd.
      destruct (decide (q = p)) as [->|Hne].
      * rewrite bool_decide_false by done.
        rewrite bool_decide_true by (apply elem_of_app; right; by left).
        by rewrite Hobj1, lookup_insert_eq, Ho.
      * rewrite Hsame by done.
        destruct (bool_decide (q ∈ pre)) eqn:Eq.
        -- apply bool_decide_eq_true in Eq.
           rewrite bool_decide_true by (apply elem_of_app; by left). done.
        -- apply bool_decide_eq_false in Eq.
           rewrite bool_decide_false; [done|].
           intros [Hin|Hin%list_elem_of_singleton]%elem_of_app; done.
    + intros q. rewrite Hel2. rewrite Hel1, Hel.
      destruct (decide (q = p)) as [->|Hne].
      * rewrite bool_decide_false by done.
        rewrite bool_decide_true by (apply elem_of_app; right; by left).
        by rewrite lookup_alter_eq.
      * rewrite lookup_alter_ne by done.
        assert (Hre : restyleIn dt s1 q = restyleIn dt s q).
        { unfold restyleIn. rewrite Hsame by done.
          destruct Hc1 as (Hcfg&_&_&_&Hw&Hh&_). by rewrite Hcfg, Hw, Hh. }
        rewrite Hre.
        destruct (bool_decide (q ∈ pre)) eqn:Eq.
        -- apply bool_decide_eq_true in Eq.
           rewrite bool_decide_true by (apply elem_of_app; by left). done.
        -- apply bool_decide_eq_false in Eq.
           rewrite bool_decide_false; [done|].
           intros [Hin|Hin%list_elem_of_singleton]%elem_of_app; done.
Qed.

(** *** spawnParticle, in full *)

(** A spawn out of a non-empty pool: the last particle of the pool becomes
    the last of the active list, all six kinematic fields are overwritten
    and the element shows the new state. *)
Lemma spawnParticle_spec px py pvx pvy r1 r2 s pool p o :
  particlePool s = push pool p →
  objects s !! p = Some o →
  let op := add (rmin (cfg_opacity (config s)))
                (mul r1 (sub (rmax (cfg_opacity (config s)))
                             (rmin (cfg_opacity (config s))))) in
  let sc := add (lit 0.5) (mul r2 (lit 0.5)) in
  let s' := spawnParticle px py pvx pvy r1 r2 s in
  particles s' = push (particles s) p
  ∧ particlePool s' = pool
  ∧ same_control s s'
  ∧ objects s'
    = <[p := {| x := px; y := py; vx := pvx; vy := pvy; opacity := op;
                scale := sc; element := element o; active := true |}]>
        (objects s)
  ∧ elements s'
    = alter (with_style (Translate3d px py (Some sc)) op) (element o)
            (elements s).
Proof.
  intros Hp Ho op sc s'. subst s'.
  destruct (spawnParticle_some px py pvx pvy r1 r2 s pool p Hp) as [Hl Hq].
  split; [done|]. split; [done|].
  unfold spawnParticle in *. rewrite (getParticle_some s pool p Hp) in *.
  simpl. fold op. fold sc.
  set (s2 := set_objects _ _).
  assert (Hobj : objects s2
    = <[p := {| x := px; y := py; vx := pvx; vy := pvy; opacity := op;
                scale := sc; element := element o; active := true |}]>
        (objects s)).
  { subst s2. simpl. apply map_eq. intros k.
    destruct (decide (k = p)) as [->|Hne].
    - by rewrite !lookup_alter_eq, lookup_insert_eq, Ho.
    - by rewrite !lookup_alter_ne, lookup_insert_ne. }
  split; [|split].
  - eapply same_control_trans; [|apply updateParticleElement_control].
    by repeat split.
  - destruct (updateParticleElement_frame p s2) as (_&_&_&_&_&_&_&_&_&_&->).
    done.
  - unfold updateParticleElement. rewrite Hobj, lookup_insert_eq. simpl. done.
Qed.

(** *** start, stop, animate *)

Lemma start_lists s :
  particles (start s) = particles s
  ∧ particlePool (start s) = particlePool s
  ∧ objects (start s) = objects s
  ∧ elements (start s) = elements s
  ∧ config (start s) = config s.
Proof. unfold start. destruct (isRunning s); simpl; done. Qed.

Lemma stop_lists s :
  particles (stop s) = particles s
  ∧ particlePool (stop s) = particlePool s
  ∧ objects (stop s) = objects s
  ∧ elements (stop s) = elements s
  ∧ config (stop s) = config s.
Proof. unfold stop. simpl. destruct (animationFrame s); simpl; done. Qed.

Lemma stop_control s :
  isRunning (stop s) = false ∧ animationFrame (stop s) = 0.
Proof. unfold stop. simpl. destruct (animationFrame s) eqn:E; simpl; done. Qed.

Lemma sched_ok_same s s' : same_control s s' → sched_ok s → sched_ok s'.
Proof.
  intros (_&Ha&Hr&_&_&_&Hq&Hn). unfold sched_ok.
  by rewrite Ha, Hr, Hq, Hn.
Qed.

Lemma start_sched s : sched_ok s → sched_ok (start s).
Proof.
  unfold sched_ok, start. destruct (isRunning s) eqn:E.
  - by rewrite E.
  - simpl. intros [_ ->]. done.
Qed.

Lemma filter_ne_singleton (h : nat) : filter (λ k, k ≠ h) [h] = [].
Proof. rewrite filter_cons, decide_False by tauto. done. Qed.

Lemma stop_sched s : sched_ok s → sched_ok (stop s).
Proof.
  unfold sched_ok, stop. simpl.
  destruct (isRunning s); destruct (animationFrame s) as [|n] eqn:E;
    cbn -[filter].
  - by intros (_ & ? & _).
  - intros (_ & _ & ->). by rewrite filter_ne_singleton.
  - tauto.
  - by intros [].
Qed.

(** A stopped system has nothing queued. *)
Lemma stop_queue s : sched_ok s → frameQueue (stop s) = [].
Proof.
  intros Hs. apply stop_sched in Hs. unfold sched_ok in Hs.
  destruct (stop_control s) as [Hr _]. rewrite Hr in Hs. by destruct Hs.
Qed.

(** [animate] on a stopped system returns at once. *)
Lemma animate_stopped t s : isRunning s = false → animate t s = Ok s.
Proof. intros Hr. unfold animate. by rewrite Hr. Qed.

Lemma animate_running t s :
  isRunning s = true →
  ∃ s1, updateParticles (frameDelta t (lastTime s)) (set_lastTime t s) = Ok s1
    ∧ animate t s
      = Ok (set_animationFrame (S (nextHandle s1))
              (set_host (push (frameQueue s1) (S (nextHandle s1)))
                        (S (nextHandle s1)) s1)).
Proof.
  intros Hr. unfold animate. rewrite Hr. simpl.
  destruct (updateParticles_ok (frameDelta t (lastTime s)) (set_lastTime t s))
    as (s1 & Hs1 & _).
  exists s1. split; [done|]. by rewrite Hs1.
Qed.

Lemma fire_cases h t s :
  sched_ok s →
  (fire h t s = Ok s ∧ (isRunning s = false ∨ h ≠ animationFrame s))
  ∨ (isRunning s = true ∧ h = animationFrame s
     ∧ ∃ s1, updateParticles (frameDelta t (lastTime s))
               (set_lastTime t (cancelAnimationFrame h s)) = Ok s1
         ∧ fire h t s
           = Ok (set_animationFrame (S (nextHandle s))
                   (set_host [S (nextHandle s)] (S (nextHandle s)) s1))).
Proof.
  unfold sched_ok, fire. intros Hs.
  destruct (isRunning s) eqn:Hr.
  - destruct Hs as (Hn & Hz & Hq). rewrite Hq.
    destruct (decide (h = animationFrame s)) as [->|Hne].
    + right. split; [done|]. split; [done|].
      rewrite bool_decide_true by (by left).
      destruct (animate_running t (cancelAnimationFrame (animationFrame s) s))
        as (s1 & Hs1 & ->); [done|].
      exists s1. split; [done|].
      destruct (updateParticles_ok
                  (frameDelta t (lastTime (cancelAnimationFrame (animationFrame s) s)))
                  (set_lastTime t (cancelAnimationFrame (animationFrame s) s)))
        as (s1' & Hs1' & Hc & _).
      rewrite Hs1 in Hs1'. injection Hs1' as <-.
      destruct Hc as (_&_&_&_&_&_&Hq1&Hn1). rewrite Hq1, Hn1.
      cbn -[filter]. rewrite Hq, filter_ne_singleton. done.
    + left. rewrite bool_decide_false
        by (by intros ?%list_elem_of_singleton).
      auto.
  - destruct Hs as [_ Hq]. rewrite Hq.
    left. rewrite bool_decide_false by apply not_elem_of_nil. auto.
Qed.

(** *** The invariants are kept *)

Lemma NoDup_delete_notin (l : list nat) (i p : nat) :
  NoDup l → l !! i = Some p → p ∉ delete i l.
Proof.
  intros Hnd Hi.
  rewrite (delete_Permutation l i p Hi) in Hnd.
  by apply NoDup_cons in Hnd as [].
Qed.

Lemma elem_of_delete_ne (l : list nat) (i p q : nat) :
  l !! i = Some p → q ≠ p → q ∈ delete i l ↔ q ∈ l.
Proof.
  intros Hi Hne. rewrite (delete_Permutation l i p Hi) at 2.
  rewrite elem_of_cons. tauto.
Qed.

Lemma is_Some_alter {A} (f : A → A) (m : gmap nat A) (k q : nat) :
  is_Some (m !! q) → is_Some (alter f k m !! q).
Proof.
  intros Hq. destruct (decide (k = q)) as [->|Hne].
  - rewrite lookup_alter_eq. by apply fmap_is_Some.
  - by rewrite lookup_alter_ne.
Qed.

Lemma held_ok_perm s s' :
  config s' = config s →
  particles s' ++ particlePool s' ≡ₚ particles s ++ particlePool s →
  held_ok s → held_ok s'.
Proof.
  intros Hc Hp [Hnd Hb]. split.
  - by rewrite Hp.
  - intros p Hin. rewrite Hc. apply Hb. by rewrite <- Hp.
Qed.

Lemma held_ok_particles s : held_ok s → NoDup (particles s).
Proof. intros [Hnd _]. by apply NoDup_app in Hnd as []. Qed.

Lemma returnParticle_store p s :
  held_ok s → store_ok s → store_ok (returnParticle p s).
Proof.
  intros Hh Hs q Hq.
  destruct (returnParticle_frame p s) as (Hc&_&_&_&_&_&_&_&Hobj).
  rewrite Hc in Hq. destruct (Hs q Hq) as (o & Ho & Hel & Hact & Hsome).
  assert (Helts : is_Some (elements (returnParticle p s) !! q)).
  { rewrite returnParticle_elements.
    destruct (objects s !! p); [by apply is_Some_alter|done]. }
  rewrite Hobj.
  destruct (decide (q = p)) as [->|Hne].
  - exists (with_active false o). rewrite lookup_alter_eq, Ho. simpl.
    split; [done|]. split; [done|]. split; [|done].
    symmetry. apply bool_decide_eq_false.
    destruct (indexOf (particles s) p) as [i|] eqn:Hi.
    + destruct (returnParticle_in p s i Hi) as [-> _].
      apply NoDup_delete_notin; [by apply held_ok_particles|].
      by apply indexOf_lookup.
    + destruct (returnParticle_out p s Hi) as [-> _]. by apply indexOf_None.
  - exists o. rewrite lookup_alter_ne by done.
    split; [done|]. split; [done|]. split; [|done].
    rewrite Hact. apply bool_decide_ext.
    destruct (indexOf (particles s) p) as [i|] eqn:Hi.
    + destruct (returnParticle_in p s i Hi) as [-> _].
      symmetry. apply elem_of_delete_ne with p; [by apply indexOf_lookup|done].
    + by destruct (returnParticle_out p s Hi) as [-> _].
Qed.

Lemma returnParticle_held p s : held_ok s → held_ok (returnParticle p s).
Proof.
  apply held_ok_perm.
  - by destruct (returnParticle_frame p s) as (?&_).
  - apply returnParticle_perm.
Qed.

Lemma spawnParticle_held px py pvx pvy r1 r2 s :
  held_ok s → held_ok (spawnParticle px py pvx pvy r1 r2 s).
Proof.
  apply held_ok_perm.
  - by destruct (spawnParticle_frame px py pvx pvy r1 r2 s) as (?&_).
  - apply spawnParticle_perm.
Qed.

Lemma spawnParticle_store px py pvx pvy r1 r2 s :
  held_ok s → store_ok s → store_ok (spawnParticle px py pvx pvy r1 r2 s).
Proof.
  intros Hh Hs.
  destruct (getParticle_cases s) as [[Hp _]|(pool & p & Hp & _)].
  { by rewrite spawnParticle_empty. }
  assert (Hpn : p < count (config s)).
  { apply Hh. rewrite Hp. unfold push.
    apply elem_of_app. right. apply elem_of_app. right. by left. }
  assert (Hpl : p ∉ particles s).
  { destruct Hh as [Hnd _]. rewrite Hp in Hnd. unfold push in Hnd.
    apply NoDup_app in Hnd as (_ & Hdisj & _). intros Hin.
    apply (Hdisj p Hin). apply elem_of_app. right. by left. }
  destruct (Hs p Hpn) as (o & Ho & Hel & _ & _).
  destruct (spawnParticle_spec px py pvx pvy r1 r2 s pool p o Hp Ho)
    as (Hl & _ & Hc & Hobj & Helt).
  intros q Hq. destruct Hc as (Hcfg & _). rewrite Hcfg in Hq.
  destruct (Hs q Hq) as (oq & Hoq & Helq & Hactq & Hsomeq).
  rewrite Hobj, Helt, Hl.
  assert (Hsome : is_Some (alter
            (with_style (Translate3d px py
               (Some (add (lit 0.5) (mul r2 (lit 0.5)))))
               (add (rmin (cfg_opacity (config s)))
                  (mul r1 (sub (rmax (cfg_opacity (config s)))
                     (rmin (cfg_opacity (config s)))))))
            (element o) (elements s) !! q)) by by apply is_Some_alter.
  destruct (decide (q = p)) as [->|Hne].
  - eexists. rewrite lookup_insert_eq. split; [done|]. simpl.
    split; [done|]. split; [|done].
    symmetry. apply bool_decide_eq_true. unfold push.
    apply elem_of_app. right. by left.
  - exists oq. rewrite lookup_insert_ne by done.
    split; [done|]. split; [done|]. split; [|done].
    rewrite Hactq. apply bool_decide_ext. unfold push.
    rewrite elem_of_app, list_elem_of_singleton. tauto.
Qed.

(** After the loop of [updateParticles] the active list holds the
    survivors, in their order, and the pool has received the others. *)
Lemma updateParticles_spec dt s :
  held_ok s → store_ok s →
  ∃ s', updateParticles dt s = Ok s'
    ∧ same_control s s'
    ∧ particles s' = filter (λ p, survives dt s p) (particles s)
    ∧ particlePool s'
      = particlePool s
        ++ reverse (filter (λ p, ¬ survives dt s p) (particles s))
    ∧ (∀ q, objects s' !! q
            = if bool_decide (q ∈ particles s)
              then updatedIn dt s <$> objects s !! q
              else objects s !! q)
    ∧ (∀ q, elements s' !! q
            = if bool_decide (q ∈ particles s)
              then restyleIn dt s q <$> elements s !! q
              else elements s !! q).
Proof.
  intros Hh Hs.
  destruct (updateParticles_from_spec dt (particles s) [] s)
    as (s' & Hrun & Hc & Hl & Hrest).
  - by rewrite app_nil_r.
  - rewrite app_nil_r. by apply held_ok_particles.
  - intros p Hp. destruct (Hs p) as (o & Ho & Hel & _).
    + apply Hh. apply elem_of_app. by left.
    + eauto.
  - exists s'. rewrite app_nil_r in Hl. destruct Hrest as (Hq & Hobj & Helt).
    unfold updateParticles. do 5 (split; [done|]). done.
Qed.

Lemma updateParticles_store dt s s' :
  held_ok s → store_ok s → updateParticles dt s = Ok s' → store_ok s'.
Proof.
  intros Hh Hs Hrun.
  destruct (updateParticles_spec dt s Hh Hs)
    as (s1 & Hrun1 & Hc & Hl & _ & Hobj & Helt).
  rewrite Hrun in Hrun1. injection Hrun1 as <-.
  intros q Hq. destruct Hc as (Hcfg & _). rewrite Hcfg in Hq.
  destruct (Hs q Hq) as (o & Ho & Hel & Hact & Hsome).
  rewrite Hobj, Helt, Hl, Ho.
  assert (Hsurv : survives dt s q
                  = negb (expired (offsetWidth s) (offsetHeight s)
                            (advance (lifetime (config s)) dt o))).
  { unfold survives. by rewrite Ho. }
  destruct (bool_decide (q ∈ particles s)) eqn:Hin.
  - apply bool_decide_eq_true in Hin.
    exists (updatedIn dt s o). split; [done|].
    unfold updatedIn, updated.
    destruct (expired (offsetWidth s) (offsetHeight s)
                (advance (lifetime (config s)) dt o)) eqn:He; simpl.
    + split; [done|]. split; [|by apply fmap_is_Some].
      symmetry. apply bool_decide_eq_false.
      rewrite list_elem_of_filter, Hsurv. simpl. tauto.
    + split; [done|]. split; [|by apply fmap_is_Some].
      rewrite Hact.
      symmetry. apply bool_decide_eq_true.
      rewrite list_elem_of_filter, Hsurv. simpl. tauto.
  - apply bool_decide_eq_false in Hin.
    exists o. split; [done|]. split; [done|]. split; [|done].
    rewrite Hact.
    symmetry. apply bool_decide_eq_false.
    rewrite list_elem_of_filter. tauto.
Qed.

Lemma held_store_ext s s' :
  particles s' = particles s →
  particlePool s' = particlePool s →
  config s' = config s →
  objects s' = objects s →
  elements s' = elements s →
  (held_ok s → held_ok s') ∧ (store_ok s → store_ok s').
Proof.
  intros Hl Hq Hc Ho He. unfold held_ok, store_ok.
  rewrite Hl, Hq, Hc, Ho, He. done.
Qed.

(** *** reset *)

(** The loop of [reset] ends with an empty active list once it has been
    unrolled as often as the list is long: [indexOf] finds the head at 0. *)
Lemma reset_loop_spec fuel :
  ∀ s, length (particles s) ≤ fuel →
    particles (reset_loop fuel s) = []
    ∧ particlePool (reset_loop fuel s) = particlePool s ++ particles s
    ∧ same_control s (reset_loop fuel s).
Proof.
  induction fuel as [|f IH]; intros s Hlen; simpl.
  - destruct (particles s) eqn:E; [|simpl in Hlen; lia].
    rewrite app_nil_r. split; [done|]. split; [done|apply same_control_refl].
  - destruct (particles s) as [|p l] eqn:E.
    + rewrite app_nil_r. split; [done|]. split; [done|apply same_control_refl].
    + assert (Hi : indexOf (particles s) p = Some 0).
      { rewrite E. apply indexOf_head. }
      destruct (returnParticle_in p s 0 Hi) as [Hl Hq].
      rewrite E in Hl. simpl in Hl.
      destruct (IH (returnParticle p s)) as (Hl' & Hq' & Hc').
      { rewrite Hl. simpl in Hlen. lia. }
      split; [done|]. split.
      * rewrite Hq', Hq, Hl. unfold push. by rewrite <- app_assoc.
      * eapply same_control_trans; [apply returnParticle_control|done].
Qed.

Lemma reset_loop_wf fuel :
  ∀ s, held_ok s → store_ok s →
    held_ok (reset_loop fuel s) ∧ store_ok (reset_loop fuel s).
Proof.
  induction fuel as [|f IH]; intros s Hh Hs; simpl; [done|].
  destruct (particles s) as [|p l] eqn:E; [done|].
  apply IH; [by apply returnParticle_held|by apply returnParticle_store].
Qed.

Lemma reset_spec s :
  particles (reset s) = []
  ∧ particlePool (reset s) = particlePool s ++ particles s
  ∧ config (reset s) = config s
  ∧ isRunning (reset s) = false
  ∧ animationFrame (reset s) = 0.
Proof.
  unfold reset. cbv zeta.
  destruct (reset_loop_spec (length (particles (stop s))) (stop s))
    as (Hl & Hq & Hc); [done|].
  destruct (stop_lists s) as (Hsl & Hsq & _ & _ & Hsc).
  destruct (stop_control s) as [Hr Ha].
  destruct Hc as (Hcfg & Haf & Hrun & _).
  rewrite Hl, Hq, Hcfg, Haf, Hrun, Hsl, Hsq, Hsc, Hr, Ha. done.
Qed.

Lemma stop_wf s : wf s → wf (stop s).
Proof.
  intros (Hh & Hs & Hsch).
  destruct (stop_lists s) as (Hl & Hq & Ho & He & Hc).
  destruct (held_store_ext s (stop s) Hl Hq Hc Ho He) as [Hh' Hs'].
  split; [by apply Hh'|]. split; [by apply Hs'|by apply stop_sched].
Qed.

Lemma start_wf s : wf s → wf (start s).
Proof.
  intros (Hh & Hs & Hsch).
  destruct (start_lists s) as (Hl & Hq & Ho & He & Hc).
  destruct (held_store_ext s (start s) Hl Hq Hc Ho He) as [Hh' Hs'].
  split; [by apply Hh'|]. split; [by apply Hs'|by apply start_sched].
Qed.

Lemma reset_wf s : wf s → wf (reset s).
Proof.
  intros Hwf. apply stop_wf in Hwf as (Hh & Hs & Hsch). unfold reset.
  cbv zeta.
  destruct (reset_loop_wf (length (particles (stop s))) (stop s) Hh Hs)
    as [Hh' Hs'].
  split; [done|]. split; [done|].
  eapply sched_ok_same; [|done].
  by apply reset_loop_spec.
Qed.

(** *** cleanup *)

Lemma detached_idem (e : @Element num) : parentNode e = false → detached e = e.
Proof. destruct e. simpl. by intros ->. Qed.

Lemma removeElement_spec p s o :
  objects s !! p = Some o →
  particles (removeElement p s) = particles s
  ∧ particlePool (removeElement p s) = particlePool s
  ∧ objects (removeElement p s) = objects s
  ∧ same_control s (removeElement p s)
  ∧ elements (removeElement p s) = alter detached (element o) (elements s).
Proof.
  intros Ho. unfold removeElement. rewrite Ho.
  destruct (elements s !! element o) as [e|] eqn:He.
  - destruct (parentNode e) eqn:Hp; simpl.
    + do 3 (split; [done|]). split; [by repeat split|].
      apply map_eq. intros k. destruct (decide (k = element o)) as [->|Hne].
      * by rewrite lookup_insert_eq, lookup_alter_eq, He.
      * by rewrite lookup_insert_ne, lookup_alter_ne.
    + do 3 (split; [done|]). split; [apply same_control_refl|].
      apply map_eq. intros k. destruct (decide (k = element o)) as [->|Hne].
      * rewrite lookup_alter_eq, He. simpl. by rewrite detached_idem.
      * by rewrite lookup_alter_ne.
  - do 3 (split; [done|]). split; [apply same_control_refl|].
    apply map_eq. intros k. destruct (decide (k = element o)) as [->|Hne].
    + by rewrite lookup_alter_eq, He.
    + by rewrite lookup_alter_ne.
Qed.

(** The [forEach] of [cleanup], over particles that own their element:
    the elements of the particles of [l] end detached, the others are not
    touched. *)
Lemma removeElements_spec (l : list nat) :
  ∀ s, (∀ p, p ∈ l → ∃ o, objects s !! p = Some o ∧ element o = p) →
    let s' := foldl (λ acc p, removeElement p acc) s l in
    particles s' = particles s
    ∧ particlePool s' = particlePool s
    ∧ objects s' = objects s
    ∧ same_control s s'
    ∧ ∀ q, elements s' !! q
           = if bool_decide (q ∈ l) then detached <$> elements s !! q
             else elements s !! q.
Proof.
  induction l as [|p l IH]; intros s Hobj; simpl.
  - do 3 (split; [done|]). split; [apply same_control_refl|done].
  - destruct (Hobj p) as (o & Ho & Hel); [by left|].
    destruct (removeElement_spec p s o Ho) as (Hl & Hq & Hob & Hc & He).
    destruct (IH (removeElement p s)) as (Hl' & Hq' & Hob' & Hc' & He').
    { intros q Hq0. rewrite Hob. apply Hobj. by right. }
    rewrite Hl', Hq', Hob', Hl, Hq, Hob.
    do 3 (split; [done|]). split; [eapply same_control_trans; eauto|].
    intros q. rewrite He', He, Hel.
    destruct (decide (q = p)) as [->|Hne].
    + rewrite lookup_alter_eq. rewrite (bool_decide_true (p ∈ p :: l)) by by left.
      destruct (bool_decide (p ∈ l)); [|done].
      destruct (elements s !! p) as [e|]; simpl; [|done].
      by rewrite (detached_idem (detached e)).
    + rewrite lookup_alter_ne by done.
      apply (f_equal (λ b : bool, if b then _ else _)).
      apply bool_decide_ext. rewrite elem_of_cons. tauto.
Qed.

Lemma cleanup_spec s :
  wf s →
  particles (cleanup s) = []
  ∧ particlePool (cleanup s) = []
  ∧ isRunning (cleanup s) = false
  ∧ animationFrame (cleanup s) = 0
  ∧ frameQueue (cleanup s) = []
  ∧ config (cleanup s) = config s
  ∧ wf (cleanup s)
  ∧ ∀ q, elements (cleanup s) !! q
         = if bool_decide (q ∈ particles s ++ particlePool s)
           then detached <$> elements (reset s) !! q
           else elements (reset s) !! q.
Proof.
  intros Hwf. apply reset_wf in Hwf as Hwr. destruct Hwr as (Hh & Hs & Hsch).
  destruct (reset_spec s) as (Hl & Hq & Hc & Hr & Ha).
  unfold cleanup. cbv zeta.
  destruct (removeElements_spec (particlePool (reset s) ++ particles (reset s))
              (reset s)) as (Hl' & Hq' & Hob' & Hc' & He').
  { intros p Hp. destruct (Hs p) as (o & Ho & Hel & _); [|eauto].
    apply Hh. rewrite elem_of_app in *. tauto. }
  set (s2 := foldl _ _ _) in *. simpl.
  assert (Hsch2 : sched_ok s2) by (by eapply sched_ok_same).
  destruct Hc' as (Hcfg & Haf & Hrun & _ & _ & _ & Hfq & Hnh).
  assert (Hfq0 : frameQueue s2 = []).
  { unfold sched_ok in Hsch2. rewrite Hrun, Hr in Hsch2. by destruct Hsch2. }
  do 2 (split; [done|]). split; [by rewrite Hrun, Hr|].
  split; [by rewrite Haf, Ha|]. split; [done|]. split; [by rewrite Hcfg, Hc|].
  split.
  - split; [|split].
    + split; simpl; [apply NoDup_nil_2|]. intros p Hp. by apply elem_of_nil in Hp.
    + intros p Hp. simpl in *. rewrite Hcfg in Hp.
      destruct (Hs p Hp) as (o & Ho & Hel & Hact & [e Hsome]).
      exists o. rewrite Hob'. split; [done|]. split; [done|]. split.
      * rewrite Hact, Hl. done.
      * rewrite He', Hsome.
        destruct (bool_decide (p ∈ particlePool (reset s) ++ particles (reset s)));
          [apply fmap_is_Some|]; by eexists.
    + unfold sched_ok in *. simpl. done.
  - intros q. rewrite He'. rewrite Hl, Hq, app_nil_r.
    apply (f_equal (λ b : bool, if b then _ else _)).
    apply bool_decide_ext. rewrite !elem_of_app. tauto.
Qed.

(** *** Construction *)

(** A particle and an element as [createPool] makes them. *)
Lemma createPool_from_spec n :
  ∀ i s,
    let s' := createPool_from i n s in
    particles s' = particles s
    ∧ particlePool s' = particlePool s ++ seq i n
    ∧ same_control s s'
    ∧ (∀ q, objects s' !! q
            = if bool_decide (i ≤ q < i + n)
              then Some {| x := lit 0; y := lit 0; vx := lit 0; vy := lit 0;
                           opacity := lit 0; scale := lit 1;
                           element := q; active := false |}
              else objects s !! q)
    ∧ (∀ q, elements s' !! q
            = if bool_decide (i ≤ q < i + n)
              then Some {| cssIndex := q;
                           style_transform := Translate3d (lit 0) (lit 0) None;
                           style_opacity := None; parentNode := true |}
              else elements s !! q).
Proof.
  induction n as [|n IH]; intros i s; simpl.
  - rewrite app_nil_r. do 2 (split; [done|]). split; [apply same_control_refl|].
    split; intros q; rewrite bool_decide_false by lia; done.
  - destruct (IH (S i) (createPool_body i s)) as (Hl & Hq & Hc & Hobj & Helt).
    rewrite Hl, Hq. simpl. split; [done|]. split.
    { unfold push. by rewrite <- app_assoc. }
    split.
    { eapply same_control_trans; [|exact Hc]. by repeat split. }
    split; intros q.
    + rewrite Hobj. simpl.
      destruct (decide (q = i)) as [->|Hne].
      * rewrite bool_decide_false by lia. rewrite bool_decide_true by lia.
        by rewrite lookup_insert_eq.
      * rewrite lookup_insert_ne by done.
        apply (f_equal (λ b : bool, if b then _ else _)).
        apply bool_decide_ext. lia.
    + rewrite Helt. simpl.
      destruct (decide (q = i)) as [->|Hne].
      * rewrite bool_decide_false by lia. rewrite bool_decide_true by lia.
        by rewrite lookup_insert_eq.
      * rewrite lookup_insert_ne by done.
        apply (f_equal (λ b : bool, if b then _ else _)).
        apply bool_decide_ext. lia.
Qed.

Lemma new_spec cfg w h :
  particles (new cfg w h) = []
  ∧ particlePool (new cfg w h) = seq 0 (count cfg)
  ∧ config (new cfg w h) = cfg
  ∧ isRunning (new cfg w h) = false
  ∧ wf (new cfg w h).
Proof.
  unfold new, createPool.
  set (s0 := {| particles := []; particlePool := []; config := cfg;
                animationFrame := 0; isRunning := false; lastTime := lit 0;
                objects := ∅; elements := ∅; offsetWidth := w;
                offsetHeight := h; frameQueue := []; nextHandle := 0 |}).
  change (config s0) with cfg.
  destruct (createPool_from_spec (count cfg) 0 s0)
    as (Hl & Hq & Hc & Hobj & Helt).
  set (s' := createPool_from 0 (count cfg) s0) in *.
  destruct Hc as (Hcfg & Haf & Hrun & _ & _ & _ & Hfq & Hnh).
  change (particles s0) with (@nil nat) in Hl.
  change (particlePool s0) with (@nil nat) in Hq. rewrite app_nil_l in Hq.
  change (config s0) with cfg in Hcfg.
  change (animationFrame s0) with 0 in Haf.
  change (isRunning s0) with false in Hrun.
  change (frameQueue s0) with (@nil nat) in Hfq.
  do 4 (split; [done|]). split; [|split].
  - split.
    + rewrite Hl, Hq. simpl. apply NoDup_seq.
    + intros p. rewrite Hl, Hq, Hcfg. simpl. rewrite elem_of_seq. lia.
  - intros p Hp. rewrite Hcfg in Hp.
    eexists. rewrite Hobj, Helt, Hl. rewrite !bool_decide_true by lia.
    split; [done|]. simpl. split; [done|]. split; [done|by eexists].
  - unfold sched_ok. by rewrite Hrun, Haf, Hfq.
Qed.

(** *** Every operation keeps the invariants *)

Lemma spawnParticle_wf px py pvx pvy r1 r2 s :
  wf s → wf (spawnParticle px py pvx pvy r1 r2 s).
Proof.
  intros (Hh & Hs & Hsch).
  split; [by apply spawnParticle_held|]. split; [by apply spawnParticle_store|].
  eapply sched_ok_same; [|done].
  destruct (getParticle_cases s) as [[Hp _]|(pool & p & Hp & _)].
  - rewrite spawnParticle_empty by done. apply same_control_refl.
  - assert (Hpn : p < count (config s)).
    { apply Hh. rewrite Hp. unfold push.
      apply elem_of_app. right. apply elem_of_app. right. by left. }
    destruct (Hs p Hpn) as (o & Ho & _).
    by destruct (spawnParticle_spec px py pvx pvy r1 r2 s pool p o Hp Ho)
      as (_ & _ & ? & _).
Qed.

Lemma fire_wf h t s :
  wf s → ∃ s', fire h t s = Ok s' ∧ wf s' ∧ config s' = config s.
Proof.
  intros (Hh & Hs & Hsch).
  destruct (fire_cases h t s Hsch)
    as [[-> _]|(Hr & -> & s1 & Hs1 & ->)]; [by exists s|].
  eexists. split; [done|].
  set (s0 := set_lastTime t (cancelAnimationFrame (animationFrame s) s)) in *.
  destruct (held_store_ext s s0 eq_refl eq_refl eq_refl eq_refl eq_refl)
    as [Hh0 Hs0].
  destruct (updateParticles_ok (frameDelta t (lastTime s)) s0)
    as (s1' & Hs1' & Hc & Hperm).
  rewrite Hs1 in Hs1'. injection Hs1' as <-.
  assert (Hcfg : config s1 = config s) by by destruct Hc as (? & _).
  split; [|done]. split; [|split].
  - eapply (held_ok_perm s0); [done|done|by apply Hh0].
  - match goal with |- store_ok ?t =>
      destruct (held_store_ext s1 t eq_refl eq_refl eq_refl eq_refl eq_refl)
        as [_ Hs'] end.
    apply Hs'. eapply updateParticles_store; [apply Hh0|apply Hs0|]; done.
  - unfold sched_ok. simpl.
    destruct Hc as (_ & _ & -> & _). simpl. rewrite Hr. done.
Qed.

Lemma set_layout_wf w h s : wf s → wf (set_layout w h s).
Proof.
  intros (Hh & Hs & Hsch).
  destruct (held_store_ext s (set_layout w h s)
              eq_refl eq_refl eq_refl eq_refl eq_refl) as [Hh' Hs'].
  split; [by apply Hh'|]. split; [by apply Hs'|done].
Qed.

Lemma step_wf (op : @Op num) s :
  wf s → ∃ s', step op s = Ok s' ∧ wf s' ∧ config s' = config s.
Proof.
  intros Hwf. destruct op as [px py pvx pvy r1 r2| | | | |h t|w h]; simpl.
  - eexists. split; [done|]. split; [by apply spawnParticle_wf|].
    by destruct (spawnParticle_frame px py pvx pvy r1 r2 s) as (? & _).
  - eexists. split; [done|]. split; [by apply start_wf|].
    by destruct (start_lists s) as (_&_&_&_&?).
  - eexists. split; [done|]. split; [by apply stop_wf|].
    by destruct (stop_lists s) as (_&_&_&_&?).
  - eexists. split; [done|]. split; [by apply reset_wf|].
    by destruct (reset_spec s) as (_&_&?&_).
  - eexists. split; [done|].
    by destruct (cleanup_spec s Hwf) as (_&_&_&_&_&?&?&_).
  - by apply fire_wf.
  - eexists. split; [done|]. split; [by apply set_layout_wf|done].
Qed.

(** No sequence of operations raises, and the invariants hold after it. *)
Lemma run_wf ops :
  ∀ s, wf s → ∃ s', run ops s = Ok s' ∧ wf s' ∧ config s' = config s.
Proof.
  induction ops as [|op ops IH]; intros s Hwf; simpl.
  - by exists s.
  - destruct (step_wf op s Hwf) as (s1 & -> & Hwf1 & Hc1). simpl.
    destruct (IH s1 Hwf1) as (s2 & -> & Hwf2 & Hc2).
    exists s2. split; [done|]. split; [done|congruence].
Qed.

(** Every operation but [cleanup] moves particles between the two arrays
    and does nothing else to them. *)
Lemma step_perm (op : @Op num) s s' :
  isCleanup op = false → step op s = Ok s' →
  particles s' ++ particlePool s' ≡ₚ particles s ++ particlePool s.
Proof.
  intros Hnc. destruct op as [px py pvx pvy r1 r2| | | | |h t|w h]; simpl;
    try done; intros [= <-] || intros Hstep.
  - apply spawnParticle_perm.
  - by destruct (start_lists s) as (-> & -> & _).
  - by destruct (stop_lists s) as (-> & -> & _).
  - destruct (reset_spec s) as (-> & -> & _). simpl.
    apply Permutation_app_comm.
  - unfold fire in Hstep. destruct (bool_decide _); [|by injection Hstep as <-].
    unfold animate in Hstep.
    destruct (negb _); [by injection Hstep as <-|].
    destruct (updateParticles_ok
                (frameDelta t (lastTime (cancelAnimationFrame h s)))
                (set_lastTime t (cancelAnimationFrame h s)))
      as (s1 & Hs1 & _ & Hperm).
    rewrite Hs1 in Hstep. simpl in Hstep. injection Hstep as <-. done.
  - done.
Qed.

Lemma run_perm ops :
  ∀ s s', forallb (λ op, negb (isCleanup op)) ops = true →
    run ops s = Ok s' →
    particles s' ++ particlePool s' ≡ₚ particles s ++ particlePool s.
Proof.
  induction ops as [|op ops IH]; intros s s' Hnc; simpl.
  - by intros [= <-].
  - simpl in Hnc. apply andb_prop in Hnc as [Ho Hops].
    apply negb_true_iff in Ho.
    destruct (step op s) as [s1|e s1] eqn:Hstep; simpl; [|done].
    intros Hrun. rewrite (IH s1 s' Hops Hrun).
    by apply (step_perm op).
Qed.

(** *** Elements are restyled, never removed, until cleanup *)

Lemma elements_kept_refl s : elements_kept s s.
Proof. intros q e He. eauto. Qed.

Lemma elements_kept_eq s s' : elements s' = elements s → elements_kept s s'.
Proof. intros Heq q e He. rewrite Heq. eauto. Qed.

Lemma elements_kept_trans s1 s2 s3 :
  elements_kept s1 s2 → elements_kept s2 s3 → elements_kept s1 s3.
Proof.
  intros H12 H23 q e He.
  destruct (H12 q e He) as (e2 & He2 & Hp2 & Hc2).
  destruct (H23 q e2 He2) as (e3 & He3 & Hp3 & Hc3).
  exists e3. split; [done|]. split; congruence.
Qed.

Lemma elements_kept_alter (f : @Element num → @Element num) k s s' :
  (∀ e, parentNode (f e) = parentNode e ∧ cssIndex (f e) = cssIndex e) →
  elements s' = alter f k (elements s) →
  elements_kept s s'.
Proof.
  intros Hf Heq q e He. rewrite Heq.
  destruct (decide (q = k)) as [->|Hne].
  - rewrite lookup_alter_eq, He. simpl. eexists. split; [done|]. apply Hf.
  - rewrite lookup_alter_ne by done. eauto.
Qed.

Lemma returnParticle_kept p s : elements_kept s (returnParticle p s).
Proof.
  pose proof (returnParticle_elements p s) as He.
  destruct (objects s !! p) as [o|].
  - by eapply elements_kept_alter; [|exact He].
  - by apply elements_kept_eq.
Qed.

Lemma updateParticleElement_kept p s :
  elements_kept s (updateParticleElement p s).
Proof.
  unfold updateParticleElement. destruct (objects s !! p) as [o|].
  - by eapply elements_kept_alter; [|simpl; reflexivity].
  - apply elements_kept_refl.
Qed.

Lemma spawnParticle_kept px py pvx pvy r1 r2 s :
  elements_kept s (spawnParticle px py pvx pvy r1 r2 s).
Proof.
  unfold spawnParticle.
  destruct (getParticle_cases s) as [[_ ->]|(pool & p & _ & ->)].
  - apply elements_kept_refl.
  - eapply elements_kept_trans; [|apply updateParticleElement_kept].
    by apply elements_kept_eq.
Qed.

Lemma updateParticles_body_kept dt i s s' :
  updateParticles_body dt i s = Ok s' → elements_kept s s'.
Proof.
  unfold updateParticles_body. destruct (particles s !! i) as [p|]; [|done].
  simpl. set (s1 := set_objects _ s).
  destruct (alter _ p (objects s) !! p) as [o|].
  - destruct (expired _ _ o); intros [= <-].
    + eapply elements_kept_trans; [|apply returnParticle_kept].
      by apply elements_kept_eq.
    + eapply elements_kept_trans; [|apply updateParticleElement_kept].
      by apply elements_kept_eq.
  - intros [= <-]. by apply elements_kept_eq.
Qed.

Lemma updateParticles_from_kept dt n :
  ∀ s s', updateParticles_from dt n s = Ok s' → elements_kept s s'.
Proof.
  induction n as [|i IH]; intros s s'; simpl.
  - intros [= <-]. apply elements_kept_refl.
  - destruct (updateParticles_body dt i s) as [s1|e s1] eqn:Hb; simpl; [|done].
    intros Hrest. eapply elements_kept_trans.
    + by eapply updateParticles_body_kept.
    + by apply IH.
Qed.

Lemma reset_loop_kept fuel : ∀ s, elements_kept s (reset_loop fuel s).
Proof.
  induction fuel as [|f IH]; intros s; simpl; [apply elements_kept_refl|].
  destruct (particles s) as [|p l]; [apply elements_kept_refl|].
  eapply elements_kept_trans; [apply returnParticle_kept|apply IH].
Qed.

Lemma step_kept (op : @Op num) s s' :
  isCleanup op = false → step op s = Ok s' → elements_kept s s'.
Proof.
  intros Hnc. destruct op as [px py pvx pvy r1 r2| | | | |h t|w h]; simpl;
    try done; intros [= <-] || intros Hstep.
  - apply spawnParticle_kept.
  - apply elements_kept_eq. by destruct (start_lists s) as (_&_&_&?&_).
  - apply elements_kept_eq. by destruct (stop_lists s) as (_&_&_&?&_).
  - unfold reset. cbv zeta.
    eapply elements_kept_trans; [|apply reset_loop_kept].
    apply elements_kept_eq. by destruct (stop_lists s) as (_&_&_&?&_).
  - unfold fire in Hstep.
    destruct (bool_decide _); [|injection Hstep as <-; apply elements_kept_refl].
    unfold animate in Hstep.
    destruct (negb _); [injection Hstep as <-; by apply elements_kept_eq|].
    destruct (updateParticles _ _) as [s1|e s1] eqn:Hu; simpl in Hstep; [|done].
    injection Hstep as <-.
    apply updateParticles_from_kept in Hu.
    eapply elements_kept_trans; [|eapply elements_kept_trans; [exact Hu|]];
      by apply elements_kept_eq.
  - by apply elements_kept_eq.
Qed.

Lemma run_kept ops :
  ∀ s s', forallb (λ op, negb (isCleanup op)) ops = true →
    run ops s = Ok s' → elements_kept s s'.
Proof.
  induction ops as [|op ops IH]; intros s s' Hnc; simpl.
  - intros [= <-]. apply elements_kept_refl.
  - simpl in Hnc. apply andb_prop in Hnc as [Ho Hops].
    apply negb_true_iff in Ho.
    destruct (step op s) as [s1|e s1] eqn:Hstep; simpl; [|done].
    intros Hrun. eapply elements_kept_trans.
    + by eapply step_kept.
    + by apply IH.
Qed.

(** *** Spawning beyond the capacity of the pool *)

(** A burst of spawns moves as many particles as the pool holds; the calls
    after those leave the state as it is. *)
Lemma run_spawns burst :
  ∀ s, ∃ s',
    run (map spawnOf burst) s = Ok s'
    ∧ length (particles s')
      = length (particles s) + min (length burst) (length (particlePool s))
    ∧ run (map spawnOf (take (length (particlePool s)) burst)) s = Ok s'.
Proof.
  induction burst as [|a burst IH]; intros s.
  - exists s. simpl. rewrite take_nil. simpl. split; [done|]. split; [lia|done].
  - destruct a as [[[[[px py] pvx] pvy] r1] r2]. simpl.
    destruct (getParticle_cases s) as [[Hp _]|(pool & p & Hp & _)].
    + rewrite spawnParticle_empty by done. simpl.
      destruct (IH s) as (s' & Hrun & Hlen & Htake).
      rewrite Hp in *. simpl in *.
      injection Htake as <-. exists s. split; [done|]. split; [lia|done].
    + destruct (spawnParticle_some px py pvx pvy r1 r2 s pool p Hp) as [Hl Hq].
      destruct (IH (spawnParticle px py pvx pvy r1 r2 s))
        as (s' & Hrun & Hlen & Htake).
      exists s'. split; [done|].
      rewrite Hl, Hq in *. rewrite Hp. unfold push in *.
      rewrite !length_app in *. simpl in *.
      replace (length pool + 1) with (S (length pool)) by lia. simpl.
      split; [lia|done].
Qed.

(** C1.  Whatever has been done to a particle system built with a pool of
    [count cfg] particles, no call raises and at most [count cfg] particles
    are active; once the pool is empty [spawnParticle] leaves the whole
    state, store and elements included, as it is.  A burst of spawns on a
    new system activates as many particles as the shorter of the burst and
    the pool, and ends in the state the first [count cfg] calls reach: with
    a pool of 60 and 1000 calls, 60 particles are active and the last 940
    calls change nothing. *)
Theorem spawn_beyond_capacity cfg w h :
  (∀ ops, ∃ s,
      run ops (new cfg w h) = Ok s
      ∧ length (particles s) ≤ count cfg
      ∧ (particlePool s = [] →
         ∀ px py pvx pvy r1 r2, spawnParticle px py pvx pvy r1 r2 s = s))
  ∧ (∀ burst, ∃ s,
      run (map spawnOf burst) (new cfg w h) = Ok s
      ∧ length (particles s) = min (length burst) (count cfg)
      ∧ run (map spawnOf (take (count cfg) burst)) (new cfg w h) = Ok s)
  ∧ (count cfg = 60 → ∀ burst, length burst = 1000 → ∃ s,
      run (map spawnOf burst) (new cfg w h) = Ok s
      ∧ length (particles s) = 60
      ∧ run (map spawnOf (take 60 burst)) (new cfg w h) = Ok s).
Proof.
  destruct (new_spec cfg w h) as (Hl & Hq & Hc & Hr & Hwf).
  assert (Hburst : ∀ burst, ∃ s,
      run (map spawnOf burst) (new cfg w h) = Ok s
      ∧ length (particles s) = min (length burst) (count cfg)
      ∧ run (map spawnOf (take (count cfg) burst)) (new cfg w h) = Ok s).
  { intros burst. destruct (run_spawns burst (new cfg w h))
      as (s & Hrun & Hlen & Htake).
    rewrite Hl, Hq, length_seq in *. simpl in Hlen. eauto. }
  split; [|split; [done|]].
  - intros ops. destruct (run_wf ops (new cfg w h) Hwf) as (s & Hrun & Hwf' & Hc').
    exists s. split; [done|]. split.
    + destruct Hwf' as ([Hnd Hb] & _).
      apply NoDup_app in Hnd as (Hnd & _).
      rewrite Hc', Hc in Hb.
      rewrite <- (length_seq (count cfg) 0).
      apply submseteq_length, NoDup_submseteq; [done|].
      intros p Hp. apply elem_of_seq. split; [lia|]. simpl.
      apply Hb. apply elem_of_app. by left.
    + intros Hp px py pvx pvy r1 r2. by apply spawnParticle_empty.
  - intros H60 burst H1000. destruct (Hburst burst) as (s & Hrun & Hlen & Htake).
    rewrite H60, H1000 in *. simpl in Hlen. eauto.
Qed.

(** *** The partition into pool and active list *)

(** C2.  Between construction and cleanup, after any sequence of spawns,
    frames, starts, stops, resets and layouts, no call has raised, the
    active list followed by the pool is a rearrangement of the particles
    made at construction, so each of them is in exactly one of the two and
    there once; its [active] flag says in which; and its object and its
    element, still attached, are the ones made at construction. *)
Theorem pool_active_partition cfg w h ops :
  forallb (λ op, negb (isCleanup op)) ops = true →
  ∃ s, run ops (new cfg w h) = Ok s
    ∧ particles s ++ particlePool s ≡ₚ seq 0 (count cfg)
    ∧ (∀ p, p < count cfg →
         (p ∈ particles s ∧ p ∉ particlePool s)
         ∨ ((p ∉ particles s) ∧ p ∈ particlePool s))
    ∧ (∀ p, p ∈ particles s ++ particlePool s → p < count cfg)
    ∧ (∀ p, p < count cfg →
         ∃ o e, objects s !! p = Some o
                ∧ element o = p
                ∧ active o = bool_decide (p ∈ particles s)
                ∧ elements s !! p = Some e
                ∧ parentNode e = true
                ∧ cssIndex e = p).
Proof.
  intros Hnc.
  destruct (new_spec cfg w h) as (Hl & Hq & Hc & Hr & Hwf).
  destruct (run_wf ops (new cfg w h) Hwf) as (s & Hrun & Hwf' & Hc').
  pose proof (run_perm ops _ _ Hnc Hrun) as Hperm.
  rewrite Hl, Hq in Hperm. simpl in Hperm.
  exists s. split; [done|]. split; [done|].
  assert (Hnd : NoDup (particles s ++ particlePool s)).
  { rewrite Hperm. apply NoDup_seq. }
  assert (Hin : ∀ p, p ∈ particles s ++ particlePool s ↔ p < count cfg).
  { intros p. rewrite Hperm, elem_of_seq. lia. }
  split; [|split].
  - intros p Hp. apply Hin in Hp.
    apply NoDup_app in Hnd as (_ & Hdisj & _).
    apply elem_of_app in Hp as [Hp|Hp].
    + left. split; [done|]. by apply Hdisj.
    + right. split; [|done]. intros Hp'. by apply (Hdisj p).
  - intros p Hp. by apply Hin.
  - intros p Hp. destruct Hwf' as (_ & Hs & _).
    unfold store_ok in Hs. rewrite Hc', Hc in Hs.
    destruct (Hs p Hp) as (o & Ho & Hel & Hact & _).
    pose proof (run_kept ops _ _ Hnc Hrun) as Hkept.
    destruct (createPool_from_spec (count cfg) 0
                {| particles := []; particlePool := []; config := cfg;
                   animationFrame := 0; isRunning := false; lastTime := lit 0;
                   objects := ∅; elements := ∅; offsetWidth := w;
                   offsetHeight := h; frameQueue := []; nextHandle := 0 |})
      as (_ & _ & _ & _ & He0).
    specialize (He0 p). rewrite bool_decide_true in He0 by (simpl; lia).
    destruct (Hkept p _ He0) as (e & He & Hpar & Hcss).
    exists o, e. simpl in *. done.
Qed.

(** *** After cleanup *)

(** On a system with both arrays empty every operation returns, leaves
    them empty and touches neither the store nor the elements. *)
Lemma step_dead (op : @Op num) s :
  particles s = [] → particlePool s = [] →
  ∃ s', step op s = Ok s'
    ∧ particles s' = [] ∧ particlePool s' = []
    ∧ objects s' = objects s ∧ elements s' = elements s.
Proof.
  intros Hl Hq. destruct op as [px py pvx pvy r1 r2| | | | |h t|w h]; simpl.
  - rewrite spawnParticle_empty by done. by exists s.
  - eexists. split; [done|].
    destruct (start_lists s) as (-> & -> & -> & -> & _). done.
  - eexists. split; [done|].
    destruct (stop_lists s) as (-> & -> & -> & -> & _). done.
  - eexists. split; [done|].
    destruct (stop_lists s) as (Hsl & Hsq & Hso & Hse & _).
    unfold reset. cbv zeta. rewrite Hsl, Hl. simpl.
    rewrite Hsl, Hsq, Hso, Hse. done.
  - eexists. split; [done|].
    destruct (stop_lists s) as (Hsl & Hsq & Hso & Hse & _).
    unfold cleanup, reset. cbv zeta. rewrite Hsl, Hl. simpl.
    rewrite Hsl, Hsq, Hl, Hq. simpl. rewrite Hso, Hse. done.
  - unfold fire. destruct (bool_decide _); [|by exists s].
    unfold animate. destruct (negb _); [by eexists|].
    unfold updateParticles. simpl. rewrite Hl. simpl. by eexists.
  - by eexists.
Qed.

Lemma run_dead ops :
  ∀ s, particles s = [] → particlePool s = [] →
    ∃ s', run ops s = Ok s'
      ∧ particles s' = [] ∧ particlePool s' = []
      ∧ objects s' = objects s ∧ elements s' = elements s.
Proof.
  induction ops as [|op ops IH]; intros s Hl Hq; simpl.
  - by exists s.
  - destruct (step_dead op s Hl Hq) as (s1 & -> & Hl1 & Hq1 & Ho1 & He1).
    simpl. destruct (IH s1 Hl1 Hq1) as (s2 & -> & Hl2 & Hq2 & Ho2 & He2).
    exists s2. rewrite Ho2, He2. done.
Qed.

(** A second [cleanup] finds nothing to do. *)
Lemma cleanup_dead s :
  particles s = [] → particlePool s = [] →
  isRunning s = false → animationFrame s = 0 →
  cleanup s = s.
Proof.
  destruct s. simpl. intros -> -> -> ->. reflexivity.
Qed.

(** C6.  After [cleanup], on a system in any state it can be in: both
    arrays are empty, the system is stopped with no frame request pending,
    and the element of every particle that was pooled or active is detached
    from the container.  A frame callback that still fires returns at once
    without rescheduling, and the host has none to fire; no operation that
    follows, frames included, raises or changes any element; and [cleanup]
    again, any number of times, leaves the system as it is. *)
Theorem cleanup_is_final cfg w h ops :
  ∃ s, run ops (new cfg w h) = Ok s
    ∧ particles (cleanup s) = []
    ∧ particlePool (cleanup s) = []
    ∧ isRunning (cleanup s) = false
    ∧ animationFrame (cleanup s) = 0
    ∧ frameQueue (cleanup s) = []
    ∧ (∀ p, p ∈ particles s ++ particlePool s →
         ∃ o e, objects s !! p = Some o
                ∧ elements (cleanup s) !! element o = Some e
                ∧ parentNode e = false)
    ∧ (∀ t, animate t (cleanup s) = Ok (cleanup s))
    ∧ (∀ k t, step (OpFrame k t) (cleanup s) = Ok (cleanup s))
    ∧ (∀ later, ∃ s', run later (cleanup s) = Ok s'
         ∧ elements s' = elements (cleanup s)
         ∧ particles s' = [] ∧ particlePool s' = [])
    ∧ (∀ n, Nat.iter n cleanup (cleanup s) = cleanup s).
Proof.
  destruct (new_spec cfg w h) as (_ & _ & Hc & _ & Hwf).
  destruct (run_wf ops (new cfg w h) Hwf) as (s & Hrun & Hwf' & Hc').
  destruct (cleanup_spec s Hwf')
    as (Hl & Hq & Hr & Ha & Hfq & Hcc & Hwfc & He).
  exists s. do 6 (split; [done|]). split; [|split; [|split; [|split]]].
  - intros p Hp. pose proof Hwf' as (Hh & Hs & _).
    destruct (Hs p) as (o & Ho & Hel & _); [by apply Hh|].
    destruct (reset_wf s Hwf') as (_ & Hsr & _).
    destruct (reset_spec s) as (_ & _ & Hcr & _).
    destruct (Hsr p) as (_ & _ & _ & _ & [e Hsome]).
    { rewrite Hcr. by apply Hh. }
    exists o, (detached e). split; [done|].
    rewrite Hel, He, Hsome. rewrite bool_decide_true by done. done.
  - intros t. by apply animate_stopped.
  - intros k t. simpl. unfold fire. rewrite Hfq.
    by rewrite bool_decide_false by apply not_elem_of_nil.
  - intros later. destruct (run_dead later (cleanup s) Hl Hq)
      as (s' & Hrun' & Hl' & Hq' & _ & He').
    by exists s'.
  - intros n. induction n as [|n IH]; simpl; [done|].
    rewrite IH. by apply cleanup_dead.
Qed.

(** *** The frame update *)

(** C7, as the code has it.  On a system in any state it can be in while
    running, the frame the host fires returns and records the time.  With
    [deltaTime] the elapsed milliseconds over 1000, capped at 0.016 and
    taken from the current time when no frame was seen before, every active
    particle has moved by its velocity times [deltaTime] and lost
    [deltaTime / lifetime] of opacity; the particles whose opacity is then
    at most zero or whose position is outside the container's box padded by
    50 are back in the pool, inactive, with [style.opacity] at 0, and the
    others are still active with their element showing the new state. *)
Theorem frame_update cfg w h ops s t :
  run ops (new cfg w h) = Ok s →
  isRunning s = true →
  let deltaTime :=
    nmin (div (sub t (if truthy (lastTime s) then lastTime s else t))
              (lit 1000))
         (lit 0.016) in
  ∃ s', step (OpFrame (animationFrame s) t) s = Ok s'
    ∧ lastTime s' = t
    ∧ ∀ p, p ∈ particles s →
        ∃ o, objects s !! p = Some o
          ∧ let o' := advance (lifetime cfg) deltaTime o in
            x o' = add (x o) (mul (vx o) deltaTime)
            ∧ y o' = add (y o) (mul (vy o) deltaTime)
            ∧ opacity o' = sub (opacity o) (div deltaTime (lifetime cfg))
            ∧ if expired (offsetWidth s) (offsetHeight s) o'
              then p ∈ particlePool s' ∧ (p ∉ particles s')
                   ∧ objects s' !! p = Some (with_active false o')
                   ∧ ∃ e, elements s' !! p = Some e
                          ∧ style_opacity e = Some (lit 0)
              else p ∈ particles s'
                   ∧ objects s' !! p = Some o'
                   ∧ ∃ e, elements s' !! p = Some e ∧ shows o' e.
Proof.
  intros Hrun Hr dt.
  destruct (new_spec cfg w h) as (_ & _ & Hc & _ & Hwf).
  destruct (run_wf ops (new cfg w h) Hwf) as (s0 & Hrun0 & Hwf' & Hc').
  rewrite Hrun in Hrun0. injection Hrun0 as <-.
  rewrite Hc in Hc'. destruct Hwf' as (Hh & Hs & Hsch).
  destruct (fire_cases (animationFrame s) t s Hsch)
    as [[_ [Hf|Hf]]|(_ & _ & s1 & Hs1 & Hfire)]; [congruence|done|].
  change (frameDelta t (lastTime s)) with dt in Hs1.
  set (sa := set_lastTime t (cancelAnimationFrame (animationFrame s) s)) in *.
  destruct (held_store_ext s sa eq_refl eq_refl eq_refl eq_refl eq_refl)
    as [Hha Hsa].
  destruct (updateParticles_spec dt sa (Hha Hh) (Hsa Hs))
    as (s1' & Hs1' & Hctl & Hl & Hq & Hobj & Helt).
  rewrite Hs1 in Hs1'. injection Hs1' as <-.
  eexists. split; [exact Hfire|]. split.
  { simpl. by destruct Hctl as (_&_&_&->&_). }
  intros p Hp. destruct (Hs p) as (o & Ho & Hel & _ & [e He]).
  { apply Hh. apply elem_of_app. by left. }
  exists o. split; [done|]. rewrite <- Hc'.
  do 3 (split; [done|]).
  assert (Hsurv : survives dt sa p
                  = negb (expired (offsetWidth s) (offsetHeight s)
                            (advance (lifetime (config s)) dt o))).
  { unfold survives. change (objects sa) with (objects s). by rewrite Ho. }
  specialize (Hobj p). specialize (Helt p).
  change (particles sa) with (particles s) in *.
  change (particlePool sa) with (particlePool s) in *.
  rewrite bool_decide_true in Hobj, Helt by done.
  change (objects sa) with (objects s) in Hobj.
  change (elements sa) with (elements s) in Helt.
  rewrite Ho in Hobj. rewrite He in Helt. simpl in Hobj, Helt.
  unfold updatedIn, updated in Hobj. unfold restyleIn, restyle in Helt.
  change (objects sa) with (objects s) in Helt. rewrite Ho in Helt.
  change (config sa) with (config s) in *.
  change (offsetWidth sa) with (offsetWidth s) in *.
  change (offsetHeight sa) with (offsetHeight s) in *.
  cbv zeta in Helt.
  destruct (expired (offsetWidth s) (offsetHeight s)
              (advance (lifetime (config s)) dt o)) eqn:Hexp; simpl.
  - split; [|split; [|split]].
    + rewrite Hq. apply elem_of_app. right. rewrite elem_of_reverse.
      apply list_elem_of_filter. rewrite Hsurv. simpl. tauto.
    + rewrite Hl. rewrite list_elem_of_filter, Hsurv. simpl. tauto.
    + done.
    + eexists. split; [exact Helt|done].
  - split; [|split].
    + rewrite Hl. apply list_elem_of_filter. rewrite Hsurv. simpl. tauto.
    + done.
    + eexists. split; [exact Helt|]. by split.
Qed.

(** *** start and stop *)

(** Calling [start] twice, or [stop] twice, is calling it once. *)
Theorem start_stop_idempotent s :
  start (start s) = start s
  ∧ stop (stop s) = stop s
  ∧ isRunning (start s) = true
  ∧ isRunning (stop s) = false.
Proof.
  split; [|split; [|split]].
  - unfold start at 1.
    assert (Hr : isRunning (start s) = true).
    { unfold start. destruct (isRunning s) eqn:E; simpl; done. }
    by rewrite Hr.
  - destruct s as [l q c af r lt ob el ow oh fq nh]. unfold stop. simpl.
    destruct af as [|n]; simpl; reflexivity.
  - unfold start. destruct (isRunning s) eqn:E; simpl; done.
  - by destruct (stop_control s).
Qed.

(** *** The frame scheduler *)

(** In every state a system can be in, the host holds one frame request
    for it while it runs, the one whose handle [animationFrame] keeps, and
    none while it does not; firing any other handle does nothing. *)
Theorem one_pending_frame cfg w h ops :
  ∃ s, run ops (new cfg w h) = Ok s
    ∧ frameQueue s = (if isRunning s then [animationFrame s] else [])
    ∧ (if isRunning s then animationFrame s ≠ 0 else animationFrame s = 0)
    ∧ ∀ k t, k ∉ frameQueue s → step (OpFrame k t) s = Ok s.
Proof.
  destruct (new_spec cfg w h) as (_ & _ & _ & _ & Hwf).
  destruct (run_wf ops (new cfg w h) Hwf) as (s & Hrun & (_ & _ & Hsch) & _).
  exists s. split; [done|]. unfold sched_ok in Hsch.
  split; [|split].
  - destruct (isRunning s); [by destruct Hsch as (_ & _ & ?)|by destruct Hsch].
  - destruct (isRunning s); [by destruct Hsch as (_ & ? & _)|by destruct Hsch].
  - intros k t Hk. simpl. unfold fire. by rewrite bool_decide_false.
Qed.

(** *** updateParticles on any state *)

Lemma updateParticles_from_length deltaTime n :
  ∀ s s', updateParticles_from deltaTime n s = Ok s' →
    length (particles s') ≤ length (particles s).
Proof.
  induction n as [|i IH]; intros s s'; simpl.
  - by intros [= <-].
  - destruct (updateParticles_body deltaTime i s) as [s1|e s1] eqn:Hb;
      simpl; [|done].
    intros Hrest. apply IH in Hrest. etransitivity; [exact Hrest|].
    unfold updateParticles_body in Hb.
    destruct (particles s !! i) as [p|]; [|done]. simpl in Hb.
    set (s0 := set_objects _ s) in Hb.
    destruct (alter _ p (objects s) !! p) as [o|].
    + destruct (expired _ _ o); injection Hb as <-.
      * destruct (indexOf (particles s0) p) as [j|] eqn:Hj.
        -- destruct (returnParticle_in p s0 j Hj) as [-> _].
           rewrite length_delete; [simpl; lia|].
           apply indexOf_lookup in Hj. eauto.
        -- by destruct (returnParticle_out p s0 Hj) as [-> _].
      * by destruct (updateParticleElement_frame p s0) as (-> & _).
    + by injection Hb as <-.
Qed.

(** The loop of [updateParticles] runs from the last index down while
    [returnParticle] shortens the array: on any state whatever, well formed
    or not, [this.particles[i]] is defined at every turn and the call
    returns, having at most moved particles from the active list to the
    pool. *)
Theorem updateParticles_returns deltaTime s :
  ∃ s', updateParticles deltaTime s = Ok s'
    ∧ particles s' ++ particlePool s' ≡ₚ particles s ++ particlePool s
    ∧ length (particles s') ≤ length (particles s)
    ∧ config s' = config s
    ∧ isRunning s' = isRunning s
    ∧ frameQueue s' = frameQueue s.
Proof.
  destruct (updateParticles_ok deltaTime s) as (s' & Hrun & Hc & Hperm).
  exists s'. split; [done|]. split; [done|].
  destruct Hc as (Hcfg & _ & Hr & _ & _ & _ & Hq & _).
  split; [|done]. by eapply updateParticles_from_length.
Qed.

(** *** Recycling a particle *)

(** A particle returned to the pool is the next one spawned, and nothing of
    its earlier trajectory is left: position, velocity, opacity and scale
    are the ones of the spawn, and its element shows them. *)
Theorem respawn_reinitialised cfg w h ops s p px py pvx pvy r1 r2 :
  run ops (new cfg w h) = Ok s →
  p ∈ particles s →
  let op := add (rmin (cfg_opacity cfg))
                (mul r1 (sub (rmax (cfg_opacity cfg)) (rmin (cfg_opacity cfg)))) in
  let sc := add (lit 0.5) (mul r2 (lit 0.5)) in
  let s1 := returnParticle p s in
  let s2 := spawnParticle px py pvx pvy r1 r2 s1 in
  last (particlePool s1) = Some p
  ∧ last (particles s2) = Some p
  ∧ objects s2 !! p
    = Some {| x := px; y := py; vx := pvx; vy := pvy; opacity := op;
              scale := sc; element := p; active := true |}
  ∧ ∃ e, elements s2 !! p = Some e
         ∧ style_transform e = Translate3d px py (Some sc)
         ∧ style_opacity e = Some op.
Proof.
  intros Hrun Hp op sc s1 s2.
  destruct (new_spec cfg w h) as (Hl0 & Hq0 & Hc & _ & Hwf).
  destruct (run_wf ops (new cfg w h) Hwf) as (s0 & Hrun0 & Hwf' & Hc').
  rewrite Hrun in Hrun0. injection Hrun0 as <-. rewrite Hc in Hc'.
  destruct Hwf' as (Hh & Hs & Hsch).
  destruct (indexOf_elem _ _ Hp) as [i Hi].
  destruct (returnParticle_in p s i Hi) as [Hl1 Hq1].
  destruct (returnParticle_frame p s) as (Hcfg1 & _ & _ & _ & _ & _ & _ & _ & Hobj1).
  pose proof (returnParticle_store p s Hh Hs) as Hs1.
  assert (Hpn : p < count (config s)).
  { apply Hh. apply elem_of_app. by left. }
  destruct (Hs1 p) as (o1 & Ho1 & Hel1 & _ & [e1 He1]); [by rewrite Hcfg1|].
  fold s1 in Hl1, Hq1, Hcfg1, Hobj1, Ho1, He1.
  destruct (spawnParticle_spec px py pvx pvy r1 r2 s1 (particlePool s) p o1
              Hq1 Ho1) as (Hl2 & _ & _ & Hobj2 & Helt2).
  fold s2 in Hl2, Hobj2, Helt2. rewrite Hcfg1, Hc' in Hobj2, Helt2.
  fold op sc in Hobj2, Helt2.
  split; [by rewrite Hq1; apply last_snoc|].
  split; [by rewrite Hl2; apply last_snoc|].
  split; [by rewrite Hobj2, lookup_insert_eq, Hel1|].
  rewrite Helt2, Hel1, lookup_alter_eq, He1. simpl.
  eexists. split; [done|]. by split.
Qed.

(** *** reset *)

Lemma returnParticle_faded_kept p s q :
  (∃ e, elements s !! q = Some e ∧ style_opacity e = Some (lit 0)) →
  ∃ e, elements (returnParticle p s) !! q = Some e
       ∧ style_opacity e = Some (lit 0).
Proof.
  intros (e & He & Hop). rewrite returnParticle_elements.
  destruct (objects s !! p) as [o|]; [|eauto].
  destruct (decide (q = element o)) as [->|Hne].
  - rewrite lookup_alter_eq, He. simpl. eauto.
  - rewrite lookup_alter_ne by done. eauto.
Qed.

Lemma reset_loop_faded_kept fuel q :
  ∀ s, (∃ e, elements s !! q = Some e ∧ style_opacity e = Some (lit 0)) →
    ∃ e, elements (reset_loop fuel s) !! q = Some e
         ∧ style_opacity e = Some (lit 0).
Proof.
  induction fuel as [|f IH]; intros s Hq; simpl; [done|].
  destruct (particles s) as [|p l]; [done|].
  apply IH. by apply returnParticle_faded_kept.
Qed.

Lemma reset_loop_fades fuel :
  ∀ s, held_ok s → store_ok s → length (particles s) ≤ fuel →
    ∀ p, p ∈ particles s →
      ∃ e, elements (reset_loop fuel s) !! p = Some e
           ∧ style_opacity e = Some (lit 0).
Proof.
  induction fuel as [|f IH]; intros s Hh Hs Hlen p Hp.
  - destruct (particles s); [by apply elem_of_nil in Hp|simpl in Hlen; lia].
  - simpl. destruct (particles s) as [|q l] eqn:E;
      [by apply elem_of_nil in Hp|].
    assert (Hi : indexOf (particles s) q = Some 0).
    { rewrite E. apply indexOf_head. }
    destruct (returnParticle_in q s 0 Hi) as [Hl _].
    rewrite E in Hl. simpl in Hl.
    apply elem_of_cons in Hp as [->|Hp].
    + apply reset_loop_faded_kept.
      destruct (Hs q) as (o & Ho & Hel & _ & [e He]).
      { apply Hh. rewrite E. by left. }
      rewrite returnParticle_elements, Ho, Hel, lookup_alter_eq, He. simpl.
      eauto.
    + apply IH.
      * by apply returnParticle_held.
      * by apply returnParticle_store.
      * rewrite Hl. simpl in Hlen. lia.
      * by rewrite Hl.
Qed.

(** [reset] on a system in any state it can be in: the system is stopped
    with no frame pending, the active list is empty, the pool has received
    the active particles in the order they were in, every particle is
    marked inactive, and the element of every particle that was active has
    [style.opacity] at 0. *)
Theorem reset_returns_all cfg w h ops :
  ∃ s, run ops (new cfg w h) = Ok s
    ∧ particles (reset s) = []
    ∧ particlePool (reset s) = particlePool s ++ particles s
    ∧ isRunning (reset s) = false
    ∧ frameQueue (reset s) = []
    ∧ (∀ p, p < count cfg →
         ∃ o, objects (reset s) !! p = Some o ∧ active o = false)
    ∧ (∀ p, p ∈ particles s →
         ∃ e, elements (reset s) !! p = Some e
              ∧ style_opacity e = Some (lit 0)).
Proof.
  destruct (new_spec cfg w h) as (_ & _ & Hc & _ & Hwf).
  destruct (run_wf ops (new cfg w h) Hwf) as (s & Hrun & Hwf' & Hc').
  rewrite Hc in Hc'.
  destruct (reset_spec s) as (Hl & Hq & Hcr & Hr & Ha).
  destruct (reset_wf s Hwf') as (Hhr & Hsr & Hschr).
  exists s. do 4 (split; [done|]). split; [|split].
  - unfold sched_ok in Hschr. rewrite Hr in Hschr. by destruct Hschr.
  - intros p Hp. destruct (Hsr p) as (o & Ho & _ & Hact & _).
    { by rewrite Hcr, Hc'. }
    exists o. split; [done|]. rewrite Hact, Hl. done.
  - intros p Hp. unfold reset. cbv zeta.
    destruct (stop_wf s Hwf') as (Hhs & Hss & _).
    destruct (stop_lists s) as (Hsl & _).
    apply reset_loop_fades; [done|done|done|by rewrite Hsl].
Qed.

(** *** Construction *)

(** A new system: nothing is active, the pool holds the [count] particles
    in the order they were made, each at the origin, transparent, inactive
    and bound to an element of its own that is attached to the container
    and carries no opacity yet; the system is stopped, with no frame
    requested. *)
Theorem construction_fills_pool cfg w h :
  particles (new cfg w h) = []
  ∧ particlePool (new cfg w h) = seq 0 (count cfg)
  ∧ isRunning (new cfg w h) = false
  ∧ frameQueue (new cfg w h) = []
  ∧ (∀ p, p < count cfg →
       objects (new cfg w h) !! p
       = Some {| x := lit 0; y := lit 0; vx := lit 0; vy := lit 0;
                 opacity := lit 0; scale := lit 1; element := p;
                 active := false |}
       ∧ elements (new cfg w h) !! p
         = Some {| cssIndex := p;
                   style_transform := Translate3d (lit 0) (lit 0) None;
                   style_opacity := None; parentNode := true |})
  ∧ (∀ p, count cfg ≤ p →
       objects (new cfg w h) !! p = None ∧ elements (new cfg w h) !! p = None).
Proof.
  destruct (new_spec cfg w h) as (Hl & Hq & _ & Hr & (_ & _ & Hsch)).
  do 3 (split; [done|]). split.
  { unfold sched_ok in Hsch. rewrite Hr in Hsch. by destruct Hsch. }
  unfold new, createPool.
  set (s0 := {| particles := []; particlePool := []; config := cfg;
                animationFrame := 0; isRunning := false; lastTime := lit 0;
                objects := ∅; elements := ∅; offsetWidth := w;
                offsetHeight := h; frameQueue := []; nextHandle := 0 |}).
  change (config s0) with cfg.
  destruct (createPool_from_spec (count cfg) 0 s0) as (_ & _ & _ & Hobj & Helt).
  split; intros p Hp; rewrite Hobj, Helt.
  - by rewrite !bool_decide_true by lia.
  - rewrite !bool_decide_false by lia. done.
Qed.

End WithNumber.

(** *** Concrete runs *)

Import Scenario.

Lemma spawn_beyond_capacity_witness :
  ∃ s, run (map spawnOf burst1000) (new heroConfig 800%Q 600%Q) = Ok s
    ∧ length (particles s) = 60
    ∧ run (map spawnOf (take 60 burst1000)) (new heroConfig 800%Q 600%Q) = Ok s.
Proof.
  apply (proj2 (proj2 (spawn_beyond_capacity heroConfig 800%Q 600%Q)));
    reflexivity.
Defined.

Lemma pool_active_partition_witness :
  ∃ s, run busy (new smallConfig 100%Q 100%Q) = Ok s
    ∧ particles s ++ particlePool s ≡ₚ seq 0 2.
Proof.
  destruct (pool_active_partition smallConfig 100%Q 100%Q busy)
    as (s & Hrun & Hperm & _); [reflexivity|].
  exists s. split; [exact Hrun|exact Hperm].
Defined.

Lemma cleanup_is_final_witness :
  ∃ s, run busy (new smallConfig 100%Q 100%Q) = Ok s
    ∧ particles (cleanup s) = []
    ∧ ∀ p, p ∈ particles s ++ particlePool s →
        ∃ o e, objects s !! p = Some o
               ∧ elements (cleanup s) !! element o = Some e
               ∧ parentNode e = false.
Proof.
  destruct (cleanup_is_final smallConfig 100%Q 100%Q busy)
    as (s & Hrun & Hl & _ & _ & _ & _ & Hdetached & _).
  exists s. split; [exact Hrun|]. split; [exact Hl|exact Hdetached].
Defined.

Lemma frame_update_witness :
  run oneFrame (new smallConfig 100%Q 100%Q) = Ok afterOneFrame
  ∧ isRunning afterOneFrame = true
  ∧ ∃ s', step (OpFrame (animationFrame afterOneFrame) 1010%Q) afterOneFrame
          = Ok s'
          ∧ lastTime s' = 1010%Q.
Proof.
  split; [vm_compute; reflexivity|]. split; [vm_compute; reflexivity|].
  destruct (frame_update smallConfig 100%Q 100%Q oneFrame afterOneFrame 1010%Q)
    as (s' & Hstep & Ht & _); [vm_compute; reflexivity..|].
  exists s'. split; [exact Hstep|exact Ht].
Defined.

(** C7 as the specification words it fails when more than 16 ms pass
    between two frames.  The particle is at x = 10 with velocity 1 when the
    frame of 1000 ms has run; the frame of 2000 ms comes a full second
    later and moves it to 10.016: neither by 1 (velocity times the elapsed
    seconds) nor by 1000 (velocity times the elapsed milliseconds). *)
Lemma frame_update_counterexample :
  ∃ s' o o',
    lastTime afterOneFrame = 1000%Q
    ∧ step (OpFrame 2 2000%Q) afterOneFrame = Ok s'
    ∧ objects afterOneFrame !! 1 = Some o
    ∧ objects s' !! 1 = Some o'
    ∧ (x o == 10)%Q ∧ (vx o == 1)%Q
    ∧ (x o' == 10.016)%Q
    ∧ ¬ (x o' == x o + vx o * ((2000 - lastTime afterOneFrame) / 1000))%Q
    ∧ ¬ (x o' == x o + vx o * (2000 - lastTime afterOneFrame))%Q.
Proof.
  eexists _, _, _.
  split; [vm_compute; reflexivity|].
  split; [vm_compute; reflexivity|].
  split; [vm_compute; reflexivity|].
  split; [vm_compute; reflexivity|].
  repeat split; vm_compute; congruence.
Qed.

(** *** Numbers of a spawn and of a frame, over the rationals *)

(** With [Math.random()] between 0 and 1 and an opacity range that is not
    empty, the particle a spawn activates gets an opacity inside the range
    of the configuration and a scale between 0.5 and 1. *)
Theorem spawn_within_range (cfg : @ParticleSystemConfig Q) w h ops s
    px py pvx pvy r1 r2 pool p :
  run ops (new cfg w h) = Ok s →
  particlePool s = pool ++ [p] →
  (rmin (cfg_opacity cfg) <= rmax (cfg_opacity cfg))%Q →
  (0 <= r1 <= 1)%Q → (0 <= r2 <= 1)%Q →
  ∃ o, objects (spawnParticle px py pvx pvy r1 r2 s) !! p = Some o
    ∧ active o = true
    ∧ x o = px ∧ y o = py ∧ vx o = pvx ∧ vy o = pvy
    ∧ (rmin (cfg_opacity cfg) <= opacity o <= rmax (cfg_opacity cfg))%Q
    ∧ (0.5 <= scale o <= 1)%Q.
Proof.
  intros Hrun Hp Hrange [Hr1 Hr1'] [Hr2 Hr2'].
  destruct (new_spec cfg w h) as (_ & _ & Hc & _ & Hwf).
  destruct (run_wf ops (new cfg w h) Hwf) as (s0 & Hrun0 & Hwf' & Hc').
  rewrite Hrun in Hrun0. injection Hrun0 as <-. rewrite Hc in Hc'.
  destruct Hwf' as (Hh & Hs & _).
  destruct (Hs p) as (o & Ho & _).
  { apply Hh. rewrite Hp. apply elem_of_app. right. apply elem_of_app.
    right. by left. }
  destruct (spawnParticle_spec px py pvx pvy r1 r2 s pool p o Hp Ho)
    as (_ & _ & _ & Hobj & _).
  rewrite Hobj, lookup_insert_eq, Hc'. eexists. split; [done|]. simpl.
  do 5 (split; [done|]).
  set (a := rmin (cfg_opacity cfg)) in *. set (b := rmax (cfg_opacity cfg)) in *.
  repeat split; nra.
Qed.

(** What [animate] takes for the elapsed time: nothing on the first frame,
    when no time is recorded yet; never more than 0.016; and the elapsed
    milliseconds over 1000 when at most 16 ms have passed. *)
Theorem frameDelta_capped (currentTime last : Q) :
  ((last == 0 → frameDelta currentTime last == 0)
   ∧ frameDelta currentTime last <= 0.016
   ∧ (¬ last == 0 → currentTime - last <= 16 →
      frameDelta currentTime last == (currentTime - last) / 1000)
   ∧ (¬ last == 0 → 16 <= currentTime - last →
      frameDelta currentTime last == 0.016))%Q.
Proof.
  unfold frameDelta. cbn [truthy nmin div sub lit Q_JsNumber].
  set (base := if negb (Qeq_bool last 0) then last else currentTime).
  set (d := ((currentTime - base) / 1000)%Q).
  assert (Hfirst : (last == 0 → d == 0)%Q).
  { intros H0. subst d base. rewrite (proj2 (Qeq_bool_iff last 0) H0).
    simpl. field. }
  assert (Hlater : (¬ last == 0 → d == (currentTime - last) / 1000)%Q).
  { intros Hn. subst d base. destruct (Qeq_bool last 0) eqn:E; simpl.
    - by apply Qeq_bool_iff in E.
    - reflexivity. }
  destruct (Qle_bool d 0.016) eqn:Hle.
  - apply Qle_bool_iff in Hle. split; [done|]. split; [done|]. split.
    + intros Hn _. by apply Hlater.
    + intros Hn Hge. apply Qle_antisym; [done|].
      rewrite (Hlater Hn). apply Qle_shift_div_l; lra.
  - assert (Hgt : (0.016 < d)%Q).
    { apply Qnot_le_lt. intros Hc. apply Qle_bool_iff in Hc. congruence. }
    split; [|split; [|split]].
    + intros H0. rewrite (Hfirst H0) in Hgt. lra.
    + lra.
    + intros Hn Hsmall. rewrite (Hlater Hn) in Hgt. exfalso.
      apply (Qlt_not_le _ _ Hgt). apply Qle_shift_div_r; lra.
    + reflexivity.
Qed.

Lemma spawn_within_range_witness :
  ∃ o, objects (spawnParticle 10%Q 10%Q 1%Q 0%Q 0.25%Q 0.5%Q
                  (new smallConfig 100%Q 100%Q)) !! 1 = Some o
    ∧ (0.3 <= opacity o <= 0.8)%Q ∧ (0.5 <= scale o <= 1)%Q.
Proof.
  destruct (spawn_within_range smallConfig 100%Q 100%Q []
              (new smallConfig 100%Q 100%Q)
              10%Q 10%Q 1%Q 0%Q 0.25%Q 0.5%Q [0] 1)
    as (o & Ho & _ & _ & _ & _ & _ & Hop & Hsc);
    [reflexivity|reflexivity|vm_compute; discriminate|split; lra|split; lra|].
  exists o. split; [exact Ho|]. split; [exact Hop|exact Hsc].
Defined.

Lemma frameDelta_capped_witness :
  (frameDelta 1010 1000 == (1010 - 1000) / 1000)%Q.
Proof.
  destruct (frameDelta_capped 1010%Q 1000%Q) as (_ & _ & Hsmall & _).
  apply Hsmall; [vm_compute; discriminate|vm_compute; discriminate].
Defined.

Lemma respawn_reinitialised_witness :
  objects (spawnParticle 7%Q 8%Q 0%Q 0%Q 0.5%Q 0.5%Q
             (returnParticle 1 afterOneFrame)) !! 1
  = Some {| x := 7%Q; y := 8%Q; vx := 0%Q; vy := 0%Q;
            opacity := (0.3 + 0.5 * (0.8 - 0.3))%Q;
            scale := (0.5 + 0.5 * 0.5)%Q; element := 1; active := true |}.
Proof.
  destruct (respawn_reinitialised smallConfig 100%Q 100%Q oneFrame
              afterOneFrame 1 7%Q 8%Q 0%Q 0%Q 0.5%Q 0.5%Q)
    as (_ & _ & Hobj & _); [vm_compute; reflexivity|vm_compute; left|].
  exact Hobj.
Defined.

Lemma one_pending_frame_witness :
  step (OpFrame 7 2000%Q) afterOneFrame = Ok afterOneFrame.
Proof.
  destruct (one_pending_frame smallConfig 100%Q 100%Q oneFrame)
    as (s & Hs & _ & _ & Hk).
  assert (E : Ok s = Ok afterOneFrame)
    by (rewrite <- Hs; vm_compute; reflexivity).
  injection E as ->. apply Hk.
  assert (Hq : frameQueue afterOneFrame = [2]) by (vm_compute; reflexivity).
  rewrite Hq. intros Hin%list_elem_of_singleton. discriminate.
Defined.

Lemma reset_returns_all_witness :
  ∃ e, elements (reset afterOneFrame) !! 1 = Some e
       ∧ style_opacity e = Some 0%Q.
Proof.
  destruct (reset_returns_all smallConfig 100%Q 100%Q oneFrame)
    as (s & Hs & _ & _ & _ & _ & _ & Hfade).
  assert (E : Ok s = Ok afterOneFrame)
    by (rewrite <- Hs; vm_compute; reflexivity).
  injection E as ->. apply Hfade.
  assert (Hp : particles afterOneFrame = [1]) by (vm_compute; reflexivity).
  rewrite Hp. by apply list_elem_of_singleton.
Defined.

Lemma construction_fills_pool_witness :
  objects (new smallConfig 100%Q 100%Q) !! 1
  = Some {| x := 0%Q; y := 0%Q; vx := 0%Q; vy := 0%Q; opacity := 0%Q;
            scale := 1%Q; element := 1; active := false |}.
Proof.
  destruct (construction_fills_pool smallConfig 100%Q 100%Q)
    as (_ & _ & _ & _ & Hin & _).
  destruct (Hin 1) as [Ho _]; [vm_compute; lia|]. exact Ho.
Defined.

End PrimitivesFacts.

(** ** The animation controller *)

Module ControllerFacts.
Import Controller.
Section WithNumber.
Context {num : Type} `{JsNumber num}.

Implicit Types (w : @World num) (a : nat) (sectionId : string).

(** *** Maps and sets *)

Lemma map_get_set_eq {V} (m : list (string * V)) k v :
  map_get (map_set m k v) k = Some v.
Proof.
  induction m as [|[k' v'] m IH]; simpl.
  - by rewrite decide_True.
  - destruct (decide (k' = k)) as [->|Hne]; simpl.
    + by rewrite decide_True.
    + by rewrite decide_False.
Qed.

Lemma map_get_set_ne {V} (m : list (string * V)) k k' v :
  k ≠ k' → map_get (map_set m k v) k' = map_get m k'.
Proof.
  intros Hne. induction m as [|[k0 v0] m IH]; simpl.
  - by rewrite decide_False.
  - destruct (decide (k0 = k)) as [->|Hne0]; simpl.
    + by rewrite !decide_False.
    + destruct (decide (k0 = k')); [done|apply IH].
Qed.

Lemma map_get_delete_ne {V} (m : list (string * V)) k k' :
  k ≠ k' → map_get (map_delete m k) k' = map_get m k'.
Proof.
  intros Hne. induction m as [|[k0 v0] m IH]; simpl; [done|].
  destruct (decide (k0 = k)) as [->|Hne0]; simpl.
  - by rewrite decide_False.
  - destruct (decide (k0 = k')); [done|apply IH].
Qed.

Lemma map_get_elem {V} (m : list (string * V)) k v :
  map_get m k = Some v → (k, v) ∈ m.
Proof.
  induction m as [|[k0 v0] m IH]; simpl; [done|].
  destruct (decide (k0 = k)) as [->|Hne].
  - intros [= ->]. by left.
  - intros Hg. right. by apply IH.
Qed.

Lemma map_get_None {V} (m : list (string * V)) k :
  map_get m k = None ↔ k ∉ m.*1.
Proof.
  induction m as [|[k0 v0] m IH]; simpl.
  - split; [intros _; apply not_elem_of_nil|done].
  - destruct (decide (k0 = k)) as [->|Hne].
    + split; [done|]. intros Hn. exfalso. apply Hn. by left.
    + rewrite IH, not_elem_of_cons. split; [by split|by intros []].
Qed.

Lemma map_delete_fst {V} (m : list (string * V)) k :
  (map_delete m k).*1 ⊆ m.*1.
Proof.
  induction m as [|[k0 v0] m IH]; simpl; [done|].
  destruct (decide (k0 = k)); simpl.
  - intros x Hx. by right.
  - intros x [->|Hx]%elem_of_cons; [by left|]. right. by apply IH.
Qed.

Lemma map_delete_unique {V} (m : list (string * V)) k :
  keys_unique m → keys_unique (map_delete m k).
Proof.
  unfold keys_unique. induction m as [|[k0 v0] m IH]; simpl; [done|].
  intros [Hn Hnd]%NoDup_cons. destruct (decide (k0 = k)); simpl; [done|].
  apply NoDup_cons. split; [|by apply IH].
  intros Hin. apply Hn. by apply (map_delete_fst m k).
Qed.

Lemma map_get_delete_eq {V} (m : list (string * V)) k :
  keys_unique m → map_get (map_delete m k) k = None.
Proof.
  unfold keys_unique. induction m as [|[k0 v0] m IH]; simpl; [done|].
  intros [Hn Hnd]%NoDup_cons. destruct (decide (k0 = k)) as [->|Hne]; simpl.
  - by apply map_get_None.
  - rewrite decide_False by done. by apply IH.
Qed.

Lemma map_set_fst {V} (m : list (string * V)) k v x :
  x ∈ (map_set m k v).*1 ↔ x = k ∨ x ∈ m.*1.
Proof.
  induction m as [|[k0 v0] m IH]; simpl.
  - rewrite list_elem_of_singleton, elem_of_nil. tauto.
  - destruct (decide (k0 = k)) as [->|Hne]; simpl.
    + rewrite !elem_of_cons. tauto.
    + rewrite !elem_of_cons, IH. tauto.
Qed.

Lemma map_set_unique {V} (m : list (string * V)) k v :
  keys_unique m → keys_unique (map_set m k v).
Proof.
  unfold keys_unique. induction m as [|[k0 v0] m IH]; simpl.
  - intros _. apply NoDup_singleton.
  - intros [Hn Hnd]%NoDup_cons. destruct (decide (k0 = k)) as [->|Hne]; simpl.
    + by apply NoDup_cons.
    + apply NoDup_cons. split; [|by apply IH].
      rewrite map_set_fst. intros [->|Hin]; done.
Qed.

(** *** Calls on animations *)

Lemma set_calls_id w : set_calls (calls w) w = w.
Proof. by destruct w. Qed.

Lemma set_calls_set_calls l l' w : set_calls l (set_calls l' w) = set_calls l w.
Proof. done. Qed.

Lemma pause_fold (l : list (string * nat)) :
  ∀ w, foldl (λ acc kv, call (CallPause kv.2) acc) w l
       = set_calls (calls w ++ ((λ kv, CallPause kv.2) <$> l)) w.
Proof.
  induction l as [|kv l IH]; intros w; simpl.
  - by rewrite app_nil_r, set_calls_id.
  - rewrite IH. unfold call. simpl. rewrite set_calls_set_calls.
    by rewrite <- app_assoc.
Qed.

Lemma cleanup_fold (l : list (string * nat)) :
  ∀ w, foldl (λ acc kv, call (CallCleanup kv.2) acc) w l
       = set_calls (calls w ++ ((λ kv, CallCleanup kv.2) <$> l)) w.
Proof.
  induction l as [|kv l IH]; intros w; simpl.
  - by rewrite app_nil_r, set_calls_id.
  - rewrite IH. unfold call. simpl. rewrite set_calls_set_calls.
    by rewrite <- app_assoc.
Qed.

(** [pauseAll] calls [pause] on every registered animation, in the order
    of registration, and does nothing else. *)
Lemma pauseAll_eq w :
  pauseAll w
  = set_calls (calls w ++ pauseCalls w) w.
Proof. apply pause_fold. Qed.

Lemma cleanupAll_eq w :
  cleanupAll w
  = set_calls (calls w ++ ((λ kv, CallCleanup kv.2) <$> animations w)) w.
Proof. apply cleanup_fold. Qed.

Lemma start_fold (l : list string) :
  ∀ w, foldl (λ acc sectionId,
                match map_get (animations acc) sectionId with
                | Some animation => call (CallStart animation) acc
                | None => acc
                end) w l
       = set_calls
           (calls w
            ++ omap (λ sectionId, CallStart <$> map_get (animations w) sectionId) l)
           w.
Proof.
  induction l as [|k l IH]; intros w; simpl.
  - by rewrite app_nil_r, set_calls_id.
  - destruct (map_get (animations w) k) as [a|]; simpl; rewrite IH; [|done].
    unfold call. simpl. rewrite set_calls_set_calls. by rewrite <- app_assoc.
Qed.

(** [startVisible] calls [start] on the animation of every visible section
    that is registered, in the order the sections became visible. *)
Lemma startVisible_eq w :
  startVisible w
  = set_calls
      (calls w
       ++ omap (λ sectionId, CallStart <$> map_get (animations w) sectionId)
               (visibleOf (state w) w))
      w.
Proof. apply start_fold. Qed.

(** *** Replaying the calls *)

Lemma runningAfter_app log l a :
  runningAfter (log ++ l) a = foldl (applyCall a) (runningAfter log a) l.
Proof. unfold runningAfter. by rewrite foldl_app. Qed.

Lemma applyCall_fold_true a l :
  ∀ b, foldl (applyCall a) b l = true → b = true ∨ CallStart a ∈ l.
Proof.
  induction l as [|c l IH]; intros b; simpl; [by left|].
  intros Hf. destruct (IH _ Hf) as [Hb|Hin]; [|right; by right].
  destruct c as [k|k|k]; simpl in Hb; destruct (decide (k = a)) as [->|Hne];
    try done; try (by left).
  right. by left.
Qed.

Lemma applyCall_fold_false a l :
  ∀ b, CallStart a ∉ l →
    (b = false ∨ CallPause a ∈ l ∨ CallCleanup a ∈ l) →
    foldl (applyCall a) b l = false.
Proof.
  induction l as [|c l IH]; intros b Hns Hb; simpl.
  - destruct Hb as [Hb|[Hb|Hb]]; [done|by apply elem_of_nil in Hb..].
  - apply not_elem_of_cons in Hns as [Hne Hns]. apply IH; [done|].
    destruct Hb as [->|[Hb|Hb]].
    + left. destruct c as [k|k|k]; simpl; destruct (decide (k = a)); congruence.
    + apply elem_of_cons in Hb as [<-|Hb]; [|tauto].
      left. simpl. by rewrite decide_True.
    + apply elem_of_cons in Hb as [<-|Hb]; [|tauto].
      left. simpl. by rewrite decide_True.
Qed.

(** An animation that was paused or cleaned up and not started since does
    not run. *)
Lemma runningAfter_stopped log l a :
  (CallPause a ∈ l ∨ CallCleanup a ∈ l) → CallStart a ∉ l →
  runningAfter (log ++ l) a = false.
Proof.
  intros Hin Hns. rewrite runningAfter_app.
  apply applyCall_fold_false; [done|by right].
Qed.

Lemma runningAfter_started log a :
  runningAfter (log ++ [CallStart a]) a = true.
Proof. rewrite runningAfter_app. simpl. by rewrite decide_True. Qed.

(** *** Extensions *)

Lemma extends_refl b w : extends b w w.
Proof.
  split; [done|]. exists []. rewrite app_nil_r. split; [done|].
  intros a Ha. by apply elem_of_nil in Ha.
Qed.

Lemma extends_trans b w1 w2 w3 :
  extends b w1 w2 → extends b w2 w3 → extends b w1 w3.
Proof.
  intros (Ha1 & l1 & Hc1 & Hs1) (Ha2 & l2 & Hc2 & Hs2).
  split; [congruence|]. exists (l1 ++ l2).
  split; [by rewrite Hc2, Hc1, app_assoc|].
  intros a [Hin|Hin]%elem_of_app; [by apply Hs1|].
  rewrite <- Ha1. by apply Hs2.
Qed.

(** A state with the same registrations and calls extends anything the
    other extends. *)
Lemma extends_same b w w' :
  animations w' = animations w → calls w' = calls w → extends b w w'.
Proof.
  intros Ha Hc. split; [done|]. exists []. rewrite app_nil_r. split; [done|].
  intros a Hin. by apply elem_of_nil in Hin.
Qed.

Lemma extends_weaken w w' : extends false w w' → ∀ b, extends b w w'.
Proof.
  intros (Ha & l & Hc & Hs) b. split; [done|]. exists l. split; [done|].
  intros a Hin. by destruct (Hs a Hin).
Qed.

Lemma running_registered_extends b w w' :
  extends b w w' → running_registered w → running_registered w'.
Proof.
  intros (Ha & l & Hc & Hs) Hrr a. rewrite Hc, Ha, runningAfter_app.
  intros [Hb|Hin]%applyCall_fold_true; [by apply Hrr|].
  by destruct (Hs a Hin).
Qed.

(** *** handleIntersection *)

Lemma newCalls_app w w' l : calls w' = calls w ++ l → newCalls w w' = l.
Proof. intros Hc. unfold newCalls. by rewrite Hc, drop_app_length. Qed.

Lemma newWarnings_app w w' l :
  console w' = console w ++ l → newWarnings w w' = l.
Proof. intros Hc. unfold newWarnings. by rewrite Hc, drop_app_length. Qed.

Lemma gate_comm w :
  negb (reducedMotionEnabled (state w)) && isActive (state w) = gate w.
Proof. unfold gate. apply andb_comm. Qed.

(** What one entry changes: the call it makes, the set of visible
    sections and [currentSection]; nothing else. *)
Lemma handleEntry_facts w entry :
  let w' := handleEntry w entry in
  animations w' = animations w
  ∧ calls w' = calls w ++ entryCalls w entry
  ∧ isActive (state w') = isActive (state w)
  ∧ reducedMotionEnabled (state w') = reducedMotionEnabled (state w)
  ∧ visibleSections (state w') = visibleSections (state w)
  ∧ performanceMetrics (state w') = performanceMetrics (state w)
  ∧ console w' = console w
  ∧ metricsStore w' = metricsStore w
  ∧ monitorQueue w' = monitorQueue w
  ∧ observers w' = observers w
  ∧ changeListeners w' = changeListeners w
  ∧ (is_Some (setStore w !! visibleSections (state w)) →
     is_Some (setStore w' !! visibleSections (state w))).
Proof.
  destruct entry as [sectionId vis]. unfold handleEntry, entryCalls. simpl.
  destruct (map_get (animations w) sectionId) as [a|].
  - destruct vis; simpl.
    + rewrite gate_comm. destruct (gate w); simpl.
      * do 11 (split; [done|]). intros Hs. rewrite lookup_alter_eq.
        by apply fmap_is_Some.
      * rewrite app_nil_r. do 11 (split; [done|]). intros Hs.
        rewrite lookup_alter_eq. by apply fmap_is_Some.
    + do 11 (split; [done|]). intros Hs. rewrite lookup_alter_eq.
      by apply fmap_is_Some.
  - rewrite app_nil_r. done.
Qed.

Lemma entryCalls_ext w w' entry :
  animations w' = animations w →
  isActive (state w') = isActive (state w) →
  reducedMotionEnabled (state w') = reducedMotionEnabled (state w) →
  entryCalls w' entry = entryCalls w entry.
Proof. intros Ha Hi Hr. unfold entryCalls, gate. by rewrite Ha, Hi, Hr. Qed.

(** [handleIntersection] makes, entry by entry, the call the state at the
    start of the batch decides. *)
Lemma handleIntersection_facts entries :
  ∀ w,
    let w' := handleIntersection entries w in
    animations w' = animations w
    ∧ calls w' = calls w ++ (entries ≫= entryCalls w)
    ∧ isActive (state w') = isActive (state w)
    ∧ reducedMotionEnabled (state w') = reducedMotionEnabled (state w)
    ∧ visibleSections (state w') = visibleSections (state w)
    ∧ performanceMetrics (state w') = performanceMetrics (state w)
    ∧ console w' = console w
    ∧ metricsStore w' = metricsStore w
    ∧ monitorQueue w' = monitorQueue w
    ∧ observers w' = observers w
    ∧ changeListeners w' = changeListeners w
    ∧ (is_Some (setStore w !! visibleSections (state w)) →
       is_Some (setStore w' !! visibleSections (state w))).
Proof.
  unfold handleIntersection.
  induction entries as [|entry entries IH]; intros w; simpl.
  - rewrite app_nil_r. done.
  - destruct (handleEntry_facts w entry)
      as (Ha & Hc & Hi & Hr & Hv & Hp & Hco & Hm & Hq & Ho & Hl & Hs).
    destruct (IH (handleEntry w entry))
      as (Ha' & Hc' & Hi' & Hr' & Hv' & Hp' & Hco' & Hm' & Hq' & Ho' & Hl' & Hs').
    rewrite Ha', Hc', Hi', Hr', Hv', Hp', Hco', Hm', Hq', Ho', Hl'.
    rewrite Ha, Hc, Hi, Hr, Hv, Hp, Hco, Hm, Hq, Ho, Hl.
    do 1 (split; [done|]). split.
    { rewrite <- app_assoc. f_equal. f_equal.
      apply list_bind_ext; [|done]. intros e.
      by apply entryCalls_ext. }
    do 9 (split; [done|]). intros Hsome. rewrite Hv in Hs'. auto.
Qed.

Lemma handleIntersection_extends entries w :
  extends (gate w) w (handleIntersection entries w).
Proof.
  destruct (handleIntersection_facts entries w) as (Ha & Hc & _).
  split; [done|]. eexists. split; [exact Hc|].
  intros a (entry & Hin & _)%list_elem_of_bind.
  unfold entryCalls in Hin.
  destruct (map_get (animations w) entry.1) as [a'|] eqn:Hg;
    [|by apply elem_of_nil in Hin].
  destruct entry.2.
  - destruct (gate w); [|by apply elem_of_nil in Hin].
    apply list_elem_of_singleton in Hin as [= ->]. eauto.
  - by apply list_elem_of_singleton in Hin.
Qed.

(** *** setActive and the reduced-motion listener *)

Lemma setActive_false_eq w :
  setActive false w
  = set_calls (calls w ++ pauseCalls w)
      (set_state (with_isActive false (state w)) w).
Proof. unfold setActive. simpl. by rewrite pauseAll_eq. Qed.

Lemma setActive_true_eq w :
  setActive true w
  = if reducedMotionEnabled (state w)
    then set_state (with_isActive true (state w)) w
    else set_calls (calls w ++ startCalls w)
           (set_state (with_isActive true (state w)) w).
Proof.
  unfold setActive. simpl. destruct (reducedMotionEnabled (state w)); simpl;
    [done|]. by rewrite startVisible_eq.
Qed.

Lemma handleChange_true_eq w :
  handleChange true w
  = set_calls (calls w ++ pauseCalls w)
      (set_state (with_reducedMotionEnabled true (state w)) w).
Proof. unfold handleChange. simpl. by rewrite pauseAll_eq. Qed.

Lemma handleChange_false_eq w :
  handleChange false w
  = if isActive (state w)
    then set_calls (calls w ++ startCalls w)
           (set_state (with_reducedMotionEnabled false (state w)) w)
    else set_state (with_reducedMotionEnabled false (state w)) w.
Proof.
  unfold handleChange. simpl. destruct (isActive (state w)); simpl; [|done].
  by rewrite startVisible_eq.
Qed.

Lemma elem_of_pauseCalls w c :
  c ∈ pauseCalls w ↔ ∃ sectionId a, (sectionId, a) ∈ animations w ∧ c = CallPause a.
Proof.
  unfold pauseCalls. rewrite list_elem_of_fmap. split.
  - intros ([k a] & -> & Hin). eauto.
  - intros (k & a & Hin & ->). by exists (k, a).
Qed.

Lemma elem_of_startCalls w c :
  c ∈ startCalls w
  ↔ ∃ sectionId a, sectionId ∈ visibleOf (state w) w
                  ∧ map_get (animations w) sectionId = Some a
                  ∧ c = CallStart a.
Proof.
  unfold startCalls. rewrite list_elem_of_omap. split.
  - intros (k & Hin & Hf). destruct (map_get (animations w) k) as [a|] eqn:E;
      [|done]. simpl in Hf. injection Hf as <-. eauto.
  - intros (k & a & Hin & Hg & ->). exists k. by rewrite Hg.
Qed.

Lemma extends_pause b w w' :
  animations w' = animations w → calls w' = calls w ++ pauseCalls w →
  extends b w w'.
Proof.
  intros Ha Hc. split; [done|]. eexists. split; [exact Hc|].
  intros a (k & a' & _ & [=])%elem_of_pauseCalls.
Qed.

Lemma extends_start w w' :
  animations w' = animations w → calls w' = calls w ++ startCalls w →
  extends true w w'.
Proof.
  intros Ha Hc. split; [done|]. eexists. split; [exact Hc|].
  intros a (k & a' & _ & Hg & [= ->])%elem_of_startCalls. eauto.
Qed.

Lemma setActive_extends active w :
  extends (gate (setActive active w)) w (setActive active w).
Proof.
  destruct active.
  - rewrite setActive_true_eq. unfold gate.
    destruct (reducedMotionEnabled (state w)) eqn:Hr; simpl.
    + by apply extends_same.
    + rewrite Hr. simpl. by apply extends_start.
  - rewrite setActive_false_eq. by apply extends_pause.
Qed.

Lemma handleChange_extends matches w :
  extends (gate (handleChange matches w)) w (handleChange matches w).
Proof.
  destruct matches.
  - rewrite handleChange_true_eq. by apply extends_pause.
  - rewrite handleChange_false_eq. unfold gate.
    destruct (isActive (state w)) eqn:Hi; simpl.
    + rewrite Hi. simpl. by apply extends_start.
    + by apply extends_same.
Qed.

Lemma handleChange_flags matches w :
  isActive (state (handleChange matches w)) = isActive (state w)
  ∧ reducedMotionEnabled (state (handleChange matches w)) = matches
  ∧ changeListeners (handleChange matches w) = changeListeners w.
Proof.
  destruct matches.
  - by rewrite handleChange_true_eq.
  - rewrite handleChange_false_eq.
    destruct (isActive (state w)) eqn:E; simpl; by rewrite ?E.
Qed.

Lemma iter_handleChange_extends matches n :
  ∀ w, extends (isActive (state w) && negb matches) w
               (Nat.iter n (handleChange matches) w)
       ∧ isActive (state (Nat.iter n (handleChange matches) w))
         = isActive (state w).
Proof.
  induction n as [|n IH]; intros w; simpl.
  - split; [apply extends_refl|done].
  - destruct (IH w) as [He Hi].
    destruct (handleChange_flags matches (Nat.iter n (handleChange matches) w))
      as (Hi' & Hr' & _).
    split; [|congruence].
    eapply extends_trans; [exact He|].
    pose proof (handleChange_extends matches
                  (Nat.iter n (handleChange matches) w)) as He'.
    unfold gate in He'. by rewrite Hi', Hr', Hi in He'.
Qed.

Lemma mediaChange_extends matches w :
  extends (gate (mediaChange matches w)) w (mediaChange matches w).
Proof.
  unfold mediaChange. destruct (changeListeners w) as [|n] eqn:Hn.
  - apply extends_refl.
  - destruct (iter_handleChange_extends matches (S n) w) as [He Hi].
    unfold gate. rewrite Hi. simpl.
    destruct (handleChange_flags matches (Nat.iter n (handleChange matches) w))
      as (_ & -> & _). done.
Qed.

(** *** The performance monitor *)

Lemma handlePerformanceDegradation_eq reason w :
  handlePerformanceDegradation reason w
  = if ltb (currentFrameRate w) (lit 15)
    then set_console (console w ++ [WarnDegradation reason; WarnDisabled])
           (set_calls (calls w ++ pauseCalls w)
              (set_state (with_isActive false (state w)) w))
    else set_console (console w ++ [WarnDegradation reason]) w.
Proof.
  unfold handlePerformanceDegradation.
  change (currentFrameRate (warn (WarnDegradation reason) w))
    with (currentFrameRate w).
  destruct (ltb (currentFrameRate w) (lit 15)); [|done].
  rewrite setActive_false_eq. unfold warn. simpl.
  by rewrite <- app_assoc.
Qed.

Lemma handlePerformanceDegradation_facts reason w :
  let severe := ltb (currentFrameRate w) (lit 15) in
  let w' := handlePerformanceDegradation reason w in
  animations w' = animations w
  ∧ metricsStore w' = metricsStore w
  ∧ setStore w' = setStore w
  ∧ state w' = (if severe then with_isActive false (state w) else state w)
  ∧ console w'
    = console w ++ WarnDegradation reason
                   :: (if severe then [WarnDisabled] else [])
  ∧ calls w' = calls w ++ (if severe then pauseCalls w else [])
  ∧ monitorQueue w' = monitorQueue w
  ∧ nextHandle w' = nextHandle w
  ∧ changeListeners w' = changeListeners w
  ∧ observers w' = observers w
  ∧ hasIntersectionObserver w' = hasIntersectionObserver w.
Proof.
  cbv zeta. rewrite handlePerformanceDegradation_eq.
  destruct (ltb (currentFrameRate w) (lit 15)); simpl.
  - done.
  - rewrite app_nil_r. done.
Qed.

Lemma currentFrameRate_ext w w' :
  metricsStore w' = metricsStore w →
  performanceMetrics (state w') = performanceMetrics (state w) →
  currentFrameRate w' = currentFrameRate w
  ∧ currentMemoryUsage w' = currentMemoryUsage w.
Proof.
  intros Hm Hp. unfold currentFrameRate, currentMemoryUsage, metricsOf.
  by rewrite Hm, Hp.
Qed.

(** One sample of the monitor, in full: the rate is 1000 over the time
    since the last sample; a rate under 30 is warned about, and so is a
    heap over 50 MB; each of the two warnings is followed, when the rate is
    under 15, by [setActive(false)] and a second warning. *)
Lemma monitor_facts t memory w m :
  metricsOf (state w) w = Some m →
  let rate := div (lit 1000) (sub t (lastFrameTime m)) in
  let usage := match memory with
               | Some used => div (div used (lit 1024)) (lit 1024)
               | None => memoryUsage m
               end in
  let low := ltb rate frameRateThreshold in
  let high := ltb memoryThreshold usage in
  let severe := ltb rate (lit 15) in
  let w' := monitor t memory w in
  animations w' = animations w
  ∧ reducedMotionEnabled (state w') = reducedMotionEnabled (state w)
  ∧ visibleSections (state w') = visibleSections (state w)
  ∧ performanceMetrics (state w') = performanceMetrics (state w)
  ∧ setStore w' = setStore w
  ∧ changeListeners w' = changeListeners w
  ∧ observers w' = observers w
  ∧ console w'
    = console w
      ++ (if low then WarnDegradation low_framerate
                      :: (if severe then [WarnDisabled] else [])
          else [])
      ++ (if high then WarnDegradation high_memory
                       :: (if severe then [WarnDisabled] else [])
          else [])
  ∧ calls w'
    = calls w ++ (if low && severe then pauseCalls w else [])
              ++ (if high && severe then pauseCalls w else [])
  ∧ isActive (state w')
    = (if severe && (low || high) then false else isActive (state w))
  ∧ metricsOf (state w') w'
    = Some {| frameRate := rate; memoryUsage := usage;
              animationCount := animationCount m; lastFrameTime := t |}
  ∧ monitorQueue w' = monitorQueue w ++ [S (nextHandle w)]
  ∧ performanceMonitorId w' = Some (S (nextHandle w)).
Proof.
  intros Hm rate usage low high severe. unfold monitor.
  unfold metricsOf in *. rewrite Hm.
  fold rate.
  set (w1 := set_metricsStore _ w).
  set (w2 := match memory with Some _ => _ | None => _ end).
  assert (Hw2 : metricsStore w2 !! performanceMetrics (state w)
                = Some {| frameRate := rate; memoryUsage := usage;
                          animationCount := animationCount m;
                          lastFrameTime := t |}
                ∧ animations w2 = animations w ∧ state w2 = state w
                ∧ setStore w2 = setStore w ∧ calls w2 = calls w
                ∧ console w2 = console w ∧ monitorQueue w2 = monitorQueue w
                ∧ nextHandle w2 = nextHandle w
                ∧ changeListeners w2 = changeListeners w
                ∧ observers w2 = observers w).
  { subst w2 w1 usage. destruct memory as [used|]; simpl.
    - rewrite !lookup_alter_eq, Hm. done.
    - rewrite lookup_alter_eq, Hm. done. }
  destruct Hw2 as (Hm2 & Ha2 & Hs2 & Hv2 & Hc2 & Hco2 & Hq2 & Hn2 & Hl2 & Ho2).
  clearbody w2. clear w1.
  assert (Hr2 : currentFrameRate w2 = rate).
  { unfold currentFrameRate, metricsOf. by rewrite Hs2, Hm2. }
  assert (Hu2 : currentMemoryUsage w2 = usage).
  { unfold currentMemoryUsage, metricsOf. by rewrite Hs2, Hm2. }
  rewrite Hr2. fold low.
  set (w3 := if low then _ else w2).
  assert (Hw3 : animations w3 = animations w
                ∧ metricsStore w3 = metricsStore w2
                ∧ setStore w3 = setStore w
                ∧ state w3 = (if low && severe
                              then with_isActive false (state w) else state w)
                ∧ console w3
                  = console w
                    ++ (if low then WarnDegradation low_framerate
                                    :: (if severe then [WarnDisabled] else [])
                        else [])
                ∧ calls w3 = calls w ++ (if low && severe then pauseCalls w else [])
                ∧ monitorQueue w3 = monitorQueue w
                ∧ nextHandle w3 = nextHandle w
                ∧ changeListeners w3 = changeListeners w
                ∧ observers w3 = observers w).
  { subst w3. destruct low; simpl.
    - destruct (handlePerformanceDegradation_facts low_framerate w2)
        as (-> & -> & -> & -> & -> & -> & -> & -> & -> & -> & _).
      rewrite Hr2. fold severe. unfold pauseCalls.
      rewrite Ha2, Hv2, Hs2, Hco2, Hc2, Hq2, Hn2, Hl2, Ho2. done.
    - rewrite !app_nil_r. done. }
  destruct Hw3 as (Ha3 & Hm3 & Hv3 & Hs3 & Hco3 & Hc3 & Hq3 & Hn3 & Hl3 & Ho3).
  clearbody w3.
  assert (Hp3 : performanceMetrics (state w3) = performanceMetrics (state w)).
  { rewrite Hs3. by destruct (low && severe). }
  destruct (currentFrameRate_ext w2 w3) as [Hr3 Hu3]; [done|by rewrite Hs2|].
  rewrite Hu3, Hu2. fold high.
  set (w4 := if high then _ else w3).
  assert (Hw4 : animations w4 = animations w
                ∧ metricsStore w4 = metricsStore w2
                ∧ setStore w4 = setStore w
                ∧ state w4 = (if severe && (low || high)
                              then with_isActive false (state w) else state w)
                ∧ console w4
                  = console w
                    ++ (if low then WarnDegradation low_framerate
                                    :: (if severe then [WarnDisabled] else [])
                        else [])
                    ++ (if high then WarnDegradation high_memory
                                     :: (if severe then [WarnDisabled] else [])
                        else [])
                ∧ calls w4
                  = calls w ++ (if low && severe then pauseCalls w else [])
                            ++ (if high && severe then pauseCalls w else [])
                ∧ monitorQueue w4 = monitorQueue w
                ∧ nextHandle w4 = nextHandle w
                ∧ changeListeners w4 = changeListeners w
                ∧ observers w4 = observers w).
  { subst w4. destruct high; simpl.
    - destruct (handlePerformanceDegradation_facts high_memory w3)
        as (-> & -> & -> & -> & -> & -> & -> & -> & -> & -> & _).
      rewrite Hr3, Hr2. fold severe. unfold pauseCalls.
      rewrite Ha3, Hm3, Hv3, Hs3, Hco3, Hc3, Hq3, Hn3, Hl3, Ho3.
      rewrite <- !app_assoc.
      destruct low, severe; simpl; done.
    - rewrite !app_nil_r, orb_false_r, (andb_comm severe low).
      rewrite Ha3, Hm3, Hv3, Hs3, Hco3, Hc3, Hq3, Hn3, Hl3, Ho3. done. }
  destruct Hw4 as (Ha4 & Hm4 & Hv4 & Hs4 & Hco4 & Hc4 & Hq4 & Hn4 & Hl4 & Ho4).
  clearbody w4.
  unfold requestMonitorFrame. simpl.
  rewrite Ha4, Hm4, Hv4, Hs4, Hco4, Hc4, Hq4, Hn4, Hl4, Ho4.
  destruct (severe && (low || high)); simpl; rewrite Hm2; done.
Qed.

Lemma handlePerformanceDegradation_extends reason w :
  extends false w (handlePerformanceDegradation reason w).
Proof.
  destruct (handlePerformanceDegradation_facts reason w)
    as (Ha & _ & _ & _ & _ & Hc & _).
  destruct (ltb (currentFrameRate w) (lit 15)).
  - by apply extends_pause.
  - apply extends_same; [done|]. by rewrite Hc, app_nil_r.
Qed.

Lemma monitor_extends t memory w : extends false w (monitor t memory w).
Proof.
  unfold monitor.
  set (w1 := set_metricsStore _ w).
  set (w2 := match memory with Some _ => _ | None => _ end).
  assert (H2 : extends false w w2).
  { apply extends_same; subst w2 w1; by destruct memory. }
  clearbody w2. clear w1.
  set (w3 := if ltb (currentFrameRate w2) frameRateThreshold then _ else w2).
  assert (H3 : extends false w2 w3).
  { subst w3. destruct (ltb _ _);
      [apply handlePerformanceDegradation_extends|apply extends_refl]. }
  clearbody w3.
  set (w4 := if ltb memoryThreshold (currentMemoryUsage w3) then _ else w3).
  assert (H4 : extends false w3 w4).
  { subst w4. destruct (ltb _ _);
      [apply handlePerformanceDegradation_extends|apply extends_refl]. }
  clearbody w4.
  eapply extends_trans; [exact H2|].
  eapply extends_trans; [exact H3|].
  eapply extends_trans; [exact H4|].
  by apply extends_same.
Qed.

(** *** init *)

Lemma init_facts w :
  animations (init w) = animations w
  ∧ calls (init w) = calls w
  ∧ state (init w) = state w
  ∧ setStore (init w) = setStore w
  ∧ metricsStore (init w) = metricsStore w
  ∧ document (init w) = document w
  ∧ hasIntersectionObserver (init w) = hasIntersectionObserver w
  ∧ console (init w)
    = console w ++ (if hasWindow w && negb (hasIntersectionObserver w)
                    then [WarnNoObserver] else [])
  ∧ (hasIntersectionObserver w = false → observers (init w) = observers w).
Proof.
  unfold init, setupReducedMotionListener, startPerformanceMonitoring,
    requestMonitorFrame, setupIntersectionObserver.
  destruct (hasWindow w) eqn:Hw; simpl; [|rewrite app_nil_r; done].
  destruct (hasIntersectionObserver w) eqn:Hio; simpl; rewrite ?Hw; simpl.
  - rewrite app_nil_r. done.
  - done.
Qed.

(** *** registerSection, unregisterSection, destroy *)

Lemma registerSection_facts sectionId a w :
  animations (registerSection sectionId a w)
  = map_set (animations w) sectionId a
  ∧ calls (registerSection sectionId a w) = calls w
  ∧ console (registerSection sectionId a w) = console w
  ∧ state (registerSection sectionId a w) = state w
  ∧ setStore (registerSection sectionId a w) = setStore w
  ∧ observers (registerSection sectionId a w) = observers w
  ∧ hasIntersectionObserver (registerSection sectionId a w)
    = hasIntersectionObserver w.
Proof. done. Qed.

Lemma unregisterSection_registered sectionId a w :
  map_get (animations w) sectionId = Some a →
  animations (unregisterSection sectionId w)
  = map_delete (animations w) sectionId
  ∧ calls (unregisterSection sectionId w) = calls w ++ [CallCleanup a]
  ∧ console (unregisterSection sectionId w) = console w
  ∧ state (unregisterSection sectionId w) = state w
  ∧ setStore (unregisterSection sectionId w)
    = alter (λ s, set_delete s sectionId) (visibleSections (state w))
            (setStore w)
  ∧ observers (unregisterSection sectionId w) = observers w
  ∧ hasIntersectionObserver (unregisterSection sectionId w)
    = hasIntersectionObserver w
  ∧ document (unregisterSection sectionId w) = document w.
Proof. intros Hg. unfold unregisterSection. rewrite Hg. done. Qed.

Lemma unregisterSection_unregistered sectionId w :
  map_get (animations w) sectionId = None →
  unregisterSection sectionId w = w.
Proof. intros Hg. unfold unregisterSection. by rewrite Hg. Qed.

Lemma destroy_facts w :
  animations (destroy w) = []
  ∧ calls (destroy w) = calls w ++ ((λ kv, CallCleanup kv.2) <$> animations w)
  ∧ console (destroy w) = console w
  ∧ isActive (state (destroy w)) = isActive (state w)
  ∧ reducedMotionEnabled (state (destroy w)) = reducedMotionEnabled (state w)
  ∧ visibleOf (state (destroy w)) (destroy w) = []
  ∧ hasIntersectionObserver (destroy w) = hasIntersectionObserver w
  ∧ (observers w = ∅ → observers (destroy w) = ∅)
  ∧ intersectionObserver (destroy w) = None
  ∧ metricsStore (destroy w) = metricsStore w
  ∧ state (destroy w) = state w.
Proof.
  unfold destroy.
  set (w1 := match intersectionObserver w with Some _ => _ | None => w end).
  assert (H1 : animations w1 = animations w ∧ calls w1 = calls w
               ∧ console w1 = console w ∧ state w1 = state w
               ∧ setStore w1 = setStore w
               ∧ hasIntersectionObserver w1 = hasIntersectionObserver w
               ∧ (observers w = ∅ → observers w1 = ∅)
               ∧ intersectionObserver w1 = None
               ∧ metricsStore w1 = metricsStore w).
  { subst w1. destruct (intersectionObserver w) eqn:E; simpl; [|done].
    do 6 (split; [done|]). split; [|done]. intros ->. apply delete_empty. }
  destruct H1 as (Ha1 & Hc1 & Hco1 & Hs1 & Hv1 & Hio1 & Ho1 & Hob1 & Hm1).
  clearbody w1.
  set (w2 := match performanceMonitorId w1 with Some (S _) => _ | _ => w1 end).
  assert (H2 : animations w2 = animations w ∧ calls w2 = calls w
               ∧ console w2 = console w ∧ state w2 = state w
               ∧ setStore w2 = setStore w
               ∧ hasIntersectionObserver w2 = hasIntersectionObserver w
               ∧ (observers w = ∅ → observers w2 = ∅)
               ∧ intersectionObserver w2 = None
               ∧ metricsStore w2 = metricsStore w).
  { subst w2. destruct (performanceMonitorId w1) as [[|h]|]; simpl; done. }
  destruct H2 as (Ha2 & Hc2 & Hco2 & Hs2 & Hv2 & Hio2 & Ho2 & Hob2 & Hm2).
  clearbody w2.
  rewrite cleanupAll_eq. simpl. rewrite Ha2, Hc2, Hco2, Hs2, Hio2.
  do 5 (split; [done|]). split; [|done].
  unfold visibleOf. simpl. rewrite Hv2.
  destruct (setStore w !! visibleSections (state w)) eqn:E.
  - by rewrite lookup_alter_eq, E.
  - by rewrite lookup_alter_eq, E.
Qed.

(** *** Only registered animations run *)

Lemma registerSection_inv sectionId a w :
  map_get (animations w) sectionId = None →
  running_registered w → running_registered (registerSection sectionId a w).
Proof.
  intros Hfresh Hrr b Hb.
  destruct (registerSection_facts sectionId a w) as (Ha & Hc & _).
  rewrite Hc in Hb. rewrite Ha. destruct (Hrr b Hb) as (k & Hk).
  exists k. rewrite map_get_set_ne; [done|]. intros ->. congruence.
Qed.

Lemma unregisterSection_inv sectionId w :
  running_registered w → running_registered (unregisterSection sectionId w).
Proof.
  intros Hrr. destruct (map_get (animations w) sectionId) as [a|] eqn:Hg.
  - destruct (unregisterSection_registered sectionId a w Hg) as (Ha & Hc & _).
    intros b. rewrite Hc, Ha, runningAfter_app. simpl.
    destruct (decide (a = b)) as [->|Hne]; [done|].
    intros Hb. destruct (Hrr b Hb) as (k & Hk). exists k.
    rewrite map_get_delete_ne; [done|]. intros ->. congruence.
  - by rewrite unregisterSection_unregistered.
Qed.

Lemma destroy_inv w : running_registered w → running_registered (destroy w).
Proof.
  intros Hrr b. destruct (destroy_facts w) as (_ & Hc & _).
  rewrite Hc. intros Hb. exfalso.
  assert (Hns : CallStart b
                ∉ (λ kv : string * nat, CallCleanup kv.2) <$> animations w).
  { intros ([k a] & [=] & _)%list_elem_of_fmap. }
  pose proof Hb as Hb'. rewrite runningAfter_app in Hb'.
  apply applyCall_fold_true in Hb' as [Hb'|Hb']; [|done].
  destruct (Hrr b Hb') as (k & Hk%map_get_elem).
  rewrite runningAfter_stopped in Hb; [done| |done].
  right. apply list_elem_of_fmap. by exists (k, b).
Qed.

Lemma handleAnimationError_cases sectionId w :
  (∃ e, handleAnimationError sectionId w
        = Throw e (warn (WarnAnimationError sectionId) w))
  ∨ (∃ w2, handleAnimationError sectionId w
           = Ok (unregisterSection sectionId w2)
           ∧ animations w2 = animations w
           ∧ calls w2 = calls w
           ∧ state w2 = state w
           ∧ setStore w2 = setStore w
           ∧ observers w2 = observers w
           ∧ hasIntersectionObserver w2 = hasIntersectionObserver w
           ∧ console w2 = console w ++ [WarnAnimationError sectionId]).
Proof.
  unfold handleAnimationError, applyStaticFallback.
  set (w1 := warn (WarnAnimationError sectionId) w).
  destruct (getElementById sectionId w1) as [i|]; [|right; by exists w1].
  destruct (document w1 !! i) as [section|]; [|right; by exists w1].
  match goal with |- context [match ?added with Ok _ => _ | Throw _ _ => _ end] =>
    destruct added as [l|e l] end; simpl.
  - right. eexists. split; [done|]. done.
  - left. by exists e.
Qed.

Lemma handleAnimationError_inv sectionId w :
  running_registered w →
  running_registered (reached (handleAnimationError sectionId w)).
Proof.
  intros Hrr.
  destruct (handleAnimationError_cases sectionId w)
    as [[e ->]|(w2 & -> & Ha & Hc & _)]; simpl.
  - done.
  - apply unregisterSection_inv. intros b. rewrite Hc, Ha. apply Hrr.
Qed.

Lemma deliver_extends o entries w : extends (gate w) w (deliver o entries w).
Proof.
  unfold deliver. destruct (observers w !! o);
    [apply handleIntersection_extends|apply extends_refl].
Qed.

Lemma fireMonitor_extends h t memory w :
  extends false w (fireMonitor h t memory w).
Proof.
  unfold fireMonitor. destruct (bool_decide _); [|apply extends_refl].
  eapply extends_trans; [|apply monitor_extends]. by apply extends_same.
Qed.

(** Every operation keeps running animations registered, provided it does
    not register over a registered id. *)
Lemma step_running_registered (op : @Op num) w :
  (∀ sectionId a, op = OpRegister sectionId a →
     map_get (animations w) sectionId = None) →
  running_registered w → running_registered (reached (step op w)).
Proof.
  intros Hfresh Hrr.
  destruct op as [|k a|k|entries|o entries|active| |h t memory|matches|k];
    cbn [step reached].
  - intros b. destruct (init_facts w) as (-> & -> & _). apply Hrr.
  - apply registerSection_inv; [by eapply Hfresh|done].
  - by apply unregisterSection_inv.
  - eapply running_registered_extends;
      [apply handleIntersection_extends|done].
  - eapply running_registered_extends; [apply deliver_extends|done].
  - eapply running_registered_extends; [apply setActive_extends|done].
  - by apply destroy_inv.
  - eapply running_registered_extends; [apply fireMonitor_extends|done].
  - eapply running_registered_extends; [apply mediaChange_extends|done].
  - by apply handleAnimationError_inv.
Qed.

Lemma run_running_registered ops :
  ∀ w, registersFresh ops w = true →
    running_registered w → running_registered (run ops w).
Proof.
  induction ops as [|op ops IH]; intros w Hf Hrr; simpl; [done|].
  simpl in Hf. apply andb_prop in Hf as [Hop Hrest].
  apply IH; [done|]. apply step_running_registered; [|done].
  intros k a ->. by destruct (map_get (animations w) k).
Qed.

Lemma step_keys_unique (op : @Op num) w :
  keys_unique (animations w) → keys_unique (animations (reached (step op w))).
Proof.
  intros Hk.
  destruct op as [|k a|k|entries|o entries|active| |h t memory|matches|k];
    cbn [step reached].
  - by destruct (init_facts w) as (-> & _).
  - by apply map_set_unique.
  - destruct (map_get (animations w) k) as [a|] eqn:Hg.
    + destruct (unregisterSection_registered k a w Hg) as (-> & _).
      by apply map_delete_unique.
    + by rewrite unregisterSection_unregistered.
  - by destruct (handleIntersection_extends entries w) as (-> & _).
  - by destruct (deliver_extends o entries w) as (-> & _).
  - by destruct (setActive_extends active w) as (-> & _).
  - destruct (destroy_facts w) as (-> & _). apply NoDup_nil_2.
  - by destruct (fireMonitor_extends h t memory w) as (-> & _).
  - by destruct (mediaChange_extends matches w) as (-> & _).
  - destruct (handleAnimationError_cases k w)
      as [[e ->]|(w2 & -> & Ha & _)]; simpl; [done|].
    destruct (map_get (animations w2) k) as [a|] eqn:Hg.
    + destruct (unregisterSection_registered k a w2 Hg) as (-> & _).
      rewrite Ha. by apply map_delete_unique.
    + rewrite unregisterSection_unregistered by done. by rewrite Ha.
Qed.

Lemma run_keys_unique ops :
  ∀ w, keys_unique (animations w) → keys_unique (animations (run ops w)).
Proof.
  induction ops as [|op ops IH]; intros w Hk; simpl; [done|].
  apply IH. by apply step_keys_unique.
Qed.

(** *** The states of a section *)

Lemma new_inv now window io reduced doc :
  running_registered (new now window io reduced doc)
  ∧ keys_unique (animations (new now window io reduced doc)).
Proof. split; [by intros a|apply NoDup_nil_2]. Qed.

Lemma sectionStatus_unregistered w sectionId :
  map_get (animations w) sectionId = None →
  sectionStatus w sectionId = Unregistered.
Proof. intros Hg. unfold sectionStatus. by rewrite Hg. Qed.

Lemma unregisterSection_status sectionId w :
  keys_unique (animations w) →
  sectionStatus (unregisterSection sectionId w) sectionId = Unregistered.
Proof.
  intros Hk. apply sectionStatus_unregistered.
  destruct (map_get (animations w) sectionId) as [a|] eqn:Hg.
  - destruct (unregisterSection_registered sectionId a w Hg) as (-> & _).
    by apply map_get_delete_eq.
  - by rewrite unregisterSection_unregistered.
Qed.


(** *** The signals that start and pause *)





(** *** Performance degradation *)

(** C5, as the code has it.  Every sample of the monitor is judged on its
    own.  A rate under 30 logs a warning, and so does a heap over 50 MB;
    when the rate is also under 15, each of them is followed by
    [setActive(false)] and a second warning.  So a sample under 15 leaves
    the global flag off and every registered section paused, a sample that
    is not leaves flag and sections as they were, and nothing is counted
    over several samples or warned about only once. *)
Theorem degradation_sample w h t memory m :
  bool_decide (h ∈ monitorQueue w) = true →
  metricsOf (state w) w = Some m →
  let rate := div (lit 1000) (sub t (lastFrameTime m)) in
  let usage := match memory with
               | Some used => div (div used (lit 1024)) (lit 1024)
               | None => memoryUsage m
               end in
  let low := ltb rate (lit 30) in
  let high := ltb (lit 50) usage in
  let severe := ltb rate (lit 15) in
  let w' := reached (step (OpMonitorFrame h t memory) w) in
  newWarnings w w'
  = (if low then WarnDegradation low_framerate
                 :: (if severe then [WarnDisabled] else [])
     else [])
    ++ (if high then WarnDegradation high_memory
                     :: (if severe then [WarnDisabled] else [])
        else [])
  ∧ (severe && (low || high) = true →
     isActive (state w') = false
     ∧ ∀ sectionId a, map_get (animations w) sectionId = Some a →
         CallPause a ∈ newCalls w w'
         ∧ sectionStatus w' sectionId = RegisteredPaused)
  ∧ (severe && (low || high) = false →
     newCalls w w' = []
     ∧ isActive (state w') = isActive (state w)
     ∧ ∀ sectionId, sectionStatus w' sectionId = sectionStatus w sectionId)
  ∧ performanceMonitorId w' = Some (S (nextHandle w))
  ∧ monitorQueue w' = filter (λ k, k ≠ h) (monitorQueue w) ++ [S (nextHandle w)].
Proof.
  intros Hq Hm rate usage low high severe. cbn [step reached].
  unfold fireMonitor. rewrite Hq.
  set (w0 := set_monitorQueue _ w).
  destruct (monitor_facts t memory w0 m Hm)
    as (Ha & _ & _ & _ & _ & _ & _ & Hco & Hc & Hi & _ & Hmq & Hid).
  fold rate usage severe in Hco, Hc, Hi.
  change (ltb rate frameRateThreshold) with low in Hco, Hc, Hi.
  change (ltb memoryThreshold usage) with high in Hco, Hc, Hi.
  change (console w0) with (console w) in Hco.
  change (calls w0) with (calls w) in Hc.
  change (pauseCalls w0) with (pauseCalls w) in Hc.
  change (animations w0) with (animations w) in Ha.
  change (state w0) with (state w) in Hi.
  split; [by apply newWarnings_app|].
  split; [|split; [|by split]].
  - intros Hsev. rewrite Hsev in Hi. split; [done|].
    intros k a Hg. rewrite (newCalls_app _ _ _ Hc).
    assert (Hp : CallPause a ∈ pauseCalls w).
    { apply elem_of_pauseCalls. exists k, a. split; [by apply map_get_elem|done]. }
    assert (Hin : CallPause a
                  ∈ (if low && severe then pauseCalls w else [])
                    ++ (if high && severe then pauseCalls w else [])).
    { apply elem_of_app. destruct severe; [|done]. simpl in Hsev.
      destruct low; simpl; [by left|]. simpl in Hsev. rewrite Hsev. by right. }
    split; [done|]. unfold sectionStatus. rewrite Ha, Hg, Hc.
    rewrite runningAfter_stopped; [done|by left|].
    intros [Hs|Hs]%elem_of_app.
    + destruct (low && severe); [|by apply elem_of_nil in Hs].
      by apply elem_of_pauseCalls in Hs as (? & ? & _ & [=]).
    + destruct (high && severe); [|by apply elem_of_nil in Hs].
      by apply elem_of_pauseCalls in Hs as (? & ? & _ & [=]).
  - intros Hsev. rewrite Hsev in Hi.
    assert (Hnil : (if low && severe then pauseCalls w else [])
                   ++ (if high && severe then pauseCalls w else []) = []).
    { destruct severe; [|by rewrite !andb_false_r].
      simpl in Hsev. apply orb_false_elim in Hsev as [-> ->]. done. }
    rewrite Hnil in Hc. split; [by apply newCalls_app|]. split; [done|].
    intros k. unfold sectionStatus. rewrite Ha, Hc. by rewrite app_nil_r.
Qed.

(** *** The error handler *)

Lemma fallback_class_spaced sectionId fallbackClass l :
  map_get fallbackClasses sectionId = Some fallbackClass →
  classList_add fallbackClass l = Throw InvalidCharacterError l.
Proof.
  intros Hg%map_get_elem. unfold fallbackClasses in Hg.
  repeat (apply elem_of_cons in Hg as [[= _ ->]|Hg]; [reflexivity|]).
  by apply elem_of_nil in Hg.
Qed.

(** C8 at its failing inputs.  For each of the six section ids that have a
    gradient, when the page has an element with that id,
    [handleAnimationError] raises [InvalidCharacterError] out of
    [classList.add]: the gradient is a list of classes separated by
    spaces, passed as one token.  The call ends there: the warning is
    logged, no class is added, [cleanup] is not called and the section
    stays registered. *)
Theorem error_handler_throws w sectionId fallbackClass i section :
  map_get fallbackClasses sectionId = Some fallbackClass →
  getElementById sectionId w = Some i →
  document w !! i = Some section →
  handleAnimationError sectionId w
  = Throw InvalidCharacterError (warn (WarnAnimationError sectionId) w)
  ∧ document (reached (handleAnimationError sectionId w)) = document w
  ∧ animations (reached (handleAnimationError sectionId w)) = animations w
  ∧ calls (reached (handleAnimationError sectionId w)) = calls w
  ∧ ∀ k, sectionStatus (reached (handleAnimationError sectionId w)) k
         = sectionStatus w k.
Proof.
  intros Hg Hi Hs.
  assert (Hthrow : handleAnimationError sectionId w
            = Throw InvalidCharacterError (warn (WarnAnimationError sectionId) w)).
  { unfold handleAnimationError, applyStaticFallback.
    change (getElementById sectionId (warn (WarnAnimationError sectionId) w))
      with (getElementById sectionId w).
    rewrite Hi. change (document (warn (WarnAnimationError sectionId) w))
      with (document w). rewrite Hs, Hg.
    by rewrite (fallback_class_spaced sectionId fallbackClass). }
  rewrite Hthrow. simpl. done.
Qed.

(** *** The snapshot *)

(** C9 at its failing inputs.  [getState] copies the five fields of the
    state object, so the flags and [currentSection] of a snapshot are its
    own; but the [Set] and the metrics record are the controller's.  A
    section that becomes visible after the snapshot was taken is in the
    snapshot's [visibleSections]; a sample of the monitor taken afterwards
    shows in the snapshot's [performanceMetrics]; and what the caller adds
    to the snapshot's set or writes into its metrics, the controller sees. *)
Theorem snapshot_shares w sectionId a visible m :
  map_get (animations w) sectionId = Some a →
  setStore w !! visibleSections (state w) = Some visible →
  sectionId ∉ visible →
  metricsOf (state w) w = Some m →
  let snapshot := getState w in
  visibleOf snapshot w = visible
  ∧ visibleOf snapshot (handleIntersection [(sectionId, true)] w)
    = visible ++ [sectionId]
  ∧ (∀ t memory,
       frameRate <$> metricsOf snapshot (monitor t memory w)
       = Some (div (lit 1000) (sub t (lastFrameTime m))))
  ∧ (∀ k, visibleOf (state w) (snapshot_addVisible snapshot k w)
          = set_add visible k)
  ∧ (∀ v, frameRate <$> metricsOf (state w) (snapshot_setFrameRate snapshot v w)
          = Some v)
  ∧ isActive snapshot = isActive (state w)
  ∧ (∀ active, isActive (state (setActive active w)) = active).
Proof.
  intros Hg Hv Hnin Hm snapshot.
  split; [|split; [|split; [|split; [|split; [|split]]]]].
  - unfold visibleOf. simpl. by rewrite Hv.
  - unfold handleIntersection, handleEntry, visibleOf. simpl. rewrite Hg.
    simpl. rewrite gate_comm.
    destruct (gate w); simpl; rewrite lookup_alter_eq, Hv; simpl;
      unfold set_add; by rewrite decide_False.
  - intros t memory.
    destruct (monitor_facts t memory w m Hm)
      as (_ & _ & _ & Hp & _ & _ & _ & _ & _ & _ & Hm' & _).
    unfold metricsOf in Hm' |- *. rewrite Hp in Hm'.
    change (performanceMetrics snapshot) with (performanceMetrics (state w)).
    by rewrite Hm'.
  - intros k. unfold visibleOf, snapshot_addVisible. simpl.
    by rewrite lookup_alter_eq, Hv.
  - intros v. unfold metricsOf, snapshot_setFrameRate in *. simpl.
    by rewrite lookup_alter_eq, Hm.
  - done.
  - intros [|]; [rewrite setActive_true_eq|rewrite setActive_false_eq];
      [destruct (reducedMotionEnabled (state w))|]; done.
Qed.

(** *** Without an observer *)

Lemma runningAfter_never_started log a :
  CallStart a ∉ log → runningAfter log a = false.
Proof. intros Hns. apply applyCall_fold_false; [done|by left]. Qed.

Lemma handlePerformanceDegradation_kept reason w :
  let w' := handlePerformanceDegradation reason w in
  setStore w' = setStore w
  ∧ visibleSections (state w') = visibleSections (state w)
  ∧ observers w' = observers w
  ∧ hasIntersectionObserver w' = hasIntersectionObserver w.
Proof.
  destruct (handlePerformanceDegradation_facts reason w)
    as (_ & _ & Hv & Hs & _ & _ & _ & _ & _ & Ho & Hio).
  cbv zeta. rewrite Hv, Hs, Ho, Hio.
  by destruct (ltb (currentFrameRate w) (lit 15)).
Qed.

Lemma monitor_kept t memory w :
  setStore (monitor t memory w) = setStore w
  ∧ visibleSections (state (monitor t memory w)) = visibleSections (state w)
  ∧ observers (monitor t memory w) = observers w
  ∧ hasIntersectionObserver (monitor t memory w) = hasIntersectionObserver w.
Proof.
  unfold monitor.
  set (w1 := set_metricsStore _ w).
  set (w2 := match memory with Some _ => _ | None => _ end).
  assert (H2 : setStore w2 = setStore w
               ∧ visibleSections (state w2) = visibleSections (state w)
               ∧ observers w2 = observers w
               ∧ hasIntersectionObserver w2 = hasIntersectionObserver w).
  { subst w2 w1. by destruct memory. }
  clearbody w2. clear w1.
  set (w3 := if ltb (currentFrameRate w2) frameRateThreshold then _ else w2).
  assert (H3 : setStore w3 = setStore w2
               ∧ visibleSections (state w3) = visibleSections (state w2)
               ∧ observers w3 = observers w2
               ∧ hasIntersectionObserver w3 = hasIntersectionObserver w2).
  { subst w3. destruct (ltb _ _);
      [apply handlePerformanceDegradation_kept|done]. }
  clearbody w3.
  set (w4 := if ltb memoryThreshold (currentMemoryUsage w3) then _ else w3).
  assert (H4 : setStore w4 = setStore w3
               ∧ visibleSections (state w4) = visibleSections (state w3)
               ∧ observers w4 = observers w3
               ∧ hasIntersectionObserver w4 = hasIntersectionObserver w3).
  { subst w4. destruct (ltb _ _);
      [apply handlePerformanceDegradation_kept|done]. }
  clearbody w4. simpl.
  destruct H2 as (<- & <- & <- & <-). destruct H3 as (<- & <- & <- & <-).
  by destruct H4 as (<- & <- & <- & <-).
Qed.

Lemma unobserved_intro w w' l :
  hasIntersectionObserver w' = hasIntersectionObserver w →
  observers w' = observers w →
  visibleOf (state w') w' = visibleOf (state w) w →
  calls w' = calls w ++ l →
  (∀ a, CallStart a ∉ l) →
  unobserved w → unobserved w'.
Proof.
  intros Hio Ho Hv Hc Hl (Hio0 & Ho0 & Hv0 & Hc0).
  split; [congruence|]. split; [congruence|]. split; [congruence|].
  intros a. rewrite Hc. intros [Hin|Hin]%elem_of_app; [by apply (Hc0 a)|].
  by apply (Hl a).
Qed.

Lemma pauseCalls_no_start w a : CallStart a ∉ pauseCalls w.
Proof. by intros (? & ? & _ & [=])%elem_of_pauseCalls. Qed.

Lemma startCalls_unobserved w : unobserved w → startCalls w = [].
Proof. intros (_ & _ & Hv & _). unfold startCalls. by rewrite Hv. Qed.

Lemma setActive_unobserved active w :
  unobserved w → unobserved (setActive active w).
Proof.
  intros Hu. destruct active.
  - rewrite setActive_true_eq.
    destruct (reducedMotionEnabled (state w)).
    + eapply (unobserved_intro w _ []); try done.
      * by rewrite app_nil_r.
      * intros a. apply not_elem_of_nil.
    + eapply (unobserved_intro w _ (startCalls w)); try done.
      rewrite startCalls_unobserved by done. intros a. apply not_elem_of_nil.
  - rewrite setActive_false_eq.
    eapply (unobserved_intro w _ (pauseCalls w)); try done.
    intros a. apply pauseCalls_no_start.
Qed.

Lemma handleChange_unobserved matches w :
  unobserved w → unobserved (handleChange matches w).
Proof.
  intros Hu. destruct matches.
  - rewrite handleChange_true_eq.
    eapply (unobserved_intro w _ (pauseCalls w)); try done.
    intros a. apply pauseCalls_no_start.
  - rewrite handleChange_false_eq.
    destruct (isActive (state w)).
    + eapply (unobserved_intro w _ (startCalls w)); try done.
      rewrite startCalls_unobserved by done. intros a. apply not_elem_of_nil.
    + eapply (unobserved_intro w _ []); try done.
      * by rewrite app_nil_r.
      * intros a. apply not_elem_of_nil.
Qed.

Lemma visible_delete_empty sectionId w :
  visibleOf (state w) w = [] →
  default [] (alter (λ s, set_delete s sectionId) (visibleSections (state w))
                    (setStore w) !! visibleSections (state w)) = [].
Proof.
  unfold visibleOf. rewrite lookup_alter_eq.
  destruct (setStore w !! visibleSections (state w)) as [vs|]; simpl; [|done].
  by intros ->.
Qed.

Lemma unregisterSection_unobserved sectionId w :
  unobserved w → unobserved (unregisterSection sectionId w).
Proof.
  intros Hu. destruct (map_get (animations w) sectionId) as [a|] eqn:Hg.
  - destruct (unregisterSection_registered sectionId a w Hg)
      as (_ & Hc & _ & Hs & Hv & Ho & Hio & _).
    eapply (unobserved_intro w _ [CallCleanup a]); try done.
    + unfold visibleOf at 1. rewrite Hs, Hv.
      destruct Hu as (_ & _ & Hv0 & _). rewrite Hv0.
      by apply visible_delete_empty.
    + intros b. by intros [=]%list_elem_of_singleton.
  - by rewrite unregisterSection_unregistered.
Qed.

(** Without an observer, and unless the page calls [handleIntersection]
    itself, no operation makes a section visible or calls [start]. *)
Lemma step_unobserved (op : @Op num) w :
  isDirectIntersection op = false →
  unobserved w → unobserved (reached (step op w)).
Proof.
  intros Hnd Hu.
  destruct op as [|k a|k|entries|o entries|active| |h t memory|matches|k];
    cbn [step reached]; try done.
  - destruct (init_facts w) as (_ & Hc & Hs & Hv & _ & _ & Hio & _ & Ho).
    eapply (unobserved_intro w _ []).
    + done.
    + apply Ho. by destruct Hu.
    + unfold visibleOf. by rewrite Hs, Hv.
    + by rewrite app_nil_r.
    + intros b. apply not_elem_of_nil.
    + done.
  - by apply unregisterSection_unobserved.
  - unfold deliver. destruct Hu as (Hio & Ho & Hv & Hc).
    rewrite Ho, lookup_empty. done.
  - by apply setActive_unobserved.
  - destruct (destroy_facts w) as (_ & Hc & _ & _ & _ & Hv & Hio & Ho & _).
    destruct Hu as (Hio0 & Ho0 & Hv0 & Hc0).
    split; [congruence|]. split; [by apply Ho|]. split; [done|].
    intros b. rewrite Hc. intros [Hin|Hin]%elem_of_app; [by apply (Hc0 b)|].
    by apply list_elem_of_fmap in Hin as ([? ?] & [=] & _).
  - unfold fireMonitor. destruct (bool_decide _); [|done].
    set (w0 := set_monitorQueue _ w).
    destruct (monitor_kept t memory w0) as (Hv & Hs & Ho & Hio).
    destruct (monitor_extends t memory w0) as (_ & l & Hc & Hl).
    eapply (unobserved_intro w _ l); try done.
    + unfold visibleOf. by rewrite Hv, Hs.
    + intros b Hb. by destruct (Hl b Hb).
  - unfold mediaChange. induction (changeListeners w) as [|n IH]; [done|].
    rewrite Nat.iter_succ. by apply handleChange_unobserved.
  - destruct (handleAnimationError_cases k w)
      as [[e ->]|(w2 & -> & Ha & Hc & Hs & Hv & Ho & Hio & _)]; simpl.
    + eapply (unobserved_intro w _ []); try done.
      * by rewrite app_nil_r.
      * intros b. apply not_elem_of_nil.
    + apply unregisterSection_unobserved.
      eapply (unobserved_intro w _ []); try done.
      * unfold visibleOf. by rewrite Hs, Hv.
      * by rewrite Hc, app_nil_r.
      * intros b. apply not_elem_of_nil.
Qed.

Lemma run_unobserved ops :
  ∀ w, forallb (λ op, negb (isDirectIntersection op)) ops = true →
    unobserved w → unobserved (run ops w).
Proof.
  induction ops as [|op ops IH]; intros w Hnd Hu; simpl; [done|].
  simpl in Hnd. apply andb_prop in Hnd as [Hop Hrest].
  apply IH; [done|]. apply step_unobserved; [|done].
  by apply negb_true_iff.
Qed.

(** C10 at its failing inputs.  In a browser without
    [IntersectionObserver], [init] logs that animations will run
    continuously and returns without raising.  But whatever follows short
    of the page calling [handleIntersection] itself (registrations,
    [setActive], changes of the reduced-motion preference, samples of the
    monitor, errors, deliveries addressed to an observer that does not
    exist), no section is ever recorded as visible and [start] is never
    called: no registered animation runs. *)
Theorem no_observer_no_start now window reduced doc ops :
  forallb (λ op, negb (isDirectIntersection op)) ops = true →
  let w := run ops (new now window false reduced doc) in
  (∀ a, CallStart a ∉ calls w)
  ∧ (∀ a, runningAfter (calls w) a = false)
  ∧ (∀ sectionId, sectionStatus w sectionId ≠ RegisteredRunning)
  ∧ visibleOf (state w) w = []
  ∧ observers w = ∅
  ∧ (window = true →
     step OpInit (new now window false reduced doc)
     = Ok (init (new now window false reduced doc))
     ∧ console (init (new now window false reduced doc)) = [WarnNoObserver]).
Proof.
  intros Hnd w.
  assert (Hu0 : unobserved (new now window false reduced doc)).
  { split; [done|]. split; [done|]. split; [done|].
    intros a. apply not_elem_of_nil. }
  pose proof (run_unobserved ops _ Hnd Hu0) as (Hio & Ho & Hv & Hc).
  fold w in Hio, Ho, Hv, Hc.
  split; [done|]. split; [|split; [|split; [done|split; [done|]]]].
  - intros a. by apply runningAfter_never_started.
  - intros k. unfold sectionStatus.
    destruct (map_get (animations w) k) as [a|]; [|done].
    by rewrite runningAfter_never_started.
  - intros ->. done.
Qed.

(** *** Visible sections are registered *)

Lemma visibleOf_ext w w' :
  setStore w' = setStore w →
  visibleSections (state w') = visibleSections (state w) →
  visibleOf (state w') w' = visibleOf (state w) w.
Proof. intros Hs Hv. unfold visibleOf. by rewrite Hs, Hv. Qed.

Lemma elem_of_set_add (s : list string) k x :
  x ∈ set_add s k ↔ x = k ∨ x ∈ s.
Proof.
  unfold set_add. destruct (decide (k ∈ s)) as [Hin|Hnin].
  - split; [by right|]. by intros [->|].
  - rewrite elem_of_app, list_elem_of_singleton. tauto.
Qed.

Lemma elem_of_set_delete (s : list string) k x :
  x ∈ set_delete s k ↔ x ≠ k ∧ x ∈ s.
Proof. unfold set_delete. by rewrite list_elem_of_filter. Qed.

Lemma visible_add_elem k w x :
  x ∈ visibleOf (state (visible_add k w)) (visible_add k w) →
  x = k ∨ x ∈ visibleOf (state w) w.
Proof.
  unfold visibleOf, visible_add. simpl. rewrite lookup_alter_eq.
  destruct (setStore w !! visibleSections (state w)) as [vs|]; simpl.
  - by intros ?%elem_of_set_add.
  - by intros ?%elem_of_nil.
Qed.

Lemma visible_delete_elem k w x :
  x ∈ visibleOf (state (visible_delete k w)) (visible_delete k w) →
  x ≠ k ∧ x ∈ visibleOf (state w) w.
Proof.
  unfold visibleOf, visible_delete. simpl. rewrite lookup_alter_eq.
  destruct (setStore w !! visibleSections (state w)) as [vs|]; simpl.
  - by intros ?%elem_of_set_delete.
  - by intros ?%elem_of_nil.
Qed.

Lemma handleEntry_visible w entry x :
  x ∈ visibleOf (state (handleEntry w entry)) (handleEntry w entry) →
  x ∈ visibleOf (state w) w ∨ is_Some (map_get (animations w) x).
Proof.
  destruct entry as [k vis]. unfold handleEntry. simpl.
  destruct (map_get (animations w) k) as [a|] eqn:Hg; [|by left].
  destruct vis.
  - set (w2 := set_state _ (visible_add k w)).
    assert (Hv : ∀ w3, setStore w3 = setStore (visible_add k w) →
              visibleSections (state w3) = visibleSections (state w) →
              x ∈ visibleOf (state w3) w3 →
              x ∈ visibleOf (state w) w ∨ is_Some (map_get (animations w) x)).
    { intros w3 Hs Hvs Hin.
      rewrite (visibleOf_ext (visible_add k w) w3 Hs Hvs) in Hin.
      apply visible_add_elem in Hin as [->|Hin]; [right; by rewrite Hg|by left]. }
    destruct (negb _ && _); by apply Hv.
  - intros Hin.
    rewrite (visibleOf_ext (visible_delete k w)) in Hin by done.
    apply visible_delete_elem in Hin as [_ Hin]. by left.
Qed.

Lemma handleIntersection_visible entries :
  ∀ w x,
    x ∈ visibleOf (state (handleIntersection entries w))
                  (handleIntersection entries w) →
    x ∈ visibleOf (state w) w ∨ is_Some (map_get (animations w) x).
Proof.
  unfold handleIntersection.
  induction entries as [|entry entries IH]; intros w x; simpl; [by left|].
  intros Hin. destruct (IH _ _ Hin) as [Hv|Hr].
  - by apply handleEntry_visible in Hv.
  - right. by destruct (handleEntry_facts w entry) as (<- & _).
Qed.

(** Every section recorded as visible is registered, after any sequence of
    operations: entries for unregistered ids are dropped, and
    [unregisterSection] and [destroy] take the section out of the set. *)
Theorem visible_sections_registered now window io reduced doc ops :
  ∀ sectionId,
    sectionId ∈ visibleOf (state (run ops (new now window io reduced doc)))
                          (run ops (new now window io reduced doc)) →
    is_Some (map_get (animations (run ops (new now window io reduced doc)))
                     sectionId).
Proof.
  assert (Hstep : ∀ (op : @Op num) w,
            (∀ k, k ∈ visibleOf (state w) w → is_Some (map_get (animations w) k)) →
            ∀ k, k ∈ visibleOf (state (reached (step op w))) (reached (step op w)) →
                 is_Some (map_get (animations (reached (step op w))) k)).
  { intros op w Hinv k.
    assert (Hsame : ∀ w', animations w' = animations w →
              setStore w' = setStore w →
              visibleSections (state w') = visibleSections (state w) →
              k ∈ visibleOf (state w') w' → is_Some (map_get (animations w') k)).
    { intros w' Ha Hs Hv. rewrite (visibleOf_ext w w' Hs Hv), Ha. apply Hinv. }
    assert (Hunreg : ∀ j w2, animations w2 = animations w →
              setStore w2 = setStore w → state w2 = state w →
              k ∈ visibleOf (state (unregisterSection j w2)) (unregisterSection j w2) →
              is_Some (map_get (animations (unregisterSection j w2)) k)).
    { intros j w2 Ha Hs Hst.
      destruct (map_get (animations w2) j) as [a|] eqn:Hg.
      - destruct (unregisterSection_registered j a w2 Hg)
          as (Ha' & _ & _ & Hst' & Hs' & _).
        unfold visibleOf. rewrite Ha', Hst', Hs', lookup_alter_eq.
        destruct (setStore w2 !! visibleSections (state w2)) as [vs|] eqn:E;
          simpl; [|by intros ?%elem_of_nil].
        intros [Hne Hin]%elem_of_set_delete.
        rewrite map_get_delete_ne by done. rewrite Ha. apply Hinv.
        unfold visibleOf. rewrite <- Hs, <- Hst, E. done.
      - rewrite unregisterSection_unregistered by done.
        apply Hsame; [done|done|by rewrite Hst]. }
    destruct op as [|j a|j|entries|o entries|active| |h t memory|matches|j];
      cbn [step reached].
    - destruct (init_facts w) as (Ha & _ & Hst & Hs & _).
      apply Hsame; [done|done|by rewrite Hst].
    - destruct (registerSection_facts j a w) as (Ha & _ & _ & Hst & Hs & _).
      rewrite (visibleOf_ext w _ Hs) by (by rewrite Hst). rewrite Ha.
      intros [v Hv]%Hinv. destruct (decide (j = k)) as [->|Hne].
      + rewrite map_get_set_eq. eauto.
      + rewrite map_get_set_ne by done. eauto.
    - by apply Hunreg.
    - intros [Hin|Hin]%handleIntersection_visible.
      + destruct (handleIntersection_facts entries w) as (-> & _). by apply Hinv.
      + by destruct (handleIntersection_facts entries w) as (-> & _).
    - unfold deliver. destruct (observers w !! o) as [targets|]; [|apply Hinv].
      intros [Hin|Hin]%handleIntersection_visible.
      + destruct (handleIntersection_facts
                    (filter (λ entry, entry.1 ∈ targets) entries) w) as (-> & _).
        by apply Hinv.
      + by destruct (handleIntersection_facts
                       (filter (λ entry, entry.1 ∈ targets) entries) w)
          as (-> & _).
    - destruct active.
      + rewrite setActive_true_eq.
        destruct (reducedMotionEnabled (state w)); by apply Hsame.
      + rewrite setActive_false_eq. by apply Hsame.
    - destruct (destroy_facts w) as (_ & _ & _ & _ & _ & -> & _).
      by intros ?%elem_of_nil.
    - unfold fireMonitor. destruct (bool_decide _); [|apply Hinv].
      set (w0 := set_monitorQueue _ w).
      destruct (monitor_kept t memory w0) as (Hs & Hv & _).
      destruct (monitor_extends t memory w0) as (Ha & _).
      by apply Hsame.
    - unfold mediaChange.
      induction (changeListeners w) as [|n IH]; [apply Hinv|].
      rewrite Nat.iter_succ. set (wn := Nat.iter n (handleChange matches) w) in *.
      destruct matches.
      + rewrite handleChange_true_eq. intros Hin. by apply IH.
      + rewrite handleChange_false_eq. destruct (isActive (state wn));
          intros Hin; by apply IH.
    - destruct (handleAnimationError_cases j w)
        as [[e ->]|(w2 & -> & Ha & _ & Hst & Hs & _)]; cbn [reached].
      + by apply Hsame.
      + by apply Hunreg. }
  induction ops as [|op ops IH] using rev_ind.
  - intros k. simpl. by intros ?%elem_of_nil.
  - assert (Hrun : ∀ w, run (ops ++ [op]) w = reached (step op (run ops w))).
    { clear. induction ops as [|o ops IH]; intros w; simpl; [done|apply IH]. }
    rewrite Hrun. by apply Hstep.
Qed.

(** *** Entries for sections that are not registered *)

(** A batch of intersection entries for ids that are not registered changes
    nothing: the sections are not recorded as visible, so an animation
    registered later under such an id is not started before its next
    entry. *)
Theorem unregistered_entries_ignored w entries :
  (∀ entry, entry ∈ entries → map_get (animations w) entry.1 = None) →
  handleIntersection entries w = w.
Proof.
  unfold handleIntersection.
  induction entries as [|entry entries IH]; intros Hall; simpl; [done|].
  assert (He : handleEntry w entry = w).
  { unfold handleEntry. rewrite (Hall entry) by by left. done. }
  rewrite He. apply IH. intros e Hin. apply Hall. by right.
Qed.

(** *** destroy *)

Lemma destroy_observers w :
  observers (destroy w)
  = match intersectionObserver w with
    | Some o => delete o (observers w)
    | None => observers w
    end.
Proof.
  unfold destroy. cbv zeta.
  set (w1 := match intersectionObserver w with Some _ => _ | None => w end).
  assert (H1 : observers w1
               = match intersectionObserver w with
                 | Some o => delete o (observers w)
                 | None => observers w
                 end).
  { subst w1. by destruct (intersectionObserver w). }
  clearbody w1.
  set (w2 := match performanceMonitorId w1 with Some (S _) => _ | _ => w1 end).
  assert (H2 : observers w2 = observers w1).
  { subst w2. by destruct (performanceMonitorId w1) as [[|h]|]. }
  clearbody w2. rewrite cleanupAll_eq. simpl. congruence.
Qed.

(** [destroy] calls [cleanup] once on the animation of every registered
    section, in the order of registration, and on nothing else; it empties
    the map and the set of visible sections, so that every section is
    Unregistered; and it disconnects the observer: the controller keeps no
    observer, the one it had observes nothing and a delivery from it
    changes nothing, and no other observer is touched.  If no section was
    registered twice before, nothing runs afterwards. *)
Theorem destroy_cleans_up now window io reduced doc ops :
  let w := run ops (new now window io reduced doc) in
  newCalls w (destroy w) = (λ kv, CallCleanup kv.2) <$> animations w
  ∧ animations (destroy w) = []
  ∧ visibleOf (state (destroy w)) (destroy w) = []
  ∧ (∀ sectionId, sectionStatus (destroy w) sectionId = Unregistered)
  ∧ intersectionObserver (destroy w) = None
  ∧ (∀ o, intersectionObserver w = Some o →
       observers (destroy w) = delete o (observers w)
       ∧ ∀ entries, deliver o entries (destroy w) = destroy w)
  ∧ (intersectionObserver w = None → observers (destroy w) = observers w)
  ∧ (registersFresh ops (new now window io reduced doc) = true →
     ∀ a, runningAfter (calls (destroy w)) a = false).
Proof.
  intros w.
  destruct (destroy_facts w) as (Ha & Hc & _ & _ & _ & Hv & _ & _ & Hob & _).
  pose proof (destroy_observers w) as Hobs.
  split; [by apply newCalls_app|]. split; [done|]. split; [done|].
  split; [|split; [done|split; [|split]]].
  - intros k. apply sectionStatus_unregistered. by rewrite Ha.
  - intros o Ho. rewrite Ho in Hobs. split; [done|].
    intros entries. unfold deliver. by rewrite Hobs, lookup_delete_eq.
  - intros Hnone. by rewrite Hnone in Hobs.
  - intros Hfresh a.
    destruct (new_inv now window io reduced doc) as [Hrr0 _].
    pose proof (run_running_registered ops _ Hfresh Hrr0) as Hrr.
    fold w in Hrr.
    destruct (runningAfter (calls (destroy w)) a) eqn:E; [|done].
    destruct (destroy_inv w Hrr a E) as (k & Hk). by rewrite Ha in Hk.
Qed.

(** *** The error handler, where it works *)

Lemma indexById_lookup (doc : list DocElement) k i :
  indexById doc k = Some i → ∃ e, doc !! i = Some e ∧ el_id e = Some k.
Proof.
  revert i. induction doc as [|e doc IH]; intros i; simpl; [done|].
  destruct (decide (el_id e = Some k)) as [He|Hne].
  - intros [= <-]. eauto.
  - destruct (indexById doc k) as [j|]; simpl; [|done].
    intros [= <-]. simpl. by apply IH.
Qed.

(** For a section id that has no gradient of its own (and is not the name
    of a member every object inherits), the error handler does what is
    asked of it, after any sequence of operations: it returns, having
    logged the error; if the page has an element with that id, the element
    has the class 'bg-dark-bg', once, and no other element changes, and if
    it has none, the page is as it was; and the section is Unregistered. *)
Theorem error_handler_default now window io reduced doc ops sectionId :
  map_get fallbackClasses sectionId = None →
  sectionId ∉ objectPrototypeKeys →
  let w := run ops (new now window io reduced doc) in
  ∃ w', handleAnimationError sectionId w = Ok w'
    ∧ sectionStatus w' sectionId = Unregistered
    ∧ console w' = console w ++ [WarnAnimationError sectionId]
    ∧ match getElementById sectionId w with
      | Some i =>
          ∃ section, document w !! i = Some section
            ∧ el_id section = Some sectionId
            ∧ document w'
              = <[i := with_classList
                         (set_add (classList section) "bg-dark-bg") section]>
                  (document w)
      | None => document w' = document w
      end.
Proof.
  intros Hg Hproto w.
  destruct (new_inv now window io reduced doc) as [_ Hk0].
  pose proof (run_keys_unique ops _ Hk0) as Hk. fold w in Hk.
  assert (Hunreg : ∀ w2, animations w2 = animations w →
            sectionStatus (unregisterSection sectionId w2) sectionId = Unregistered
            ∧ console (unregisterSection sectionId w2) = console w2
            ∧ document (unregisterSection sectionId w2) = document w2).
  { intros w2 Ha. split; [apply unregisterSection_status; by rewrite Ha|].
    destruct (map_get (animations w2) sectionId) as [a|] eqn:E.
    - by destruct (unregisterSection_registered sectionId a w2 E)
        as (_ & _ & ? & _ & _ & _ & _ & ?).
    - by rewrite unregisterSection_unregistered. }
  unfold handleAnimationError, applyStaticFallback.
  set (w1 := warn (WarnAnimationError sectionId) w).
  change (getElementById sectionId w1) with (getElementById sectionId w).
  change (document w1) with (document w).
  destruct (getElementById sectionId w) as [i|] eqn:Hi.
  - unfold getElementById in Hi. destruct (decide (sectionId = "")); [done|].
    apply indexById_lookup in Hi as (section & Hs & Hid).
    rewrite Hs, Hg. rewrite decide_False by done.
    assert (Hadd : classList_add "bg-dark-bg" (classList section)
                   = Ok (set_add (classList section) "bg-dark-bg")) by done.
    rewrite Hadd. simpl.
    set (w2 := set_document _ w1).
    destruct (Hunreg w2 eq_refl) as (Hst & Hco & Hdoc).
    eexists. split; [done|]. split; [done|]. split; [by rewrite Hco|].
    exists section. by rewrite Hdoc.
  - simpl. destruct (Hunreg w1 eq_refl) as (Hst & Hco & Hdoc).
    eexists. split; [done|]. split; [done|]. split; [by rewrite Hco|].
    by rewrite Hdoc.
Qed.

(** *** The count of animations *)

Lemma map_set_length {V} (m : list (string * V)) k v :
  length (map_set m k v)
  = match map_get m k with Some _ => length m | None => S (length m) end.
Proof.
  induction m as [|[k0 v0] m IH]; simpl; [done|].
  destruct (decide (k0 = k)); simpl; [done|].
  rewrite IH. by destruct (map_get m k).
Qed.

Lemma map_delete_length {V} (m : list (string * V)) k :
  length (map_delete m k)
  = match map_get m k with Some _ => pred (length m) | None => length m end.
Proof.
  induction m as [|[k0 v0] m IH]; simpl; [done|].
  destruct (decide (k0 = k)); simpl; [done|].
  rewrite IH. destruct (map_get m k) as [v|] eqn:E; [|done].
  destruct m; [done|]. done.
Qed.

(** [animationCount] is the size of the map after [registerSection] and
    after [unregisterSection]: one more for a new id and the same for an
    id registered before, one less for a registered id.  [destroy] empties
    the map and leaves the count as it was. *)
Theorem animation_count_tracks w m sectionId a :
  metricsOf (state w) w = Some m →
  animationCount <$> metricsOf (state (registerSection sectionId a w))
                               (registerSection sectionId a w)
  = Some (length (animations (registerSection sectionId a w)))
  ∧ length (animations (registerSection sectionId a w))
    = match map_get (animations w) sectionId with
      | Some _ => length (animations w)
      | None => S (length (animations w))
      end
  ∧ (is_Some (map_get (animations w) sectionId) →
     animationCount <$> metricsOf (state (unregisterSection sectionId w))
                                  (unregisterSection sectionId w)
     = Some (length (animations (unregisterSection sectionId w)))
     ∧ length (animations (unregisterSection sectionId w))
       = pred (length (animations w)))
  ∧ animations (destroy w) = []
  ∧ animationCount <$> metricsOf (state (destroy w)) (destroy w)
    = Some (animationCount m).
Proof.
  intros Hm. unfold metricsOf in *.
  split; [|split; [|split; [|split]]].
  - unfold registerSection, set_count. simpl. by rewrite lookup_alter_eq, Hm.
  - apply map_set_length.
  - intros [a0 Hg]. unfold unregisterSection. rewrite Hg. simpl.
    rewrite lookup_alter_eq, Hm. simpl. split; [done|].
    by rewrite map_delete_length, Hg.
  - by destruct (destroy_facts w) as (? & _).
  - destruct (destroy_facts w) as (_ & _ & _ & _ & _ & _ & _ & _ & _ & -> & ->).
    by rewrite Hm.
Qed.

(** *** Reduced motion *)

(** While the reduced-motion preference is on, the controller starts
    nothing: not for an intersection entry, whatever it reports, and not
    when animations are switched on or off. *)
Theorem reduced_motion_never_starts w :
  reducedMotionEnabled (state w) = true →
  (∀ entries a, CallStart a ∉ newCalls w (handleIntersection entries w))
  ∧ (∀ active a, CallStart a ∉ newCalls w (setActive active w)).
Proof.
  intros Hred. split.
  - intros entries a.
    destruct (handleIntersection_facts entries w) as (_ & Hc & _).
    rewrite (newCalls_app _ _ _ Hc).
    intros (entry & Hin & _)%list_elem_of_bind. revert Hin.
    unfold entryCalls, gate. rewrite Hred, andb_false_r.
    destruct (map_get (animations w) entry.1) as [b|]; [|by intros ?%elem_of_nil].
    destruct entry.2; [by intros ?%elem_of_nil|].
    intros Hin%list_elem_of_singleton. discriminate.
  - intros [|] a.
    + rewrite setActive_true_eq, Hred. unfold newCalls. simpl.
      rewrite drop_all. apply not_elem_of_nil.
    + rewrite setActive_false_eq.
      rewrite (newCalls_app w _ (pauseCalls w)) by done.
      unfold pauseCalls. intros (kv & Heq & _)%list_elem_of_fmap. discriminate.
Qed.

(** *** Unregistering twice *)

(** After any sequence of operations, [unregisterSection] calls [cleanup]
    once on the animation of a registered section and makes no call for
    an id that is not registered; a second call for the same id changes
    nothing. *)
Theorem unregister_twice now window io reduced doc ops sectionId :
  let w := run ops (new now window io reduced doc) in
  newCalls w (unregisterSection sectionId w)
  = match map_get (animations w) sectionId with
    | Some animation => [CallCleanup animation]
    | None => []
    end
  ∧ unregisterSection sectionId (unregisterSection sectionId w)
    = unregisterSection sectionId w.
Proof.
  intros w.
  destruct (new_inv now window io reduced doc) as [_ Hk0].
  pose proof (run_keys_unique ops _ Hk0) as Hk. fold w in Hk.
  destruct (map_get (animations w) sectionId) as [a|] eqn:Hg.
  - destruct (unregisterSection_registered sectionId a w Hg) as (Ha & Hc & _).
    split; [by apply newCalls_app|].
    apply unregisterSection_unregistered. rewrite Ha.
    by apply map_get_delete_eq.
  - rewrite unregisterSection_unregistered by done.
    split; [|by apply unregisterSection_unregistered].
    unfold newCalls. by rewrite drop_all.
Qed.

End WithNumber.

(** *** Concrete runs *)

Import ControllerScenario.
Open Scope string_scope.





Lemma degradation_sample_witness :
  isActive (state (reached (step (OpMonitorFrame 2 100%Q None)
                                 (run twoRunning world0)))) = false
  ∧ sectionStatus (reached (step (OpMonitorFrame 2 100%Q None)
                                 (run twoRunning world0))) "hero"
    = RegisteredPaused.
Proof.
  destruct (degradation_sample (run twoRunning world0) 2 100%Q None
              {| frameRate := 60%Q; memoryUsage := 0%Q; animationCount := 2;
                 lastFrameTime := 0%Q |} eq_refl eq_refl)
    as (_ & Hsev & _).
  destruct (Hsev eq_refl) as [Hactive Hpaused].
  split; [exact Hactive|]. apply (Hpaused "hero" 1 eq_refl).
Defined.

(** C5 as the specification words it fails on its own scenario.  Two
    sections run.  Twenty samples 100 ms apart, 10 frames per second for
    two seconds, log twenty degradation warnings and twenty more that
    animations are disabled, not one; the first sample alone has paused
    both sections.  And forty samples 50 ms apart, 20 frames per second,
    under the threshold of 30 for as long, log forty warnings and leave
    both sections running. *)
Lemma degradation_counterexample :
  sectionStatus (run twoRunning world0) "hero" = RegisteredRunning
  ∧ sectionStatus (run [OpMonitorFrame 2 100%Q None] (run twoRunning world0))
                  "hero" = RegisteredPaused
  ∧ length (List.filter isDegradation
              (newWarnings (run twoRunning world0)
                           (run tenFps (run twoRunning world0)))) = 20
  ∧ length (newWarnings (run twoRunning world0)
                        (run tenFps (run twoRunning world0))) = 40
  ∧ length (newWarnings (run twoRunning world0)
                        (run twentyFps (run twoRunning world0))) = 40
  ∧ isActive (state (run twentyFps (run twoRunning world0))) = true
  ∧ sectionStatus (run twentyFps (run twoRunning world0)) "hero"
    = RegisteredRunning.
Proof. repeat split; vm_compute; reflexivity. Qed.

Lemma error_handler_throws_witness :
  handleAnimationError "hero" (run twoRunning world0)
  = Throw InvalidCharacterError
      (warn (WarnAnimationError "hero") (run twoRunning world0))
  ∧ sectionStatus (reached (handleAnimationError "hero" (run twoRunning world0)))
                  "hero" = RegisteredRunning.
Proof.
  destruct (error_handler_throws (run twoRunning world0) "hero"
              "bg-gradient-to-br from-rich-black via-graphite to-dark-bg" 0
              {| tagName := "section"; el_id := Some "hero";
                 classList := ["relative"] |} eq_refl eq_refl eq_refl)
    as (Hthrow & _ & _ & _ & Hstatus).
  split; [exact Hthrow|]. rewrite Hstatus. reflexivity.
Defined.

Lemma snapshot_shares_witness :
  visibleOf (getState (run [OpRegister "hero" 1] world0))
            (run [OpRegister "hero" 1] world0) = []
  ∧ visibleOf (getState (run [OpRegister "hero" 1] world0))
              (handleIntersection [("hero", true)]
                 (run [OpRegister "hero" 1] world0)) = ["hero"].
Proof.
  destruct (snapshot_shares (run [OpRegister "hero" 1] world0) "hero" 1 []
              {| frameRate := 60%Q; memoryUsage := 0%Q; animationCount := 1;
                 lastFrameTime := 0%Q |} eq_refl eq_refl)
    as (H1 & H2 & _); [apply not_elem_of_nil|reflexivity|].
  split; [exact H1|exact H2].
Defined.

Lemma no_observer_no_start_witness :
  sectionStatus (run withoutObserver noObserver0) "hero" ≠ RegisteredRunning
  ∧ console (init noObserver0) = [WarnNoObserver].
Proof.
  destruct (no_observer_no_start 0%Q true false page withoutObserver eq_refl)
    as (_ & _ & Hstatus & _ & _ & Hinit).
  split; [apply Hstatus|]. by destruct (Hinit eq_refl).
Defined.

Lemma visible_sections_registered_witness :
  is_Some (map_get (animations (run twoRunning world0)) "framework").
Proof.
  apply (visible_sections_registered 0%Q true true false page twoRunning).
  assert (Hv : visibleOf (state (run twoRunning world0)) (run twoRunning world0)
               = ["hero"; "framework"]) by (vm_compute; reflexivity).
  change (new 0%Q true true false page) with world0.
  rewrite Hv. apply list_elem_of_In. simpl. tauto.
Defined.

Lemma unregistered_entries_ignored_witness :
  handleIntersection [("hero", true)] world0 = world0.
Proof.
  apply unregistered_entries_ignored. intros entry _. reflexivity.
Defined.

Lemma destroy_cleans_up_witness :
  runningAfter (calls (destroy (run twoRunning world0))) 1 = false
  ∧ deliver 1 [("hero", true)] (destroy (run twoRunning world0))
    = destroy (run twoRunning world0).
Proof.
  destruct (destroy_cleans_up 0%Q true true false page twoRunning)
    as (_ & _ & _ & _ & _ & Hobs & _ & Hrun).
  split; [apply Hrun; reflexivity|].
  destruct (Hobs 1) as [_ Hdel]; [reflexivity|]. apply Hdel.
Defined.

Lemma error_handler_default_witness :
  ∃ w', handleAnimationError "contact" (run twoRunning world0) = Ok w'
    ∧ sectionStatus w' "contact" = Unregistered.
Proof.
  destruct (error_handler_default 0%Q true true false page twoRunning "contact")
    as (w' & Hok & Hst & _);
    [reflexivity|vm_compute; intros Hin; by repeat (apply elem_of_cons in Hin as [?|Hin]; [done|]); apply elem_of_nil in Hin|].
  exists w'. split; [exact Hok|exact Hst].
Defined.

Lemma animation_count_tracks_witness :
  animationCount <$> metricsOf (state (registerSection "contact" 3
                                         (run twoRunning world0)))
                               (registerSection "contact" 3
                                  (run twoRunning world0))
  = Some 3.
Proof.
  destruct (animation_count_tracks (run twoRunning world0)
              {| frameRate := 60%Q; memoryUsage := 0%Q; animationCount := 2;
                 lastFrameTime := 0%Q |} "contact" 3 eq_refl)
    as (Hreg & _).
  rewrite Hreg. reflexivity.
Defined.

Lemma reduced_motion_never_starts_witness :
  CallStart 1
  ∉ newCalls (run [OpRegister "hero" 1] (new 0%Q true true true page))
      (handleIntersection [("hero", true)]
         (run [OpRegister "hero" 1] (new 0%Q true true true page))).
Proof.
  destruct (reduced_motion_never_starts
              (run [OpRegister "hero" 1] (new 0%Q true true true page)) eq_refl)
    as (Hentries & _).
  apply Hentries.
Defined.

End ControllerFacts.

(** ** The grid and the network *)

Module UtilitiesFacts.
Import Utilities.

Section WithNumber.
Context {num : Type} `{JsNumber num}.
Implicit Types (n : @ConnectionNetwork num).

(** *** organizeToGrid *)

Lemma organizeToGrid_lookup (chaosPositions : list (num * num))
    gridCols gridRows containerWidth containerHeight i :
  i < min (length chaosPositions) (gridCols * gridRows) →
  organizeToGrid chaosPositions gridCols gridRows containerWidth containerHeight
    !! i
  = Some (cellCentre gridCols (div containerWidth (ofNat gridCols))
                     (div containerHeight (ofNat gridRows)) i)
  ∧ i mod gridCols < gridCols
  ∧ i / gridCols < gridRows.
Proof.
  intros Hi. unfold organizeToGrid. cbv zeta. split; [|split].
  - rewrite list_lookup_fmap, lookup_seq_lt by done. done.
  - apply Nat.mod_upper_bound. intros ->. simpl in Hi. lia.
  - apply Nat.Div0.div_lt_upper_bound. lia.
Qed.

Lemma organizeToGrid_length (chaosPositions : list (num * num))
    gridCols gridRows containerWidth containerHeight :
  length (organizeToGrid chaosPositions gridCols gridRows
                         containerWidth containerHeight)
  = min (length chaosPositions) (gridCols * gridRows).
Proof. unfold organizeToGrid. cbv zeta. by rewrite length_fmap, length_seq. Qed.

(** *** addNode and connectNodes *)




(** [connectNodes] by its indices: with both inside the array it adds one
    line, from the first node to the second, and changes nothing else;
    with either at or past the length it does nothing; and with both below
    the length and one below 0, it reads a property of [undefined] and
    raises a [TypeError], no line added. *)
Theorem connectNodes_cases nodeIndex1 nodeIndex2 n :
  let len := Z.of_nat (length (nodes n)) in
  ((0 <= nodeIndex1 < len)%Z → (0 <= nodeIndex2 < len)%Z →
   ∃ node1 node2,
     nodes n !! Z.to_nat nodeIndex1 = Some node1
     ∧ nodes n !! Z.to_nat nodeIndex2 = Some node2
     ∧ connectNodes nodeIndex1 nodeIndex2 n
       = Ok {| nodes := nodes n;
               connections := connections n
                              ++ [{| x1 := node_x node1; y1 := node_y node1;
                                     x2 := node_x node2; y2 := node_y node2 |}];
               created := created n |})
  ∧ ((len <= nodeIndex1)%Z ∨ (len <= nodeIndex2)%Z →
     connectNodes nodeIndex1 nodeIndex2 n = Ok n)
  ∧ ((nodeIndex1 < len)%Z → (nodeIndex2 < len)%Z →
     (nodeIndex1 < 0)%Z ∨ (nodeIndex2 < 0)%Z →
     connectNodes nodeIndex1 nodeIndex2 n = Throw TypeError n).
Proof.
  intros len. unfold connectNodes. fold len.
  split; [|split].
  - intros [H1 H1'] [H2 H2'].
    destruct (lookup_lt_is_Some_2 (nodes n) (Z.to_nat nodeIndex1)) as [node1 E1];
      [subst len; lia|].
    destruct (lookup_lt_is_Some_2 (nodes n) (Z.to_nat nodeIndex2)) as [node2 E2];
      [subst len; lia|].
    exists node1, node2. split; [done|]. split; [done|].
    destruct (Z.leb_spec len nodeIndex1); [lia|].
    destruct (Z.leb_spec len nodeIndex2); [lia|]. simpl.
    unfold at_index.
    destruct (Z.ltb_spec nodeIndex1 0); [lia|].
    destruct (Z.ltb_spec nodeIndex2 0); [lia|].
    by rewrite E1, E2.
  - intros [Hge|Hge].
    + destruct (Z.leb_spec len nodeIndex1); [done|lia].
    + destruct (Z.leb_spec len nodeIndex2); [|lia]. by rewrite orb_true_r.
  - intros H1 H2 Hneg.
    destruct (Z.leb_spec len nodeIndex1); [lia|].
    destruct (Z.leb_spec len nodeIndex2); [lia|]. simpl.
    unfold at_index.
    destruct (Z.ltb_spec nodeIndex1 0).
    + done.
    + destruct (Z.ltb_spec nodeIndex2 0); [|lia].
      by destruct (nodes n !! Z.to_nat nodeIndex1).
Qed.

End WithNumber.

(** *** Over the rationals *)

Lemma strip_unique (a b : nat) (u v : Q) :
  (0 < u)%Q →
  (inject_Z (Z.of_nat a) * u < v < (inject_Z (Z.of_nat a) + 1) * u)%Q →
  (inject_Z (Z.of_nat b) * u < v < (inject_Z (Z.of_nat b) + 1) * u)%Q →
  a = b.
Proof.
  assert (Hlt : ∀ (a b : nat) (v : Q), a < b → (0 < u)%Q →
            (v < (inject_Z (Z.of_nat a) + 1) * u)%Q →
            (inject_Z (Z.of_nat b) * u < v)%Q → False).
  { intros a0 b0 v0 Hab Hu Ha Hb.
    assert (Hm : (inject_Z (Z.of_nat a0) + 1 <= inject_Z (Z.of_nat b0))%Q).
    { change 1%Q with (inject_Z 1).
      rewrite <- inject_Z_plus, <- Zle_Qle. lia. }
    set (c := inject_Z (Z.of_nat a0)) in *.
    set (d := inject_Z (Z.of_nat b0)) in *. clearbody c d.
    assert (Hrest : (0 <= (d - (c + 1)) * u)%Q)
      by (apply Qmult_le_0_compat; lra).
    lra. }
  intros Hu [Ha Ha'] [Hb Hb'].
  destruct (lt_eq_lt_dec a b) as [[Hab|Hab]|Hab]; [|done|].
  - exfalso. by apply (Hlt a b v).
  - exfalso. by apply (Hlt b a v).
Qed.

Lemma cell_strip (k m : nat) (L : Q) :
  0 < m → (0 < L)%Q →
  (0 < L / inject_Z (Z.of_nat m))%Q
  ∧ (inject_Z (Z.of_nat k) * (L / inject_Z (Z.of_nat m))
     < inject_Z (Z.of_nat k) * (L / inject_Z (Z.of_nat m))
       + L / inject_Z (Z.of_nat m) / 2
     < (inject_Z (Z.of_nat k) + 1) * (L / inject_Z (Z.of_nat m)))%Q.
Proof.
  intros Hm HL.
  assert (Hd : (0 < inject_Z (Z.of_nat m))%Q).
  { change 0%Q with (inject_Z 0). rewrite <- Zlt_Qlt. lia. }
  assert (Hu : (0 < L / inject_Z (Z.of_nat m))%Q)
    by (apply Qlt_shift_div_l; lra).
  split; [done|].
  set (u := (L / inject_Z (Z.of_nat m))%Q) in *.
  set (c := inject_Z (Z.of_nat k)). clearbody u c.
  assert (Hhalf : (u / 2 == u * (1 # 2))%Q) by field.
  rewrite Hhalf. split; lra.
Qed.

(** In a container of positive width and height, [organizeToGrid] puts one
    point in each of the first cells of the grid, row by row: the point at
    index [i] lies strictly inside the cell in column [i % gridCols] and
    row [floor(i / gridCols)], a cell of the grid, so that no two of the
    points returned coincide; and there are as many points as chaos
    positions, up to the number of cells. *)
Theorem organizeToGrid_one_per_cell (chaosPositions : list (Q * Q))
    gridCols gridRows (containerWidth containerHeight : Q) :
  (0 < containerWidth)%Q → (0 < containerHeight)%Q →
  let organized :=
    organizeToGrid chaosPositions gridCols gridRows
                   containerWidth containerHeight in
  let cellWidth := (containerWidth / ofNat gridCols)%Q in
  let cellHeight := (containerHeight / ofNat gridRows)%Q in
  length organized = min (length chaosPositions) (gridCols * gridRows)
  ∧ (∀ i p, organized !! i = Some p →
       i mod gridCols < gridCols ∧ i / gridCols < gridRows
       ∧ (ofNat (i mod gridCols) * cellWidth < p.1
          < (ofNat (i mod gridCols) + 1) * cellWidth)%Q
       ∧ (ofNat (i / gridCols) * cellHeight < p.2
          < (ofNat (i / gridCols) + 1) * cellHeight)%Q)
  ∧ (∀ i j p q, organized !! i = Some p → organized !! j = Some q →
       (p.1 == q.1)%Q → (p.2 == q.2)%Q → i = j).
Proof.
  intros HW HH organized cellWidth cellHeight.
  assert (Hcell : ∀ i p, organized !! i = Some p →
            0 < gridCols ∧ 0 < gridRows
            ∧ i mod gridCols < gridCols ∧ i / gridCols < gridRows
            ∧ (0 < cellWidth)%Q ∧ (0 < cellHeight)%Q
            ∧ (ofNat (i mod gridCols) * cellWidth < p.1
               < (ofNat (i mod gridCols) + 1) * cellWidth)%Q
            ∧ (ofNat (i / gridCols) * cellHeight < p.2
               < (ofNat (i / gridCols) + 1) * cellHeight)%Q).
  { intros i p Hi.
    assert (Hlt : i < length organized) by (apply lookup_lt_is_Some; eauto).
    subst organized. rewrite organizeToGrid_length in Hlt.
    destruct (organizeToGrid_lookup chaosPositions gridCols gridRows
                containerWidth containerHeight i Hlt) as (Hp & Hcol & Hrow).
    rewrite Hi in Hp. injection Hp as ->.
    assert (Hc : 0 < gridCols) by lia. assert (Hr : 0 < gridRows) by lia.
    destruct (cell_strip (i mod gridCols) gridCols containerWidth Hc HW)
      as [Hu Hx].
    destruct (cell_strip (i / gridCols) gridRows containerHeight Hr HH)
      as [Hv Hy].
    do 4 (split; [done|]). split; [exact Hu|]. split; [exact Hv|].
    split; [exact Hx|exact Hy]. }
  split; [apply organizeToGrid_length|]. split.
  - intros i p Hi.
    destruct (Hcell i p Hi) as (_ & _ & Hcol & Hrow & _ & _ & Hx & Hy). done.
  - intros i j p q Hi Hj Hx Hy.
    destruct (Hcell i p Hi) as (_ & _ & _ & _ & Hu & Hv & Hpx & Hpy).
    destruct (Hcell j q Hj) as (_ & _ & _ & _ & _ & _ & Hqx & Hqy).
    rewrite <- Hx in Hqx. rewrite <- Hy in Hqy.
    assert (Hcol : i mod gridCols = j mod gridCols)
      by (by apply (strip_unique _ _ cellWidth p.1)).
    assert (Hrow : i / gridCols = j / gridCols)
      by (by apply (strip_unique _ _ cellHeight p.2)).
    rewrite (Nat.div_mod_eq i gridCols), (Nat.div_mod_eq j gridCols).
    by rewrite Hcol, Hrow.
Qed.

(** In a container of positive width and height, every point of the grid
    lies strictly inside the container. *)
Theorem organizeToGrid_inside (chaosPositions : list (Q * Q))
    gridCols gridRows (containerWidth containerHeight : Q) p :
  (0 < containerWidth)%Q → (0 < containerHeight)%Q →
  p ∈ organizeToGrid chaosPositions gridCols gridRows
                     containerWidth containerHeight →
  (0 < p.1 < containerWidth ∧ 0 < p.2 < containerHeight)%Q.
Proof.
  intros HW HH Hin.
  apply list_elem_of_lookup in Hin as [i Hi].
  assert (Hlt : i < length (organizeToGrid chaosPositions gridCols gridRows
                              containerWidth containerHeight)).
  { apply lookup_lt_is_Some. eauto. }
  rewrite organizeToGrid_length in Hlt.
  destruct (organizeToGrid_lookup chaosPositions gridCols gridRows
              containerWidth containerHeight i Hlt) as (Hp & Hcol & Hrow).
  rewrite Hi in Hp. injection Hp as ->.
  assert (Hbound : ∀ (k m : nat) (L : Q), k < m → (0 < L)%Q →
            (0 < inject_Z (Z.of_nat k) * (L / inject_Z (Z.of_nat m))
                 + L / inject_Z (Z.of_nat m) / 2 < L)%Q).
  { intros k m L Hkm HL.
    assert (Hk : (0 <= inject_Z (Z.of_nat k))%Q).
    { change 0%Q with (inject_Z 0). rewrite <- Zle_Qle. lia. }
    assert (Hm : (inject_Z (Z.of_nat k) + 1 <= inject_Z (Z.of_nat m))%Q).
    { change 1%Q with (inject_Z 1). rewrite <- inject_Z_plus, <- Zle_Qle. lia. }
    set (c := inject_Z (Z.of_nat k)) in *. set (d := inject_Z (Z.of_nat m)) in *.
    assert (Hd : (0 < d)%Q) by lra.
    assert (Hu : (0 < L / d)%Q) by (apply Qlt_shift_div_l; lra).
    assert (HL' : (L / d * d == L)%Q) by (field; lra).
    set (u := (L / d)%Q) in *. clearbody u c d.
    assert (Hhalf : (u / 2 == u * (1 # 2))%Q) by field.
    rewrite Hhalf.
    assert (Hcu : (0 <= c * u)%Q) by (apply Qmult_le_0_compat; lra).
    assert (Hrest : (0 <= u * (d - (c + 1)))%Q)
      by (apply Qmult_le_0_compat; lra).
    split; lra. }
  unfold cellCentre. cbn [fst snd add mul div lit ofNat Q_JsNumber].
  split; by apply Hbound.
Qed.

Lemma organizeToGrid_inside_witness :
  (0 < (cellCentre 2 (200 / 2) (100 / 2) 1).1 < 200
   ∧ 0 < (cellCentre 2 (200 / 2) (100 / 2) 1).2 < 100)%Q.
Proof.
  apply (organizeToGrid_inside [(0, 0); (1, 1); (2, 2)]%Q 2 2 200%Q 100%Q);
    [reflexivity|reflexivity|].
  apply (list_elem_of_lookup_2 _ 1). vm_compute. reflexivity.
Defined.

Lemma organizeToGrid_one_per_cell_witness :
  length (organizeToGrid [(0, 0); (1, 1); (2, 2)]%Q 2 2 200%Q 100%Q) = 3.
Proof.
  destruct (organizeToGrid_one_per_cell [(0, 0); (1, 1); (2, 2)]%Q 2 2
              200%Q 100%Q) as (Hlen & _); [reflexivity|reflexivity|].
  exact Hlen.
Defined.


Lemma connectNodes_cases_witness :
  connectNodes (-1) 0 (addNode 10%Q 20%Q
                         {| nodes := []; connections := []; created := 0 |})
  = Throw TypeError (addNode 10%Q 20%Q
                       {| nodes := []; connections := []; created := 0 |}).
Proof.
  destruct (connectNodes_cases (-1) 0
              (addNode 10%Q 20%Q
                 {| nodes := []; connections := []; created := 0 |}))
    as (_ & _ & Hthrow).
  apply Hthrow; [vm_compute; reflexivity|vm_compute; reflexivity|left; lia].
Defined.

End UtilitiesFacts.
